(** * KaTrain [Game]: capture rules, move-tree navigation and handicap stones

    A shallow embedding of [src/game.py] (class [Game]) and the properties
    claimed about it.

    Conventions of the embedding.
    - Python [int]s are [Z]; a board cell holds [-1] (empty) or a chain id.
    - [self.board] is a [list (list Z)], indexed [board[y][x]];
      [self.chains] is a [list (list Move)], indexed by chain id.
    - A method that mutates [self] and may raise becomes a function
      [Game -> Game * Outcome]: the returned [Game] is the object as the call
      leaves it, also when the call raises.
    - Python [set]s of ints are lists; the order in which a set is iterated
      is the method [set_iter] of class [SetOrder].  The general results hold
      for every order that lists a set's elements once each ([SetOrderLaws]);
      concrete positions are evaluated with CPython's order ([PySet]). *)

From stdpp Require Import prelude.

Open Scope Z_scope.

(** ** Moves ([sgf_parser.Move], an external collaborator) *)

(** Modelled from the spec: the players of [sgf_parser.Move], one of two
    colours. *)
Inductive Player := B | W.

(** Modelled from the spec: the class [Move] is imported from [sgf_parser],
    which is not part of the sources.  A move has a player and either a
    coordinate pair [(x, y)] or none (a pass); two moves are equal when
    player and coordinates are. *)
Record Move := mkMove { coords : option (Z * Z); player : Player }.

#[global] Instance Player_eq_dec : EqDecision Player.
Proof. solve_decision. Defined.

#[global] Instance Move_eq_dec : EqDecision Move.
Proof. solve_decision. Defined.

(** Modelled from the spec: [Move.PLAYERS], the two colours in the order
    Black, White. *)
Definition PLAYERS : list Player := [B; W].

Definition is_pass (m : Move) : bool :=
  match coords m with None => true | Some _ => false end.

Definition stone (x y : Z) (p : Player) : Move := mkMove (Some (x, y)) p.

Definition pass (p : Player) : Move := mkMove None p.

(** ** The move tree ([game_node.GameNode], an external collaborator) *)

(** Modelled from the spec: [GameNode] is imported from [game_node], which is
    not part of the sources.  A node holds a move (none for the root), its
    placements (handicap stones), and its children in creation order.  A
    node's identity is its path from the root (the list of child indices);
    the tree is append-only, so a path keeps naming the same node. *)
#[warnings="-register-all"] Inductive GameNode := Node {
  node_move : option Move;
  placements : list Move;
  children : list GameNode }.

(** The node that [path] names in the tree [n], if there is one. *)
Fixpoint node_at (n : GameNode) (path : list nat) : option GameNode :=
  match path with
  | [] => Some n
  | i :: p => c ← children n !! i; node_at c p
  end.

(** Modelled from the spec: [node.move_with_placements], the placements,
    then the node's move. *)
Definition move_with_placements (n : GameNode) : list Move :=
  placements n ++ match node_move n with Some m => [m] | None => [] end.

(** Modelled from the spec: [node.nodes_from_root], the nodes on the way
    from the root to [path]. *)
Fixpoint nodes_from_root (n : GameNode) (path : list nat) : list GameNode :=
  n :: match path with
       | [] => []
       | i :: p => match children n !! i with
                   | Some c => nodes_from_root c p
                   | None => []
                   end
       end.

(** Modelled from the spec: [node.play(move)] appends a child holding
    [move] to the node at [path]. *)
Fixpoint add_child (n : GameNode) (path : list nat) (new : GameNode) : GameNode :=
  match path with
  | [] => Node (node_move n) (placements n) (children n ++ [new])
  | i :: p =>
      Node (node_move n) (placements n)
           (alter (λ c, add_child c p new) i (children n))
  end.

Definition parent_path (path : list nat) : list nat :=
  take (length path - 1)%nat path.

(** ** Iteration order of Python sets *)

(** [set_iter l] lists, in iteration order, the elements of the set built by
    adding the elements of [l] one after the other. *)
Class SetOrder := set_iter : list Z → list Z.

(** What Python promises of a set: each element once.  The sets of this
    program are built from the at most four neighbours of one point. *)
Class SetOrderLaws `{SetOrder} := {
  set_iter_NoDup : ∀ l, (length l ≤ 4)%nat → NoDup (set_iter l);
  set_iter_elem : ∀ l x, (length l ≤ 4)%nat → x ∈ set_iter l ↔ x ∈ l }.

(** CPython's [set] for ints, while it holds fewer than five elements: an
    open-addressing table of eight slots.  A key starts at slot
    [hash & 7]; on a collision the next slot is [(5*i + 1 + perturb) & 7]
    with [perturb] the hash shifted right by five more bits each time.
    Iteration lists the slots in index order. *)
Module PySet.

(** [hash(c)] of a Python int, as an unsigned 64-bit word. *)
Definition py_hash (c : Z) : Z :=
  let h := Z.sgn c * (Z.abs c mod (2 ^ 61 - 1)) in
  (if decide (h = -1) then -2 else h) mod 2 ^ 64.

Abbreviation table := (list (option Z)).

Definition empty : table := replicate 8 None.

(** The slot where key [k] is, or where it goes. *)
Fixpoint probe (fuel : nat) (t : table) (k i perturb : Z) : option nat :=
  match fuel with
  | O => None
  | S fuel' =>
      match t !! Z.to_nat i with
      | Some None => Some (Z.to_nat i)
      | Some (Some k') =>
          if decide (k' = k) then Some (Z.to_nat i)
          else let perturb' := Z.shiftr perturb 5 in
               probe fuel' t k (Z.land (i * 5 + 1 + perturb') 7) perturb'
      | None => None
      end
  end.

Definition slot_of (t : table) (k : Z) : option nat :=
  probe 32 t k (Z.land (py_hash k) 7) (py_hash k).

Definition add (t : table) (k : Z) : table :=
  match slot_of t k with
  | Some i => <[i := Some k]> t
  | None => t
  end.

Definition keys (t : table) : list Z := omap id t.

Definition iter (l : list Z) : list Z := keys (foldl add empty l).

(** The probe sequence once [perturb] has run out, and [d] steps of it. *)
Definition step (i : Z) : Z := Z.land (i * 5 + 1) 7.

Fixpoint orbit (d : nat) (i : Z) : Z :=
  match d with O => i | S d' => orbit d' (step i) end.

(** Looking up a stored key finds its slot. *)
Definition consistent (t : table) : Prop :=
  ∀ s k, t !! s = Some (Some k) → slot_of t k = Some s.

End PySet.

#[global] Instance cpython : SetOrder := PySet.iter.

(** ** Exceptions *)

Inductive IllegalMove :=
  | OutsideBoard (m : Move)
  | SpaceOccupied
  | Ko
  | Suicide.

Inductive PyExn :=
  | IllegalMoveException (reason : IllegalMove)
  | UnexpectedIllegalMove (reason : IllegalMove)
  | IndexError.

Inductive Outcome := Returned | Raised (e : PyExn).

#[global] Instance IllegalMove_eq_dec : EqDecision IllegalMove.
Proof. solve_decision. Defined.

#[global] Instance PyExn_eq_dec : EqDecision PyExn.
Proof. solve_decision. Defined.

#[global] Instance Outcome_eq_dec : EqDecision Outcome.
Proof. solve_decision. Defined.

(** ** The session *)

Record Game := mkGame {
  board_size : Z;
  root : GameNode;
  current_node : list nat;        (* path of the current node *)
  board : list (list Z);          (* board pos -> chain id *)
  chains : list (list Move);      (* chain id -> chain *)
  prisoners : list Move;
  last_capture : list Move }.

Definition set_tree (r : GameNode) (cur : list nat) (g : Game) : Game :=
  mkGame (board_size g) r cur (board g) (chains g) (prisoners g) (last_capture g).

Definition set_current_node (cur : list nat) (g : Game) : Game :=
  set_tree (root g) cur g.

Definition set_board (b : list (list Z)) (g : Game) : Game :=
  mkGame (board_size g) (root g) (current_node g) b (chains g) (prisoners g)
         (last_capture g).

Definition set_chains (c : list (list Move)) (g : Game) : Game :=
  mkGame (board_size g) (root g) (current_node g) (board g) c (prisoners g)
         (last_capture g).

Definition set_prisoners (p : list Move) (g : Game) : Game :=
  mkGame (board_size g) (root g) (current_node g) (board g) (chains g) p
         (last_capture g).

Definition set_last_capture (l : list Move) (g : Game) : Game :=
  mkGame (board_size g) (root g) (current_node g) (board g) (chains g)
         (prisoners g) l.

(** ** Python list indexing *)

(** A Python index into a list of length [len]: [0 .. len-1] as it is,
    [-len .. -1] from the end, anything else raises [IndexError] ([None]). *)
Definition py_index (len : nat) (i : Z) : option nat :=
  let n := Z.of_nat len in
  if decide (0 ≤ i < n) then Some (Z.to_nat i)
  else if decide (- n ≤ i < 0) then Some (Z.to_nat (n + i))
  else None.

(** [board[y][x]] *)
Definition board_get (b : list (list Z)) (x y : Z) : option Z :=
  iy ← py_index (length b) y;
  row ← b !! iy;
  ix ← py_index (length row) x;
  row !! ix.

(** [board[y][x] = v].  Every use writes a cell that the session has read
    before (the point just tested for a stone, or a stone of a chain), so
    the [IndexError] of Python cannot happen there; out of range the model
    leaves the board as it is. *)
Definition board_set (b : list (list Z)) (x y : Z) (v : Z) : list (list Z) :=
  match py_index (length b) y with
  | Some iy =>
      alter (λ row, match py_index (length row) x with
                    | Some ix => <[ix := v]> row
                    | None => row
                    end) iy b
  | None => b
  end.

(** A cell whose coordinates the code has checked to be in
    [0 .. board_size - 1]; the board is always [board_size] rows of
    [board_size] cells, so the default is never used. *)
Definition cell (b : list (list Z)) (x y : Z) : Z :=
  default (-1) (board_get b x y).

(** [self.chains[c]] for a chain id that the code has already indexed. *)
Definition chain_at (chs : list (list Move)) (c : Z) : list Move :=
  default [] (chs !! Z.to_nat c).

(** ** [_validate_move_and_update_chains] *)

(** The four directions, as [(dy, dx)]. *)
Definition DIRS : list (Z * Z) := [(-1, 0); (1, 0); (0, -1); (0, 1)].

Definition on_board (size x y : Z) : Prop :=
  0 ≤ x < size ∧ 0 ≤ y < size.

#[global] Instance on_board_dec size x y : Decision (on_board size x y).
Proof. unfold on_board. apply _. Defined.

(** The inner function [neighbours(moves)]: the elements of the set, in the
    order the comprehension adds them.  Chains hold stones only, never a
    pass, so [m.coords] is always a pair there. *)
Definition neighbours (g : Game) (moves : list Move) : list Z :=
  m ← moves;
  match coords m with
  | None => []
  | Some (x, y) =>
      d ← DIRS;
      if decide (on_board (board_size g) (x + d.2) (y + d.1))
      then [cell (board g) (x + d.2) (y + d.1)]
      else []
  end.

(** [self.chains[c][0].player]; [None] is Python's [IndexError]. *)
Definition chain_player (g : Game) (c : Z) : option Player :=
  ch ← chains g !! Z.to_nat c;
  m ← head ch;
  Some (player m).

(** [c for c in cs if c >= 0 and keep(self.chains[c][0].player)];
    [None] is Python's [IndexError]. *)
Fixpoint select_chains (keep : Player → bool) (g : Game) (cs : list Z)
  : option (list Z) :=
  match cs with
  | [] => Some []
  | c :: cs' =>
      if decide (0 ≤ c) then
        p ← chain_player g c;
        r ← select_chains keep g cs';
        Some (if keep p then c :: r else r)
      else select_chains keep g cs'
  end.

Section validate.
Context `{SetOrder}.

(** [list({c for c in neighbours([move]) if c >= 0 and
           self.chains[c][0].player == move.player})] *)
Definition nb_chains (g : Game) (move : Move) : option (list Z) :=
  r ← select_chains (λ p, bool_decide (p = player move)) g
        (set_iter (neighbours g [move]));
  Some (set_iter r).

(** [{c for c in neighbours([move]) if c >= 0 and
      self.chains[c][0].player != move.player}], as the [for] loop
    goes through it. *)
Definition opp_nb_chains (g : Game) (move : Move) : option (list Z) :=
  r ← select_chains (λ p, bool_decide (p ≠ player move)) g
        (set_iter (neighbours g [move]));
  Some (set_iter r).

(** One round of [for oc in nb_chains[1:]]. *)
Definition absorb (target : Z) (chs : list (list Move)) (oc : Z)
  : list (list Move) :=
  <[Z.to_nat oc := []]>
    (<[Z.to_nat target := chain_at chs target ++ chain_at chs oc]> chs).

(** Lines 87-97: connect the new stone to its friendly neighbours, or
    start a new chain; returns the session and [this_chain]. *)
Definition connect (g : Game) (move : Move) (x y : Z) (nb : list Z)
  : Game * Z :=
  match nb with
  | target :: others =>
      let b := map (map (λ sq, if decide (sq ∈ nb) then target else sq))
                   (board g) in
      let chs := foldl (absorb target) (chains g) others in
      let chs := <[Z.to_nat target := chain_at chs target ++ [move]]> chs in
      (set_chains chs (set_board (board_set b x y target) g), target)
  | [] =>
      let this_chain := Z.of_nat (length (chains g)) in
      (set_board (board_set (board g) x y this_chain)
                 (set_chains (chains g ++ [[move]]) g), this_chain)
  end.

(** [for om in chain: self.board[om.coords[1]][om.coords[0]] = -1] *)
Definition clear_stones (b : list (list Z)) (chain : list Move)
  : list (list Z) :=
  foldl (λ b om, match coords om with
                 | Some (x, y) => board_set b x y (-1)
                 | None => b
                 end) b chain.

(** One round of [for c in opp_nb_chains] (lines 101-105). *)
Definition capture (g : Game) (c : Z) : Game :=
  let chain := chain_at (chains g) c in
  if decide (-1 ∈ neighbours g chain) then g
  else set_chains (<[Z.to_nat c := []]> (chains g))
         (set_board (clear_stones (board g) chain)
            (set_last_capture (last_capture g ++ chain) g)).

(** [len(self.last_capture) == 1 and self.last_capture[0] == move] *)
Definition ko_or_snapback (g : Game) (move : Move) : bool :=
  match last_capture g with
  | [m] => bool_decide (m = move)
  | _ => false
  end.

Definition _validate_move_and_update_chains
    (move : Move) (ignore_ko : bool) (g : Game) : Game * Outcome :=
  let ko := ko_or_snapback g move in
  let g := set_last_capture [] g in
  match coords move with
  | None => (g, Returned)
  | Some (x, y) =>
      match board_get (board g) x y with
      | None => (g, Raised IndexError)
      | Some sq =>
          if decide (sq ≠ -1)
          then (g, Raised (IllegalMoveException SpaceOccupied))
          else
            match nb_chains g move with
            | None => (g, Raised IndexError)
            | Some nb =>
                let '(g, this_chain) := connect g move x y nb in
                match opp_nb_chains g move with
                | None => (g, Raised IndexError)
                | Some opp =>
                    let g := foldl capture g opp in
                    if ko && bool_decide (length (last_capture g) = 1%nat)
                          && negb ignore_ko
                    then (g, Raised (IllegalMoveException Ko))
                    else
                      let g := set_prisoners
                                 (prisoners g ++ last_capture g) g in
                      if decide (-1 ∈ neighbours g
                                        (chain_at (chains g) this_chain))
                      then (g, Returned)
                      else (g, Raised (IllegalMoveException Suicide))
                end
            end
      end
  end.

(** ** [_init_chains]: rebuild the board by replaying the moves *)

(** The [for] loops of [_init_chains]: stop at the first move that
    raises. *)
Fixpoint replay (ms : list Move) (g : Game) : Game * Outcome :=
  match ms with
  | [] => (g, Returned)
  | m :: ms' =>
      match _validate_move_and_update_chains m true g with
      | (g', Returned) => replay ms' g'
      | (g', Raised (IllegalMoveException r)) =>
          (g', Raised (UnexpectedIllegalMove r))
      | (g', Raised e) => (g', Raised e)
      end
  end.

Definition empty_board (size : Z) : list (list Z) :=
  replicate (Z.to_nat size) (replicate (Z.to_nat size) (-1)).

Definition path_moves (r : GameNode) (path : list nat) : list Move :=
  n ← nodes_from_root r path; move_with_placements n.

Definition _init_chains (g : Game) : Game * Outcome :=
  replay (path_moves (root g) (current_node g))
    (mkGame (board_size g) (root g) (current_node g)
            (empty_board (board_size g)) [] [] []).

(** ** [play], [undo], [redo], [switch_branch] *)

(** The test that opens [play]: a move that is not a pass and lies
    outside the board. *)
Definition outside_board (g : Game) (move : Move) : bool :=
  match coords move with
  | Some (x, y) => bool_decide (¬ on_board (board_size g) x y)
  | None => false
  end.

(** Modelled from the spec: [self.current_node.play(move)] gives the tree
    with the new child, and the path of that child. *)
Definition node_play (r : GameNode) (cur : list nat) (move : Move)
  : GameNode * list nat :=
  let n := default 0%nat (length ∘ children <$> node_at r cur) in
  (add_child r cur (Node (Some move) [] []), cur ++ [n]).

Definition play (move : Move) (ignore_ko : bool) (g : Game) : Game * Outcome :=
  if outside_board g move
  then (g, Raised (IllegalMoveException (OutsideBoard move)))
  else
    match _validate_move_and_update_chains move ignore_ko g with
    | (g', Returned) =>
        let '(r, played_node) := node_play (root g') (current_node g') move in
        (set_tree r played_node g', Returned)
    | (g', Raised e) => (g', Raised e)
    end.

Definition undo (g : Game) : Game * Outcome :=
  match current_node g with
  | [] => (g, Returned)                       (* current_node is root *)
  | cur => _init_chains (set_current_node (parent_path cur) g)
  end.

Definition redo (g : Game) : Game * Outcome :=
  match children <$> node_at (root g) (current_node g) with
  | Some (c :: cs) =>
      _init_chains
        (set_current_node (current_node g ++ [length cs]) g)  (* children[-1] *)
  | _ => (g, Returned)
  end.

(** [cm.parent.children.index(cm)] is the last step of the path of [cm];
    the root has no parent. *)
Definition switch_branch (direction : Z) (g : Game) : Game * Outcome :=
  match last (current_node g) with
  | None => (g, Returned)
  | Some ix =>
      let pp := parent_path (current_node g) in
      match children <$> node_at (root g) pp with
      | Some siblings =>
          if decide (1 < length siblings)%nat then
            let ix' := (Z.of_nat ix + direction) `mod` Z.of_nat (length siblings) in
            _init_chains (set_current_node (pp ++ [Z.to_nat ix']) g)
          else (g, Returned)
      | None => (g, Returned)
      end
  end.

(** ** [place_handicap_stones] and the constructor *)

(** Python's slice [l[:n]]. *)
Definition py_slice_to {A} (l : list A) (n : Z) : list A :=
  if decide (0 ≤ n) then take (Z.to_nat n) l
  else take (length l - Z.to_nat (- n))%nat l.

(** [stones[:n_handicaps]] of [place_handicap_stones]. *)
Definition handicap_stones (size n_handicaps : Z) : list (Z * Z) :=
  let near := if decide (13 ≤ size) then 3 else 2 in
  let far := size - 1 - near in
  let middle := size `div` 2 in
  let stones := [(far, far); (near, near); (far, near); (near, far)] in
  let stones := if decide (n_handicaps `mod` 2 = 1)
                then stones ++ [(middle, middle)] else stones in
  let stones := stones ++ [(near, middle); (far, middle);
                           (middle, near); (middle, far)] in
  py_slice_to stones n_handicaps.

(** [self.root.add_property("AB", ...)]: the stones become Black
    placements of the root. *)
Definition place_handicap_stones (n_handicaps : Z) (g : Game) : Game :=
  let r := root g in
  let ab := map (λ xy, stone xy.1 xy.2 B)
                (handicap_stones (board_size g) n_handicaps) in
  set_tree (Node (node_move r) (placements r ++ ab) (children r))
           (current_node g) g.

(** [Game.__init__]: [move_tree] is the loaded tree, if any, and
    [handicap] its [HA] property; a new game starts from an empty root. *)
Definition Game_init (size : Z) (move_tree : option GameNode)
    (handicap : option Z) : Game * Outcome :=
  let g :=
    match move_tree with
    | Some r =>
        let g := mkGame size r [] [] [] [] [] in
        match handicap with
        | Some n => if decide (placements r = []) then place_handicap_stones n g
                    else g
        | None => g
        end
    | None => mkGame size (Node None [] []) [] [] [] [] []
    end in
  _init_chains g.

End validate.

(** ** Derived queries *)

(** [sum(self.chains, [])] *)
Definition stones (g : Game) : list Move := concat (chains g).

(** [[sum([m.player == player for m in self.prisoners])
      for player in Move.PLAYERS]] *)
Definition prisoner_count (g : Game) : list Z :=
  map (λ p, Z.of_nat (length (filter (λ m, player m = p) (prisoners g))))
      PLAYERS.

(** Modelled from the spec: [node.is_pass], the node holds a move and that
    move is a pass; the root holds no move. *)
Definition node_is_pass (n : GameNode) : bool :=
  match node_move n with
  | Some m => is_pass m
  | None => false
  end.

(** [self.current_node.parent and self.current_node.is_pass and
     self.current_node.parent.is_pass], as a truth value. *)
Definition game_ended (g : Game) : bool :=
  match current_node g with
  | [] => false                                  (* the root has no parent *)
  | cur =>
      match node_at (root g) cur, node_at (root g) (parent_path cur) with
      | Some n, Some p => node_is_pass n && node_is_pass p
      | _, _ => false
      end
  end.

(** Playing a list of moves, each with its [ignore_ko]; stops at the first
    call that raises. *)
Fixpoint play_all `{SetOrder} (ms : list (Move * bool)) (g : Game)
  : Game * Outcome :=
  match ms with
  | [] => (g, Returned)
  | m :: ms' =>
      match play m.1 m.2 g with
      | (g', Returned) => play_all ms' g'
      | r => r
      end
  end.

(** * Predicates and examples used in the statements *)

(** ** The board as a grid, and well-formed sessions *)

Definition grid (size : Z) (b : list (list Z)) : Prop :=
  length b = Z.to_nat size ∧ Forall (λ row, length row = Z.to_nat size) b.

(** The board and the chains agree: an occupied cell holds the id of a
    chain that has a stone there, every stone of a chain lies on the cell
    that holds the id of the chain, and the stones of [last_capture] are off
    the board. *)
Record wf (g : Game) : Prop := {
  wf_grid : grid (board_size g) (board g);
  wf_cell : ∀ x y, on_board (board_size g) x y →
    cell (board g) x y = -1 ∨
    (0 ≤ cell (board g) x y ∧
     ∃ p, stone x y p ∈ chain_at (chains g) (cell (board g) x y));
  wf_chain : ∀ c m, 0 ≤ c → m ∈ chain_at (chains g) c →
    ∃ x y, coords m = Some (x, y) ∧ on_board (board_size g) x y ∧
           cell (board g) x y = c;
  wf_last : ∀ m, m ∈ last_capture g →
    ∃ x y, coords m = Some (x, y) ∧ on_board (board_size g) x y ∧
           cell (board g) x y = -1 }.

(** What a call leaves alone. *)
Definition same_session (g g' : Game) : Prop :=
  board_size g' = board_size g ∧ root g' = root g ∧
  current_node g' = current_node g.

(** Chain [c] is on a point of the board next to [(x, y)]. *)
Definition adjacent_chain (g : Game) (x y c : Z) : Prop :=
  ∃ d, d ∈ DIRS ∧ on_board (board_size g) (x + d.2) (y + d.1) ∧
       cell (board g) (x + d.2) (y + d.1) = c.

(** ** The position after a stone is placed and captures are made

    [nb] are the friendly neighbour chains as [nb_chains] lists them, [K] the
    captured chains, [gc] the session after the capture loop. *)

Record placed (g : Game) (move : Move) (x y : Z) (nb K : list Z)
    (gc : Game) (this_chain : Z) : Prop := {
  pl_wf : wf gc;
  pl_session : same_session g gc;
  pl_prisoners : prisoners gc = prisoners g;
  pl_nb_NoDup : NoDup nb;
  pl_nb : ∀ c, c ∈ nb ↔
    0 ≤ c ∧ adjacent_chain g x y c ∧ chain_player g c = Some (player move);
  pl_K : ∀ c, c ∈ K →
    0 ≤ c ∧ adjacent_chain g x y c ∧
    ∃ p, chain_player g c = Some p ∧ p ≠ player move;
  pl_this_chain :
    this_chain = match nb with
                 | t :: _ => t
                 | [] => Z.of_nat (length (chains g))
                 end;
  pl_cell : cell (board gc) x y = this_chain;
  pl_chain : chain_at (chains gc) this_chain =
             concat (map (chain_at (chains g)) nb) ++ [move];
  pl_length : length (chains gc) =
              (length (chains g) + match nb with [] => 1 | _ => 0 end)%nat;
  pl_absorbed : ∀ c, c ∈ tail nb → chain_at (chains gc) c = [];
  pl_captured : ∀ c, c ∈ K → chain_at (chains gc) c = [];
  pl_last_capture :
    last_capture gc = concat (map (chain_at (chains g)) K);
  pl_other : ∀ c, 0 ≤ c → c ∉ nb → c ∉ K → c ≠ this_chain →
    chain_at (chains gc) c = chain_at (chains g) c;
  pl_cells : ∀ x' y', on_board (board_size g) x' y' → ¬ (x' = x ∧ y' = y) →
    cell (board gc) x' y' =
      if decide (cell (board g) x' y' ∈ nb) then this_chain
      else if decide (cell (board g) x' y' ∈ K) then -1
      else cell (board g) x' y' }.

(** Lines 86-105 of [_validate_move_and_update_chains], once the point is
    known to be free: the session after the capture loop, and
    [this_chain]. *)
Definition after_captures `{SetOrder} (g : Game) (move : Move) (x y : Z)
  : option (Game * Z) :=
  let g := set_last_capture [] g in
  nb ← nb_chains g move;
  let g1 := connect g move x y nb in
  opp ← opp_nb_chains g1.1 move;
  Some (foldl capture g1.1 opp, g1.2).

(** ** Positions, liberties *)

(** Positions of a game: a new game, then moves played one by one, each
    call of [play] returning normally. *)
Definition reachable `{SetOrder} (g : Game) : Prop :=
  ∃ size ms, play_all ms (Game_init size None None).1 = (g, Returned).

(** The four points next to [(x, y)]. *)
Definition adjacent_points (x y : Z) : list (Z * Z) :=
  [(x, y - 1); (x, y + 1); (x - 1, y); (x + 1, y)].

(** The liberties of a chain: the empty points of the board next to one of
    its stones. *)
Definition liberties (g : Game) (chain : list Move) : list (Z * Z) :=
  remove_dups
    (m ← chain;
     match coords m with
     | Some (x, y) =>
         filter (λ q, on_board (board_size g) q.1 q.2 ∧
                      cell (board g) q.1 q.2 = -1)
                (adjacent_points x y)
     | None => []
     end).

(** The chain of the stone at [(x, y)]. *)
Definition own_chain (g : Game) (x y : Z) : list Move :=
  chain_at (chains g) (cell (board g) x y).

(** ** Replay and navigation *)

(** The session as [_init_chains] resets it before the replay. *)
Definition cleared (g : Game) : Game :=
  mkGame (board_size g) (root g) (current_node g)
         (empty_board (board_size g)) [] [] [].

(** The tree of a game in which one move followed the other. *)
Fixpoint line (m : option Move) (ms : list Move) : GameNode :=
  Node m [] match ms with
            | [] => []
            | m' :: ms' => [line (Some m') ms']
            end.

(** What the positions of a game are: the moves played form one line, the
    current node is its end, and replaying them gives the session back. *)
Definition in_line `{SetOrder} (g : Game) : Prop :=
  ∃ ms, root g = line None ms ∧
        current_node g = replicate (length ms) 0%nat ∧
        replay ms (cleared g) = (g, Returned).

(** [switch_branch(+1)] called [n] times. *)
Fixpoint switch_times `{SetOrder} (n : nat) (g : Game) : Game :=
  match n with
  | O => g
  | S n' => (switch_branch 1 (switch_times n' g)).1
  end.

(** ** Handicap stones, as the specification words them *)

Definition spec_near (size : Z) : Z := if decide (size < 13) then 2 else 3.

Definition spec_far (size : Z) : Z := size - 1 - spec_near size.

Definition spec_middle (size : Z) : Z := size `div` 2.

(** The candidate points in priority order, for a handicap of [n]. *)
Definition spec_candidates (size n : Z) : list (Z * Z) :=
  let near := spec_near size in
  let far := spec_far size in
  let middle := spec_middle size in
  [(far, far); (near, near); (far, near); (near, far)]
  ++ (if Z.odd n then [(middle, middle)] else [])
  ++ [(near, middle); (far, middle); (middle, near); (middle, far)].

(** The star points of the 19x19 board for handicaps 2 to 9. *)
Definition star_points_19 (n : Z) : list (Z * Z) :=
  let corners := [(15, 15); (3, 3); (15, 3); (3, 15)] in
  if decide (n = 2) then [(15, 15); (3, 3)]
  else if decide (n = 3) then [(15, 15); (3, 3); (15, 3)]
  else if decide (n = 4) then corners
  else if decide (n = 5) then corners ++ [(9, 9)]
  else if decide (n = 6) then corners ++ [(3, 9); (15, 9)]
  else if decide (n = 7) then corners ++ [(9, 9); (3, 9); (15, 9)]
  else if decide (n = 8) then corners ++ [(3, 9); (15, 9); (9, 3); (9, 15)]
  else if decide (n = 9)
       then corners ++ [(9, 9); (3, 9); (15, 9); (9, 3); (9, 15)]
  else [].

(** [Move.PLAYERS.index(p)]: the place of a colour in [prisoner_count]. *)
Definition player_index (p : Player) : nat :=
  match p with B => 0 | W => 1 end.

(** ** Positions used as examples *)

Definition new_game (size : Z) : Game := (Game_init size None None).1.

Definition played (size : Z) (ms : list Move) : Game :=
  (play_all (map (λ m, (m, false)) ms) (new_game size)).1.

(** White at (2,2), then Black on its four sides. *)
Definition capture_moves : list Move :=
  [stone 2 2 W; stone 1 2 B; stone 3 2 B; stone 2 1 B; stone 2 3 B].

Definition capture_position : Game := played 5 capture_moves.

(** A ko: Black has just taken the white stone at (1,1) by playing (2,1). *)
Definition ko_moves : list Move :=
  [stone 1 0 B; stone 2 0 W; stone 0 1 B; stone 1 1 W; stone 1 2 B;
   stone 3 1 W; stone 2 2 W; stone 2 1 B].

Definition ko_position : Game := played 5 ko_moves.

(** Nine black stones apart from each other on a 9x9 board, chains 0 to 8;
    chain 1 is at (2,0), chain 8 at (2,2), and (2,1) lies between them. *)
Definition merge_moves : list Move :=
  [stone 0 0 B; stone 2 0 B; stone 4 0 B; stone 6 0 B; stone 8 0 B;
   stone 0 2 B; stone 0 4 B; stone 0 6 B; stone 2 2 B].

Definition merge_position : Game := played 9 merge_moves.

(** Two variations after the first move: Black (1,1), undone, then
    Black (3,3). *)
Definition branch_position : Game :=
  (play (stone 3 3 B) false
     (undo (play (stone 1 1 B) false (new_game 5)).1).1).1.

(** ** Sessions *)

(** The moves played so far, spelled out. *)
Definition line_of `{SetOrder} (ms : list Move) (g : Game) : Prop :=
  root g = line None ms ∧
  current_node g = replicate (length ms) 0%nat ∧
  replay ms (cleared g) = (g, Returned).

(** The sessions in which no call of [play] was refused: a new game (not
    a loaded tree), then accepted moves and calls of [undo], [redo] and
    [switch_branch], in any order.  A refused call is left out on purpose:
    it leaves its traces on the board, and the rebuild of the chains may
    then give another board or raise (C1, C2 and C7 below). *)
Inductive session `{SetOrder} : Game → Prop :=
  | session_new size : session (new_game size)
  | session_play g move ignore_ko g' :
      session g → play move ignore_ko g = (g', Returned) → session g'
  | session_undo g : session g → session (undo g).1
  | session_redo g : session g → session (redo g).1
  | session_switch g direction :
      session g → session (switch_branch direction g).1.

(** The game in which the moves on the way from the root to the node [p]
    are played one after the other on an empty board, ko ignored. *)
Definition path_game `{SetOrder} (g : Game) (p : list nat) : Game * Outcome :=
  play_all (map (λ m, (m, true)) (path_moves (root g) p))
           (new_game (board_size g)).

(** The tree and the position agree: the current node is in the tree, the
    moves towards every node of the tree can be played, and the position
    is the one the moves towards the current node give. *)
Record coherent `{SetOrder} (g : Game) : Prop := {
  cs_node : is_Some (node_at (root g) (current_node g));
  cs_paths : ∀ p, is_Some (node_at (root g) p) → (path_game g p).2 = Returned;
  cs_position :
    g = set_tree (root g) (current_node g) (path_game g (current_node g)).1 }.

(** ** What holds of the chains of a session *)

(** Every stone of a chain has the colour of the first one. *)
Definition one_colour (g : Game) : Prop :=
  ∀ c m, 0 ≤ c → m ∈ chain_at (chains g) c →
         chain_player g c = Some (player m).

(** Every chain that has stones has a liberty. *)
Definition alive (g : Game) : Prop :=
  ∀ c, 0 ≤ c → chain_at (chains g) c ≠ [] →
       -1 ∈ neighbours g (chain_at (chains g) c).

(** Two occupied points next to each other whose chains are of one colour
    hold the same chain id. *)
Definition maximal (g : Game) : Prop :=
  ∀ x y d, on_board (board_size g) x y → d ∈ DIRS →
    on_board (board_size g) (x + d.2) (y + d.1) →
    0 ≤ cell (board g) x y → 0 ≤ cell (board g) (x + d.2) (y + d.1) →
    chain_player g (cell (board g) x y) =
      chain_player g (cell (board g) (x + d.2) (y + d.1)) →
    cell (board g) x y = cell (board g) (x + d.2) (y + d.1).

(** No two stones of a chain are on the same point. *)
Definition distinct (g : Game) : Prop :=
  ∀ c, 0 ≤ c → NoDup (map coords (chain_at (chains g) c)).

(** The chain id the board holds at the point of a stone. *)
Definition cell_of (g : Game) (co : option (Z * Z)) : Z :=
  match co with
  | Some (x, y) => cell (board g) x y
  | None => -1
  end.

(** Two stones on points next to each other. *)
Definition next_to (m1 m2 : Move) : Prop :=
  ∃ x y d, d ∈ DIRS ∧ coords m1 = Some (x, y) ∧
           coords m2 = Some (x + d.2, y + d.1).

(** Two stones joined by a path of stones of [ch], each next to the one
    before. *)
Definition linked (ch : list Move) : relation Move :=
  rtc (λ m1 m2, m1 ∈ ch ∧ m2 ∈ ch ∧ next_to m1 m2).

(** Every chain is in one piece. *)
Definition connected (g : Game) : Prop :=
  ∀ c m1 m2, 0 ≤ c → m1 ∈ chain_at (chains g) c →
    m2 ∈ chain_at (chains g) c → linked (chain_at (chains g) c) m1 m2.

(** What the rules keep true of the board and the chains. *)
Record sound (g : Game) : Prop := {
  so_wf : wf g;
  so_one_colour : one_colour g;
  so_alive : alive g;
  so_maximal : maximal g;
  so_distinct : distinct g;
  so_connected : connected g }.

(** ** More positions used as examples *)

(** The white stone at (2,2) has one liberty left, at (2,3). *)
Definition atari_position : Game :=
  played 5 [stone 2 2 W; stone 1 2 B; stone 3 2 B; stone 2 1 B].

(** Black has joined the chains at (2,0) and (2,2) by playing (2,1). *)
Definition merged_position : Game :=
  (play (stone 2 1 B) false merge_position).1.

(** ** A game loaded with a handicap *)

(** The position while the handicap stones are put on the board: only
    Black stones, on the points [done], and nothing captured. *)
Definition black_only (size : Z) (done : list (Z * Z)) (g : Game) : Prop :=
  wf g ∧ board_size g = size ∧ last_capture g = [] ∧ prisoners g = [] ∧
  (∀ c m, 0 ≤ c → m ∈ chain_at (chains g) c → player m = B) ∧
  (∀ x y, on_board size x y → cell (board g) x y ≠ -1 ↔ (x, y) ∈ done).

(** Every point of [pts] is on the board and next to a point of the board
    that is not in [pts]. *)
Definition roomy (size : Z) (pts : list (Z * Z)) : Prop :=
  ∀ p, p ∈ pts →
    on_board size p.1 p.2 ∧
    ∃ d, d ∈ DIRS ∧ on_board size (p.1 + d.2) (p.2 + d.1) ∧
         (p.1 + d.2, p.2 + d.1) ∉ pts.

(** * Proofs *)

Set Warnings "-clear-no-such-hyp".

(** ** CPython's set order lists each element once *)

Module PySetFacts.
Import PySet.

Lemma land7_range a : 0 ≤ Z.land a 7 < 8.
Proof.
  change 7 with (Z.ones 3). rewrite Z.land_ones by lia.
  apply Z.mod_pos_bound. lia.
Qed.

(** The recurrence [i -> 5*i + 1] goes through all eight slots. *)
Lemma orbit_reaches i e :
  0 ≤ i < 8 → 0 ≤ e < 8 → ∃ d, (d < 8)%nat ∧ orbit d i = e.
Proof.
  intros Hi He.
  assert (Hall : forallb (λ i, forallb (λ e,
            existsb (λ d, bool_decide (orbit d i = e)) (seq 0 8))
            (seqZ 0 8)) (seqZ 0 8) = true) by (vm_compute; reflexivity).
  rewrite forallb_forall in Hall.
  specialize (Hall i). rewrite <- list_elem_of_In, elem_of_seqZ in Hall.
  specialize (Hall ltac:(lia)). rewrite forallb_forall in Hall.
  specialize (Hall e). rewrite <- list_elem_of_In, elem_of_seqZ in Hall.
  specialize (Hall ltac:(lia)). apply existsb_exists in Hall.
  destruct Hall as (d & Hd & Heq).
  rewrite <- list_elem_of_In, elem_of_seq in Hd.
  apply bool_decide_eq_true in Heq. exists d. split; [lia | done].
Qed.

Lemma probe_zero_perturb t k d : ∀ i n,
  length t = 8%nat → 0 ≤ i < 8 →
  t !! Z.to_nat (orbit d i) = Some None →
  is_Some (probe (S d + n) t k i 0).
Proof.
  induction d as [|d IH]; intros i n Hlen Hi He; simpl in *.
  - rewrite He. eauto.
  - destruct (lookup_lt_is_Some_2 t (Z.to_nat i)) as [[k'|] Hk]; [lia | |];
      rewrite Hk; [|eauto].
    destruct (decide (k' = k)); [eauto|].
    rewrite Z.shiftr_0_l, Z.add_0_r.
    apply (IH (step i) n); [done | apply land7_range | done].
Qed.

Lemma probe_terminates t k n : ∀ p i m,
  length t = 8%nat → 0 ≤ i < 8 → 0 ≤ p < 2 ^ (5 * Z.of_nat n) →
  (∃ e, (e < 8)%nat ∧ t !! e = Some None) →
  is_Some (probe (n + 8 + m) t k i p).
Proof.
  induction n as [|n IH]; intros p i m Hlen Hi Hp (e & He & Hemp).
  - assert (p = 0) as -> by (simpl in Hp; lia).
    destruct (orbit_reaches i (Z.of_nat e)) as (d & Hd & Ho); [lia..|].
    replace (0 + 8 + m)%nat with (S d + (7 - d + m))%nat by lia.
    apply probe_zero_perturb; [done..|]. rewrite Ho, Nat2Z.id. done.
  - simpl.
    destruct (lookup_lt_is_Some_2 t (Z.to_nat i)) as [[k'|] Hk]; [lia | |];
      rewrite Hk; [|eauto].
    destruct (decide (k' = k)); [eauto|].
    apply IH; [done | apply land7_range | | eauto].
    rewrite Z.shiftr_div_pow2 by lia. split.
    + apply Z.div_pos; lia.
    + apply Z.div_lt_upper_bound; [lia|].
      rewrite <- Z.pow_add_r by lia.
      replace (5 + 5 * Z.of_nat n) with (5 * Z.of_nat (S n)) by lia. lia.
Qed.

Lemma py_hash_range k : 0 ≤ py_hash k < 2 ^ 64.
Proof. unfold py_hash. apply Z.mod_pos_bound. lia. Qed.

Lemma slot_of_is_Some t k :
  length t = 8%nat → (∃ e, (e < 8)%nat ∧ t !! e = Some None) →
  is_Some (slot_of t k).
Proof.
  intros Hlen He. unfold slot_of.
  change 32%nat with (13 + 8 + 11)%nat.
  apply probe_terminates; [done | apply land7_range | | done].
  pose proof (py_hash_range k). simpl. lia.
Qed.

Lemma probe_Some f t k : ∀ i p s,
  probe f t k i p = Some s → t !! s = Some None ∨ t !! s = Some (Some k).
Proof.
  induction f as [|f IH]; intros i p s; simpl; [done|].
  destruct (t !! Z.to_nat i) as [[k'|]|] eqn:Hi; [|naive_solver..].
  destruct (decide (k' = k)) as [->|]; [naive_solver|]. apply IH.
Qed.

Lemma probe_insert_other f t k k' s s' : ∀ i p,
  k ≠ k' → t !! s' = Some None → s ≠ s' →
  probe f t k i p = Some s →
  probe f (<[s' := Some k']> t) k i p = Some s.
Proof.
  intros i p Hk Hs' Hne. revert i p.
  induction f as [|f IH]; intros i p; simpl; [done|].
  destruct (decide (Z.to_nat i = s')) as [Heq|Hi].
  - rewrite Heq, Hs'. congruence.
  - rewrite list_lookup_insert_ne by done.
    destruct (t !! Z.to_nat i) as [[k''|]|]; [|done..].
    destruct (decide (k'' = k)); [done|]. apply IH.
Qed.

Lemma probe_insert_self f t k s : ∀ i p,
  t !! s = Some None →
  probe f t k i p = Some s →
  probe f (<[s := Some k]> t) k i p = Some s.
Proof.
  intros i p Hs. revert i p.
  induction f as [|f IH]; intros i p; simpl; [done|].
  destruct (decide (Z.to_nat i = s)) as [Heq|Hi].
  - rewrite Heq, list_lookup_insert_eq by (by eapply lookup_lt_Some).
    rewrite decide_True by done. done.
  - rewrite list_lookup_insert_ne by done.
    destruct (t !! Z.to_nat i) as [[k''|]|]; [|congruence..].
    destruct (decide (k'' = k)); [congruence|]. apply IH.
Qed.

Lemma elem_of_keys t x : x ∈ keys t ↔ ∃ s, t !! s = Some (Some x).
Proof.
  unfold keys. rewrite list_elem_of_omap. split.
  - intros (y & Hy & Hx). simpl in Hx. subst y.
    by apply list_elem_of_lookup in Hy.
  - intros (s & Hs). exists (Some x). split; [|done].
    apply list_elem_of_lookup. eauto.
Qed.

Lemma keys_insert t s k :
  t !! s = Some None → keys (<[s := Some k]> t) ≡ₚ k :: keys t.
Proof.
  intros Hs. unfold keys.
  rewrite insert_take_drop by (by eapply lookup_lt_Some).
  rewrite <- (take_drop_middle t s None) at 3 by done.
  rewrite !omap_app. csimpl. by rewrite Permutation_middle.
Qed.

Lemma free_slot t :
  (length (keys t) < length t)%nat → ∃ e, (e < length t)%nat ∧ t !! e = Some None.
Proof.
  unfold keys. induction t as [|[k|] t IH]; csimpl; intros Hlt; [lia| |].
  - destruct IH as (e & He & Hemp); [lia|]. exists (S e). split; [lia|done].
  - exists 0%nat. split; [lia|done].
Qed.

Lemma add_spec t k :
  length t = 8%nat → consistent t → NoDup (keys t) → (length (keys t) < 8)%nat →
  length (add t k) = 8%nat ∧ consistent (add t k) ∧ NoDup (keys (add t k)) ∧
  (∀ x, x ∈ keys (add t k) ↔ x = k ∨ x ∈ keys t) ∧
  (length (keys (add t k)) ≤ S (length (keys t)))%nat.
Proof.
  intros Hlen Hc Hnd Hfree. unfold add.
  destruct (slot_of_is_Some t k) as [s Hs]; [done| |].
  { rewrite <- Hlen. apply free_slot. lia. }
  rewrite Hs. pose proof (probe_Some _ _ _ _ _ _ Hs) as [Hemp|Hfound].
  - assert (Hnew : k ∉ keys t).
    { rewrite elem_of_keys. intros (s' & Hs'). pose proof (Hc _ _ Hs'). congruence. }
    pose proof (keys_insert t s k Hemp) as Hperm.
    split_and!.
    + by rewrite length_insert.
    + intros s' k' Hs'. destruct (decide (s' = s)) as [->|Hne].
      * rewrite list_lookup_insert_eq in Hs' by (by eapply lookup_lt_Some).
        simplify_eq. by apply probe_insert_self.
      * rewrite list_lookup_insert_ne in Hs' by done.
        apply probe_insert_other; [|done..|by apply Hc].
        intros ->. pose proof (Hc _ _ Hs'). congruence.
    + rewrite Hperm. by constructor.
    + intros x. rewrite Hperm. apply elem_of_cons.
    + rewrite Hperm. simpl. lia.
  - rewrite list_insert_id by done. split_and!; [done..| |lia].
    intros x. split; [auto|]. intros [->|]; [|done].
    apply elem_of_keys. eauto.
Qed.

Lemma foldl_add_spec l : ∀ t,
  length t = 8%nat → consistent t → NoDup (keys t) →
  (length (keys t) + length l ≤ 8)%nat →
  NoDup (keys (foldl add t l)) ∧
  (∀ x, x ∈ keys (foldl add t l) ↔ x ∈ keys t ∨ x ∈ l).
Proof.
  induction l as [|k l IH]; intros t Hlen Hc Hnd Hn; simpl in *.
  - split; [done|]. intros x. rewrite elem_of_nil. tauto.
  - destruct (add_spec t k) as (? & ? & ? & Hel & ?); [done..|lia|].
    destruct (IH (add t k)) as [? Hel']; [done..|lia|].
    split; [done|]. intros x. rewrite Hel', Hel, elem_of_cons. tauto.
Qed.

(** CPython's order lists each element of a small set once. *)
Lemma iter_spec l :
  (length l ≤ 8)%nat → NoDup (iter l) ∧ ∀ x, x ∈ iter l ↔ x ∈ l.
Proof.
  intros Hl. destruct (foldl_add_spec l empty) as [Hnd Hel].
  - done.
  - intros s k Hs. apply list_elem_of_lookup_2 in Hs.
    apply elem_of_replicate in Hs. naive_solver.
  - constructor.
  - simpl. lia.
  - split; [done|]. intros x. unfold iter. rewrite Hel.
    unfold keys, empty. simpl. rewrite elem_of_nil. tauto.
Qed.

End PySetFacts.

#[global] Instance cpython_laws : SetOrderLaws (H := cpython).
Proof.
  split; intros l; intros; apply PySetFacts.iter_spec; lia.
Qed.

(** ** The board as a grid *)

Lemma py_index_on len i :
  0 ≤ i < Z.of_nat len → py_index len i = Some (Z.to_nat i).
Proof. intros Hi. unfold py_index. by rewrite decide_True. Qed.

Lemma grid_lookup size b x y :
  grid size b → on_board size x y →
  ∃ row v, b !! Z.to_nat y = Some row ∧ length row = Z.to_nat size ∧
           row !! Z.to_nat x = Some v.
Proof.
  intros [Hlen Hrows] [Hx Hy].
  destruct (lookup_lt_is_Some_2 b (Z.to_nat y)) as [row Hrow]; [lia|].
  pose proof (Forall_lookup_1 _ _ _ _ Hrows Hrow) as Hr. simpl in Hr.
  destruct (lookup_lt_is_Some_2 row (Z.to_nat x)) as [v Hv]; [lia|].
  eauto.
Qed.

Lemma board_get_on size b x y :
  grid size b → on_board size x y →
  board_get b x y = b !! Z.to_nat y ≫= (.!! Z.to_nat x).
Proof.
  intros Hg Hon. destruct (grid_lookup _ _ _ _ Hg Hon) as (row & v & Hrow & Hl & Hv).
  destruct Hg as [Hlen _], Hon as [Hx Hy].
  unfold board_get. rewrite py_index_on by lia. simpl. rewrite Hrow. simpl.
  rewrite py_index_on by lia. done.
Qed.

Lemma board_get_cell size b x y :
  grid size b → on_board size x y → board_get b x y = Some (cell b x y).
Proof.
  intros Hg Hon. unfold cell. rewrite (board_get_on size) by done.
  destruct (grid_lookup _ _ _ _ Hg Hon) as (row & v & -> & _ & Hv).
  simpl. by rewrite Hv.
Qed.

Lemma grid_board_set size b x y v : grid size b → grid size (board_set b x y v).
Proof.
  intros [Hlen Hrows]. unfold board_set.
  destruct (py_index (length b) y) as [iy|]; [|done]. split.
  - by rewrite length_alter.
  - apply Forall_alter; [done|]. intros row _ Hr.
    destruct (py_index (length row) x); [|done]. by rewrite length_insert.
Qed.

Lemma cell_board_set size b x y v x' y' :
  grid size b → on_board size x y → on_board size x' y' →
  cell (board_set b x y v) x' y' =
    if decide (x' = x ∧ y' = y) then v else cell b x' y'.
Proof.
  intros Hg Hon Hon'. pose proof (grid_board_set size b x y v Hg) as Hg'.
  unfold cell. rewrite !(board_get_on size) by done.
  destruct (grid_lookup _ _ _ _ Hg Hon) as (row & w & Hrow & Hl & Hw).
  destruct Hg as [Hlen _]. destruct Hon as [Hx Hy], Hon' as [Hx' Hy'].
  unfold board_set. rewrite py_index_on by lia.
  destruct (decide (y' = y)) as [->|Hny].
  - rewrite list_lookup_alter_eq, Hrow. simpl. rewrite py_index_on by lia.
    destruct (decide (x' = x)) as [->|Hnx].
    + rewrite list_lookup_insert_eq by lia. by rewrite decide_True.
    + rewrite list_lookup_insert_ne by lia. by rewrite decide_False by tauto.
  - rewrite list_lookup_alter_ne by lia. by rewrite decide_False by tauto.
Qed.

Lemma grid_map size b f : grid size b → grid size (map (map f) b).
Proof.
  intros [Hlen Hrows]. split.
  - by rewrite length_map.
  - apply Forall_fmap. eapply Forall_impl; [done|]. intros row Hr.
    simpl. by rewrite length_map.
Qed.

Lemma cell_map size b f x y :
  grid size b → on_board size x y →
  cell (map (map f) b) x y = f (cell b x y).
Proof.
  intros Hg Hon. pose proof (grid_map size b f Hg) as Hg'.
  unfold cell. rewrite !(board_get_on size) by done.
  destruct (grid_lookup _ _ _ _ Hg Hon) as (row & w & Hrow & Hl & Hw).
  rewrite list_lookup_fmap, Hrow. simpl. rewrite list_lookup_fmap, Hw. done.
Qed.

Lemma grid_empty_board size : grid size (empty_board size).
Proof.
  split.
  - apply length_replicate.
  - apply Forall_replicate. apply length_replicate.
Qed.

Lemma cell_empty_board size x y :
  on_board size x y → cell (empty_board size) x y = -1.
Proof.
  intros Hon. unfold cell.
  rewrite (board_get_on size) by (done || apply grid_empty_board).
  destruct Hon. unfold empty_board.
  rewrite lookup_replicate_2 by lia. simpl. rewrite lookup_replicate_2 by lia.
  done.
Qed.

(** ** Chains *)

Lemma chain_at_lookup chs c ch :
  chs !! Z.to_nat c = Some ch → chain_at chs c = ch.
Proof. unfold chain_at. by intros ->. Qed.

Lemma chain_at_elem chs c m :
  m ∈ chain_at chs c → (Z.to_nat c < length chs)%nat.
Proof.
  unfold chain_at. destruct (chs !! Z.to_nat c) eqn:Hc; simpl.
  - intros _. by eapply lookup_lt_Some.
  - by intros ?%elem_of_nil.
Qed.

Lemma chain_at_insert_eq chs c v :
  (Z.to_nat c < length chs)%nat → chain_at (<[Z.to_nat c := v]> chs) c = v.
Proof. intros Hc. unfold chain_at. by rewrite list_lookup_insert_eq. Qed.

Lemma chain_at_insert_ne chs c c' v :
  0 ≤ c → 0 ≤ c' → c ≠ c' →
  chain_at (<[Z.to_nat c := v]> chs) c' = chain_at chs c'.
Proof.
  intros ? ? Hne. unfold chain_at. by rewrite list_lookup_insert_ne by lia.
Qed.

Lemma chain_at_app_l chs extra c :
  (Z.to_nat c < length chs)%nat → chain_at (chs ++ extra) c = chain_at chs c.
Proof. intros Hc. unfold chain_at. by rewrite lookup_app_l. Qed.

Lemma chain_at_ge chs c :
  (length chs ≤ Z.to_nat c)%nat → chain_at chs c = [].
Proof. intros Hc. unfold chain_at. by rewrite lookup_ge_None_2. Qed.

Lemma chain_player_Some g c p :
  chain_player g c = Some p →
  (Z.to_nat c < length (chains g))%nat ∧
  ∃ m rest, chain_at (chains g) c = m :: rest ∧ player m = p.
Proof.
  unfold chain_player, chain_at. intros Hp.
  destruct (chains g !! Z.to_nat c) as [ch|] eqn:Hc; [|done]. simpl in *.
  split; [by eapply lookup_lt_Some|].
  destruct ch as [|m rest]; simplify_eq/=. eauto.
Qed.

Lemma chain_player_head g c m rest :
  chain_at (chains g) c = m :: rest → chain_player g c = Some (player m).
Proof.
  unfold chain_player, chain_at.
  destruct (chains g !! Z.to_nat c) as [ch|]; simpl; [|done]. by intros ->.
Qed.

(** The chains after the loop [for oc in nb_chains[1:]]. *)
Lemma foldl_absorb t others : ∀ chs,
  0 ≤ t → NoDup (t :: others) →
  (∀ c, c ∈ t :: others → 0 ≤ c ∧ (Z.to_nat c < length chs)%nat) →
  let merged := foldl (absorb t) chs others in
  length merged = length chs ∧
  chain_at merged t = chain_at chs t ++ concat (map (chain_at chs) others) ∧
  (∀ c, c ∈ others → chain_at merged c = []) ∧
  (∀ c, 0 ≤ c → c ∉ t :: others → chain_at merged c = chain_at chs c).
Proof.
  induction others as [|oc os IH]; intros chs Ht Hnd Hval; simpl.
  - split_and!; [done| by rewrite app_nil_r | by intros c ?%elem_of_nil | done].
  - apply NoDup_cons in Hnd as [Hnt Hnd]. apply NoDup_cons in Hnd as [Hnoc Hnd].
    assert (Hoc : 0 ≤ oc ∧ (Z.to_nat oc < length chs)%nat)
      by (apply Hval; set_solver).
    assert (Htv : (Z.to_nat t < length chs)%nat) by (apply Hval; set_solver).
    assert (Hne : t ≠ oc) by set_solver.
    set (chs1 := absorb t chs oc).
    assert (Hlen1 : length chs1 = length chs)
      by (unfold chs1, absorb; by rewrite !length_insert).
    assert (Ht1 : chain_at chs1 t = chain_at chs t ++ chain_at chs oc).
    { unfold chs1, absorb. rewrite chain_at_insert_ne by lia.
      by rewrite chain_at_insert_eq. }
    assert (Hoc1 : chain_at chs1 oc = []).
    { unfold chs1, absorb. rewrite chain_at_insert_eq; [done|].
      rewrite length_insert. lia. }
    assert (Hother : ∀ c, 0 ≤ c → c ≠ t → c ≠ oc →
                          chain_at chs1 c = chain_at chs c).
    { intros c ? ? ?. unfold chs1, absorb.
      by rewrite !chain_at_insert_ne by lia. }
    destruct (IH chs1) as (Hl & Hmt & Hmo & Hmf); [done| | |].
    { apply NoDup_cons. split; [set_solver|done]. }
    { intros c Hc. rewrite Hlen1. apply Hval. set_solver. }
    split_and!.
    + congruence.
    + rewrite Hmt, Ht1, <- app_assoc. simpl. do 3 f_equal.
      apply map_ext_in. intros c Hc%list_elem_of_In.
      apply Hother; [apply Hval|..]; set_solver.
    + intros c [->|Hc]%elem_of_cons; [|by apply Hmo].
      rewrite Hmf; [done|lia|]. set_solver.
    + intros c Hc Hnot. rewrite Hmf by set_solver. apply Hother; set_solver.
Qed.

(** ** Well-formed sessions *)

Lemma move_eta m x y : coords m = Some (x, y) → m = stone x y (player m).
Proof. destruct m as [c p]. simpl. by intros ->. Qed.

Section connect.
Context `{SetOrder}.

Lemma connect_spec g move x y nb :
  wf g → coords move = Some (x, y) → on_board (board_size g) x y →
  cell (board g) x y = -1 → last_capture g = [] → NoDup nb →
  (∀ c, c ∈ nb → 0 ≤ c ∧ (Z.to_nat c < length (chains g))%nat) →
  let g' := (connect g move x y nb).1 in
  let this_chain := (connect g move x y nb).2 in
  wf g' ∧ same_session g g' ∧ prisoners g' = prisoners g ∧
  last_capture g' = last_capture g ∧
  this_chain = match nb with t :: _ => t | [] => Z.of_nat (length (chains g)) end ∧
  0 ≤ this_chain ∧ (this_chain ∉ tail nb) ∧
  cell (board g') x y = this_chain ∧
  chain_at (chains g') this_chain =
    concat (map (chain_at (chains g)) nb) ++ [move] ∧
  (∀ c, c ∈ tail nb → chain_at (chains g') c = []) ∧
  (∀ c, 0 ≤ c → c ∉ nb → c ≠ this_chain →
        chain_at (chains g') c = chain_at (chains g) c) ∧
  (∀ x' y', on_board (board_size g) x' y' → ¬ (x' = x ∧ y' = y) →
        cell (board g') x' y' =
          if decide (cell (board g) x' y' ∈ nb) then this_chain
          else cell (board g) x' y') ∧
  length (chains g') =
    (length (chains g) + match nb with [] => 1 | _ => 0 end)%nat.
Proof.
  intros Hwf Hco Hon Hemp Hnolast Hnd Hval.
  destruct Hwf as [Hgrid Hcell Hchain _].
  destruct nb as [|t others]; simpl.
  - (* a new chain *)
    set (tc := Z.of_nat (length (chains g))).
    assert (Htc : chain_at (chains g ++ [[move]]) tc = [move]).
    { unfold chain_at, tc. rewrite Nat2Z.id.
      rewrite lookup_app_r by lia. by rewrite Nat.sub_diag. }
    assert (Hold : ∀ c, 0 ≤ c → c ≠ tc →
              chain_at (chains g ++ [[move]]) c = chain_at (chains g) c).
    { intros c Hc Hne.
      destruct (decide (Z.to_nat c < length (chains g))%nat).
      - by apply chain_at_app_l.
      - rewrite !chain_at_ge; [done|lia|]. rewrite length_app. simpl.
        unfold tc in Hne. lia. }
    assert (Hcells : ∀ x' y', on_board (board_size g) x' y' →
              ¬ (x' = x ∧ y' = y) →
              cell (board_set (board g) x y tc) x' y' = cell (board g) x' y').
    { intros x' y' Hon' Hne.
      rewrite (cell_board_set (board_size g)) by done.
      by rewrite decide_False. }
    assert (Hhere : cell (board_set (board g) x y tc) x y = tc).
    { rewrite (cell_board_set (board_size g)) by done. by rewrite decide_True. }
    split_and!; try done; try (unfold tc; lia);
      try (by rewrite length_app).
    + split; simpl.
      * by apply grid_board_set.
      * intros x' y' Hon'. destruct (decide (x' = x ∧ y' = y)) as [[-> ->]|Hne].
        { right. rewrite Hhere. split; [unfold tc; lia|].
          exists (player move). rewrite Htc, <- (move_eta move x y) by done.
          apply list_elem_of_singleton. done. }
        rewrite Hcells by done.
        destruct (Hcell x' y' Hon') as [?|[Hpos [p Hp]]]; [by left|right].
        split; [done|]. exists p. rewrite Hold; [done..|].
        apply chain_at_elem in Hp. unfold tc. lia.
      * intros c m Hc Hm. destruct (decide (c = tc)) as [->|Hne].
        { rewrite Htc in Hm. apply list_elem_of_singleton in Hm as ->. eauto. }
        rewrite Hold in Hm by done.
        destruct (Hchain c m Hc Hm) as (x' & y' & Hm' & Hon' & Hc').
        exists x', y'. split_and!; [done..|]. rewrite Hcells; [done..|].
        intros [-> ->]. lia.
      * rewrite Hnolast. by intros m ?%elem_of_nil.
    + by intros ?%elem_of_nil.
    + by intros c ?%elem_of_nil.
    + intros c Hc _ Hne. by apply Hold.
  - (* merge into [t] *)
    assert (Ht : 0 ≤ t ∧ (Z.to_nat t < length (chains g))%nat)
      by (apply Hval; set_solver).
    destruct (foldl_absorb t others (chains g)) as (Hlen & Hmt & Hmo & Hmf);
      [lia|done|done|].
    set (merged := foldl (absorb t) (chains g) others) in *.
    set (f := λ sq : Z, if decide (sq ∈ t :: others) then t else sq).
    set (b := board_set (map (map f) (board g)) x y t).
    set (chs := <[Z.to_nat t := chain_at merged t ++ [move]]> merged).
    pose proof (grid_map _ _ f Hgrid) as Hgm.
    assert (Hct : chain_at chs t =
                  (chain_at (chains g) t ++
                   concat (map (chain_at (chains g)) others)) ++ [move]).
    { unfold chs. rewrite chain_at_insert_eq by lia. by rewrite Hmt. }
    assert (Hcother : ∀ c, 0 ≤ c → c ≠ t → chain_at chs c = chain_at merged c).
    { intros c ? ?. unfold chs. by rewrite chain_at_insert_ne by lia. }
    assert (Hhere : cell b x y = t).
    { unfold b. rewrite (cell_board_set (board_size g)) by done.
      by rewrite decide_True. }
    assert (Hcells : ∀ x' y', on_board (board_size g) x' y' →
              ¬ (x' = x ∧ y' = y) → cell b x' y' = f (cell (board g) x' y')).
    { intros x' y' Hon' Hne. unfold b.
      rewrite (cell_board_set (board_size g)) by done.
      rewrite decide_False by done. by apply (cell_map (board_size g)). }
    assert (Hnt : t ∉ others) by (by apply NoDup_cons in Hnd as [? _]).
    split_and!; try done; try lia.
    + split; simpl; fold b chs.
      * by apply grid_board_set.
      * intros x' y' Hon'. destruct (decide (x' = x ∧ y' = y)) as [[-> ->]|Hne].
        { right. rewrite Hhere. split; [lia|]. exists (player move).
          rewrite Hct, <- (move_eta move x y) by done. set_solver. }
        rewrite Hcells by done.
        destruct (Hcell x' y' Hon') as [Hc|[Hpos [p Hp]]].
        { left. rewrite Hc. unfold f. rewrite decide_False; [done|].
          intros Hin. apply Hval in Hin. lia. }
        right. unfold f. destruct (decide (_ ∈ t :: others)) as [Hin|Hnin].
        { split; [lia|]. exists p. rewrite Hct.
          apply elem_of_cons in Hin as [<-|Hin]; [set_solver|].
          apply elem_of_app. left. apply elem_of_app. right.
          apply list_elem_of_In, in_concat. eexists. split.
          - apply in_map, list_elem_of_In, Hin.
          - by apply list_elem_of_In. }
        split; [done|]. exists p. rewrite Hcother by set_solver.
        by rewrite Hmf.
      * intros c m Hc Hm. destruct (decide (c = t)) as [->|Hne].
        { rewrite Hct in Hm.
          apply elem_of_app in Hm as [Hm|Hm];
            [|apply list_elem_of_singleton in Hm as ->; eauto].
          assert (∃ c', c' ∈ t :: others ∧ m ∈ chain_at (chains g) c')
            as (c' & Hc' & Hm').
          { apply elem_of_app in Hm as [Hm|Hm]; [exists t; set_solver|].
            apply list_elem_of_In, in_concat in Hm as (ch & Hch & Hm).
            apply in_map_iff in Hch as (c' & <- & Hc').
            exists c'. split; [|by apply list_elem_of_In].
            apply elem_of_cons. right. by apply list_elem_of_In. }
          destruct (Hchain c' m) as (x' & y' & Hm'' & Hon' & Hcc);
            [by apply Hval|done|].
          exists x', y'. split_and!; [done..|]. rewrite Hcells; [|done|].
          - rewrite Hcc. unfold f. by rewrite decide_True.
          - intros [-> ->]. apply Hval in Hc'. lia. }
        rewrite Hcother in Hm by done.
        destruct (decide (c ∈ others)) as [Hin|Hnin].
        { rewrite Hmo in Hm by done. by apply elem_of_nil in Hm. }
        rewrite Hmf in Hm by set_solver.
        destruct (Hchain c m Hc Hm) as (x' & y' & Hm' & Hon' & Hcc).
        exists x', y'. split_and!; [done..|]. rewrite Hcells; [|done|].
        -- rewrite Hcc. unfold f. rewrite decide_False; [done|set_solver].
        -- intros [-> ->]. lia.
      * rewrite Hnolast. by intros m ?%elem_of_nil.
    + intros c Hc. fold chs. rewrite Hcother; [by apply Hmo| |set_solver].
      apply Hval. set_solver.
    + intros c Hc Hnin Hne. fold chs. rewrite Hcother by done.
      by apply Hmf.
    + simpl. fold merged chs. unfold chs. rewrite length_insert. lia.
Qed.

End connect.

Section capture.
Context `{SetOrder}.

Lemma clear_stones_spec size chain : ∀ b,
  grid size b →
  (∀ m, m ∈ chain → ∃ x y, coords m = Some (x, y) ∧ on_board size x y) →
  grid size (clear_stones b chain) ∧
  ∀ x y, on_board size x y →
    ((∃ p, stone x y p ∈ chain) → cell (clear_stones b chain) x y = -1) ∧
    ((∀ p, stone x y p ∉ chain) →
        cell (clear_stones b chain) x y = cell b x y) ∧
    (cell b x y = -1 → cell (clear_stones b chain) x y = -1).
Proof.
  unfold clear_stones.
  induction chain as [|om chain IH]; intros b Hg Hon; simpl.
  - split; [done|]. intros x y _. split_and!; [|done..].
    intros [p Hp]. by apply elem_of_nil in Hp.
  - destruct (Hon om) as (ox & oy & Hom & Hoon); [set_solver|]. rewrite Hom.
    destruct (IH (board_set b ox oy (-1))) as [Hg' Hcells].
    { by apply grid_board_set. }
    { intros m Hm. apply Hon. set_solver. }
    split; [done|]. intros x y Hxy.
    destruct (Hcells x y Hxy) as (Hin & Hout & Hemp).
    pose proof (cell_board_set size b ox oy (-1) x y Hg Hoon Hxy) as Hset.
    split_and!.
    + intros [p [Hp|Hp]%elem_of_cons]; [|by eauto].
      apply Hemp. rewrite Hset. rewrite (move_eta om ox oy Hom) in Hp.
      injection Hp as -> -> _. by rewrite decide_True.
    + intros Hnot. rewrite Hout by set_solver. rewrite Hset.
      rewrite decide_False; [done|]. intros [-> ->].
      apply (Hnot (player om)). rewrite <- (move_eta om ox oy Hom). set_solver.
    + intros Hb. apply Hemp. rewrite Hset. by destruct (decide _).
Qed.

(** One round of the capture loop. *)
Lemma capture_spec g c :
  wf g → 0 ≤ c →
  let g' := capture g c in
  wf g' ∧ same_session g g' ∧ prisoners g' = prisoners g ∧
  length (chains g') = length (chains g) ∧
  (g' = g ∨
   (last_capture g' = last_capture g ++ chain_at (chains g) c ∧
    chain_at (chains g') c = [] ∧
    (∀ c', 0 ≤ c' → c' ≠ c →
       chain_at (chains g') c' = chain_at (chains g) c') ∧
    ∀ x y, on_board (board_size g) x y →
      cell (board g') x y =
        if decide (cell (board g) x y = c) then -1 else cell (board g) x y)).
Proof.
  intros Hwf Hc. unfold capture.
  destruct (decide (-1 ∈ neighbours g (chain_at (chains g) c))) as [|_];
    simpl; [split_and!; [done | by unfold same_session | done | done | by left]|].
  destruct Hwf as [Hgrid Hcell Hchain Hlast].
  set (chain := chain_at (chains g) c).
  destruct (clear_stones_spec (board_size g) chain (board g)) as [Hg' Hclear];
    [done| |].
  { intros m Hm. destruct (Hchain c m Hc Hm) as (x & y & ? & ? & _). eauto. }
  assert (Hcells : ∀ x y, on_board (board_size g) x y →
            cell (clear_stones (board g) chain) x y =
              if decide (cell (board g) x y = c) then -1 else cell (board g) x y).
  { intros x y Hon. destruct (Hclear x y Hon) as (Hin & Hout & _).
    destruct (decide (cell (board g) x y = c)) as [Heq|Hne].
    - apply Hin. destruct (Hcell x y Hon) as [?|[_ Hp]]; [lia|].
      by rewrite Heq in Hp.
    - apply Hout. intros p Hp.
      destruct (Hchain c _ Hc Hp) as (x' & y' & Hco & _ & Hcc).
      simpl in Hco. by simplify_eq. }
  assert (Hgone : chain_at (<[Z.to_nat c := []]> (chains g)) c = []).
  { destruct (decide (Z.to_nat c < length (chains g))%nat).
    - by apply chain_at_insert_eq.
    - apply chain_at_ge. rewrite length_insert. lia. }
  assert (Hkeep : ∀ c', 0 ≤ c' → c' ≠ c →
            chain_at (<[Z.to_nat c := []]> (chains g)) c' = chain_at (chains g) c').
  { intros c' ? ?. by apply chain_at_insert_ne. }
  split_and!; [|done|done|by rewrite length_insert|right; done].
  split; simpl.
  - done.
  - intros x y Hon. rewrite Hcells by done.
    destruct (decide (cell (board g) x y = c)); [by left|].
    destruct (Hcell x y Hon) as [?|[? [p Hp]]]; [by left|right].
    split; [done|]. exists p. by rewrite Hkeep.
  - intros c' m Hc' Hm. destruct (decide (c' = c)) as [->|Hne].
    { rewrite Hgone in Hm. by apply elem_of_nil in Hm. }
    rewrite Hkeep in Hm by done.
    destruct (Hchain c' m Hc' Hm) as (x & y & ? & ? & Hcc).
    exists x, y. split_and!; [done..|]. rewrite Hcells by done.
    rewrite decide_False by lia. done.
  - intros m [Hm|Hm]%elem_of_app.
    + destruct (Hlast m Hm) as (x & y & ? & ? & Hcc).
      exists x, y. split_and!; [done..|]. rewrite Hcells by done.
      by destruct (decide _).
    + destruct (Hchain c m Hc Hm) as (x & y & ? & ? & Hcc).
      exists x, y. split_and!; [done..|]. rewrite Hcells by done.
      by rewrite decide_True.
Qed.

(** The whole loop [for c in opp_nb_chains]: [K] lists the captured chains. *)
Lemma captures_spec cs : ∀ g,
  wf g → NoDup cs → (∀ c, c ∈ cs → 0 ≤ c) →
  ∃ K, K ⊆ cs ∧
    let g' := foldl capture g cs in
    wf g' ∧ same_session g g' ∧ prisoners g' = prisoners g ∧
    length (chains g') = length (chains g) ∧
    last_capture g' = last_capture g ++ concat (map (chain_at (chains g)) K) ∧
    (∀ c, c ∈ K → chain_at (chains g') c = []) ∧
    (∀ c, 0 ≤ c → c ∉ K → chain_at (chains g') c = chain_at (chains g) c) ∧
    ∀ x y, on_board (board_size g) x y →
      cell (board g') x y =
        if decide (cell (board g) x y ∈ K) then -1 else cell (board g) x y.
Proof.
  induction cs as [|c cs IH]; intros g Hwf Hnd Hpos; simpl.
  - exists []. split; [done|]. split_and!; try done.
    + by rewrite app_nil_r.
    + by intros c ?%elem_of_nil.
  - apply NoDup_cons in Hnd as [Hnc Hnd].
    destruct (capture_spec g c Hwf) as (Hwf1 & Hs1 & Hp1 & Hlen1 & Hstep);
      [apply Hpos; set_solver|].
    destruct (IH (capture g c)) as (K & HK & Hwf' & Hs' & Hp' & Hlen' & Hl' & HKc & Hoc & Hcells);
      [done|done|intros; apply Hpos; set_solver|].
    destruct Hs1 as (Hsz & Hr1 & Hcur1), Hs' as (Hsz' & Hr' & Hcur').
    destruct Hstep as [Heq|(Hl1 & Hgone & Hkeep & Hcells1)].
    + rewrite Heq in *. exists K. split; [set_solver|]. done.
    + exists (c :: K). split; [set_solver|].
      assert (HKpos : ∀ c', c' ∈ K → 0 ≤ c' ∧ c' ≠ c).
      { intros c' Hc'. split; [apply Hpos; set_solver|]. set_solver. }
      split_and!.
      * done.
      * unfold same_session. split_and!; congruence.
      * congruence.
      * congruence.
      * rewrite Hl', Hl1, <- app_assoc. simpl. do 2 f_equal.
        f_equal. apply map_ext_in. intros c' Hc'%list_elem_of_In.
        apply Hkeep; by apply HKpos.
      * intros c' [->|Hc']%elem_of_cons; [|by apply HKc].
        rewrite Hoc; [done|apply Hpos; set_solver|set_solver].
      * intros c' Hc' Hnot. rewrite Hoc by set_solver.
        apply Hkeep; set_solver.
      * intros x y Hon. rewrite Hcells by (by rewrite Hsz).
        rewrite Hcells1 by done.
        destruct (decide (cell (board g) x y = c)) as [Heq|Hne].
        -- rewrite decide_False, decide_True; [done|set_solver|].
           intros Hin. apply HKpos in Hin. lia.
        -- destruct (decide (cell (board g) x y ∈ K)).
           ++ by rewrite decide_True by set_solver.
           ++ by rewrite decide_False by set_solver.
Qed.

End capture.

(** ** Neighbours and the two chain sets *)

Lemma elem_of_neighbours g ms v :
  v ∈ neighbours g ms ↔
  ∃ m x y d, m ∈ ms ∧ coords m = Some (x, y) ∧ d ∈ DIRS ∧
    on_board (board_size g) (x + d.2) (y + d.1) ∧
    v = cell (board g) (x + d.2) (y + d.1).
Proof.
  unfold neighbours. rewrite list_elem_of_bind. split.
  - intros (m & Hv & Hm). destruct (coords m) as [[x y]|] eqn:Hco;
      [|by apply elem_of_nil in Hv].
    apply list_elem_of_bind in Hv as (d & Hv & Hd).
    destruct (decide (on_board _ _ _)); [|by apply elem_of_nil in Hv].
    apply list_elem_of_singleton in Hv. exists m, x, y, d. done.
  - intros (m & x & y & d & Hm & Hco & Hd & Hon & ->).
    exists m. split; [|done]. rewrite Hco. apply list_elem_of_bind.
    exists d. split; [|done]. rewrite decide_True by done.
    by apply list_elem_of_singleton.
Qed.

Lemma neighbours_length g m : (length (neighbours g [m]) ≤ 4)%nat.
Proof.
  unfold neighbours. csimpl. rewrite app_nil_r.
  destruct (coords m) as [[x y]|]; [|simpl; lia].
  unfold DIRS. csimpl. rewrite !length_app.
  repeat (destruct (decide (on_board _ _ _)); simpl); lia.
Qed.

Lemma neighbours_mono g m ms v :
  m ∈ ms → v ∈ neighbours g [m] → v ∈ neighbours g ms.
Proof.
  rewrite !elem_of_neighbours.
  intros Hm (m' & x & y & d & ->%list_elem_of_singleton & ?).
  exists m, x, y, d. tauto.
Qed.

Lemma neighbours_adjacent g move x y c :
  coords move = Some (x, y) →
  c ∈ neighbours g [move] ↔ adjacent_chain g x y c.
Proof.
  intros Hco. rewrite elem_of_neighbours. unfold adjacent_chain. split.
  - intros (m & x' & y' & d & ->%list_elem_of_singleton & Hco' & Hd & Hon & ->).
    simplify_eq. eauto.
  - intros (d & Hd & Hon & <-). exists move, x, y, d.
    split_and!; [by apply list_elem_of_singleton|done..].
Qed.

Lemma DIRS_move d x y : d ∈ DIRS → ¬ (x + d.2 = x ∧ y + d.1 = y).
Proof.
  unfold DIRS. rewrite !elem_of_cons, elem_of_nil.
  intros [->|[->|[->|[->|[]]]]]; simpl; lia.
Qed.

Lemma chain_player_alt g c :
  chain_player g c = player <$> head (chain_at (chains g) c).
Proof.
  unfold chain_player, chain_at.
  destruct (chains g !! Z.to_nat c) as [[|m ch]|]; done.
Qed.

Lemma select_chains_spec keep g cs :
  (∀ c, c ∈ cs → 0 ≤ c → is_Some (chain_player g c)) →
  ∃ r, select_chains keep g cs = Some r ∧ (length r ≤ length cs)%nat ∧
    ∀ c, c ∈ r ↔ c ∈ cs ∧ 0 ≤ c ∧
                 ∃ p, chain_player g c = Some p ∧ keep p = true.
Proof.
  induction cs as [|c cs IH]; intros Hok; simpl.
  - exists []. split_and!; [done..|]. intros c. set_solver.
  - destruct IH as (r & -> & Hlen & Hr); [intros; apply Hok; set_solver|].
    destruct (decide (0 ≤ c)) as [Hc|Hc].
    + destruct (Hok c) as [p Hp]; [set_solver|done|]. rewrite Hp. simpl.
      destruct (keep p) eqn:Hk.
      * eexists. split_and!; [done|simpl; lia|]. intros c'.
        rewrite !elem_of_cons, Hr. split; [|naive_solver].
        intros [->|?]; [|naive_solver]. split_and!; eauto.
      * eexists. split_and!; [done|lia|]. intros c'.
        rewrite elem_of_cons, Hr. split; [naive_solver|].
        intros ([->|?] & ? & p' & Hp' & Hk'); [|naive_solver]. congruence.
    + eexists. split_and!; [done|lia|]. intros c'.
      rewrite elem_of_cons, Hr. split; [naive_solver|].
      intros ([->|?] & ? & ?); [lia|naive_solver].
Qed.

Section placing.
Context `{SetOrder, !SetOrderLaws}.

Lemma wf_neighbour_player g ms c :
  wf g → c ∈ neighbours g ms → 0 ≤ c → is_Some (chain_player g c).
Proof.
  intros Hwf (m & x & y & d & _ & _ & _ & Hon & ->)%elem_of_neighbours Hc.
  destruct (wf_cell g Hwf _ _ Hon) as [?|[_ [p Hp]]]; [lia|].
  rewrite chain_player_alt.
  destruct (chain_at _ _); [by apply elem_of_nil in Hp|]. simpl. eauto.
Qed.

Lemma chain_set_spec keep g move :
  wf g →
  ∃ cs, (r ← select_chains keep g (set_iter (neighbours g [move]));
         Some (set_iter r)) = Some cs ∧
    NoDup cs ∧
    ∀ c, c ∈ cs ↔ c ∈ neighbours g [move] ∧ 0 ≤ c ∧
                  ∃ p, chain_player g c = Some p ∧ keep p = true.
Proof.
  intros Hwf. pose proof (neighbours_length g move) as Hlen.
  destruct (select_chains_spec keep g (set_iter (neighbours g [move])))
    as (r & -> & Hrl & Hr).
  { intros c Hc. rewrite set_iter_elem in Hc by done.
    by apply (wf_neighbour_player g [move]). }
  assert (length (set_iter (neighbours g [move])) ≤ 4)%nat as Hl2.
  { etrans; [|exact Hlen]. apply submseteq_length, NoDup_submseteq.
    - by apply set_iter_NoDup.
    - intros c. by apply set_iter_elem. }
  simpl. eexists. split; [done|]. split.
  - apply set_iter_NoDup. lia.
  - intros c. rewrite set_iter_elem by lia. rewrite Hr.
    by rewrite set_iter_elem by done.
Qed.

End placing.

(** ** The position after the stone is placed and captures are made *)

Section validate_facts.
Context `{SetOrder, !SetOrderLaws}.

Lemma select_chains_ext keep g g' cs :
  chains g' = chains g → select_chains keep g' cs = select_chains keep g cs.
Proof.
  intros Hch. induction cs as [|c cs IH]; simpl; [done|].
  rewrite IH. unfold chain_player. by rewrite Hch.
Qed.

Lemma nb_chains_last_capture l g move :
  nb_chains (set_last_capture l g) move = nb_chains g move.
Proof.
  unfold nb_chains.
  by rewrite (select_chains_ext _ g (set_last_capture l g)).
Qed.

Lemma validate_unfold g move ignore_ko x y gc this_chain :
  coords move = Some (x, y) →
  board_get (board g) x y = Some (-1) →
  after_captures g move x y = Some (gc, this_chain) →
  _validate_move_and_update_chains move ignore_ko g =
    if ko_or_snapback g move && bool_decide (length (last_capture gc) = 1%nat)
       && negb ignore_ko
    then (gc, Raised (IllegalMoveException Ko))
    else
      let g3 := set_prisoners (prisoners gc ++ last_capture gc) gc in
      if decide (-1 ∈ neighbours g3 (chain_at (chains g3) this_chain))
      then (g3, Returned)
      else (g3, Raised (IllegalMoveException Suicide)).
Proof.
  intros Hco Hget Hafter. unfold _validate_move_and_update_chains.
  rewrite Hco. simpl. rewrite Hget. rewrite decide_False by (intros ?; done).
  unfold after_captures in Hafter.
  destruct (nb_chains (set_last_capture [] g) move) as [nb|]; [|done].
  simpl in Hafter.
  destruct (connect (set_last_capture [] g) move x y nb) as [g1 tc].
  simpl in Hafter.
  destruct (opp_nb_chains g1 move) as [opp|]; [|done].
  simpl in Hafter. by simplify_eq.
Qed.

Lemma after_captures_placed g move x y :
  wf g → coords move = Some (x, y) → on_board (board_size g) x y →
  cell (board g) x y = -1 →
  ∃ nb K gc this_chain,
    after_captures g move x y = Some (gc, this_chain) ∧
    nb_chains (set_last_capture [] g) move = Some nb ∧
    placed g move x y nb K gc this_chain.
Proof.
  intros Hwf Hco Hon Hemp.
  set (g0 := set_last_capture [] g).
  assert (Hwf0 : wf g0).
  { destruct Hwf. split; try done. by intros m ?%elem_of_nil. }
  unfold after_captures. fold g0.
  (* the friendly neighbours *)
  destruct (chain_set_spec (λ p, bool_decide (p = player move)) g0 move Hwf0)
    as (nb & Hnb & Hnd & Hnbel).
  unfold nb_chains. rewrite Hnb. simpl.
  assert (Hnbval : ∀ c, c ∈ nb →
            0 ≤ c ∧ adjacent_chain g x y c ∧
            chain_player g c = Some (player move)).
  { intros c (Hc & ? & p & Hp & Hk)%Hnbel. apply bool_decide_eq_true in Hk.
    apply (neighbours_adjacent g0 move x y c Hco) in Hc. subst p. done. }
  (* the stone is connected *)
  destruct (connect_spec g0 move x y nb Hwf0 Hco Hon Hemp eq_refl Hnd)
    as (Hwf1 & Hs1 & Hp1 & Hl1 & Htc & Htcpos & Htcnot & Hhere & Hchain &
        Habs & Hoth & Hcells1 & Hlenc).
  { intros c Hc. destruct (Hnbval c Hc) as (? & _ & Hp).
    split; [done|]. by apply (chain_player_Some g) in Hp as [? _]. }
  set (g1 := (connect g0 move x y nb).1) in *.
  set (tc := (connect g0 move x y nb).2) in *.
  assert (Htcp : chain_player g1 tc = Some (player move)).
  { rewrite chain_player_alt, Hchain. destruct nb as [|t others]; [done|].
    destruct (Hnbval t) as (_ & _ & Hp); [set_solver|].
    apply chain_player_Some in Hp as (_ & m & rest & Hm & <-).
    simpl. change (chains g0) with (chains g). by rewrite Hm. }
  (* the opposing neighbours *)
  destruct (chain_set_spec (λ p, bool_decide (p ≠ player move)) g1 move Hwf1)
    as (opp & Hopp & Hndo & Hoppel).
  unfold opp_nb_chains. rewrite Hopp. simpl.
  destruct Hs1 as (Hsz1 & Hr1 & Hcur1).
  assert (Hoppval : ∀ c, c ∈ opp →
            0 ≤ c ∧ c ≠ tc ∧ (c ∉ nb) ∧ adjacent_chain g x y c ∧
            ∃ p, chain_player g c = Some p ∧ p ≠ player move).
  { intros c (Hc & Hpos & p & Hp & Hk)%Hoppel.
    apply bool_decide_eq_true in Hk.
    assert (Hne : (c ≠ tc)) by (intros ->; congruence).
    apply (neighbours_adjacent g1 move x y c Hco) in Hc as (d & Hd & Hond & Hcd).
    rewrite Hsz1 in Hond. rewrite Hcells1 in Hcd;
      [|done|by apply DIRS_move].
    destruct (decide (_ ∈ nb)) as [|Hnin]; [done|].
    split_and!; [done|done|by rewrite <- Hcd|by exists d|].
    exists p. split; [|done]. rewrite chain_player_alt in Hp |- *.
    rewrite Hoth in Hp; [done..|by rewrite <- Hcd|done]. }
  (* the captures *)
  destruct (captures_spec opp g1 Hwf1 Hndo) as
    (K & HK & Hwf' & Hs' & Hp' & Hlen' & Hl' & HKc & Hoc & Hcells');
    [intros c Hc; by apply Hoppval|].
  set (gc := foldl capture g1 opp) in *.
  destruct Hs' as (Hsz' & Hr' & Hcur').
  assert (HKval : ∀ c, c ∈ K → 0 ≤ c ∧ c ≠ tc ∧ c ∉ nb).
  { intros c Hc. destruct (Hoppval c) as (? & ? & ? & _); [set_solver|done]. }
  exists nb, K, gc, tc. split; [done|]. split; [done|]. split.
  - done.
  - unfold same_session. by rewrite Hsz', Hr', Hcur', Hsz1, Hr1, Hcur1.
  - by rewrite Hp', Hp1.
  - done.
  - intros c. split; [apply Hnbval|].
    intros (Hc & Hadj & Hp). apply Hnbel. split_and!; [|done|].
    + by apply (neighbours_adjacent g0 move x y c Hco).
    + exists (player move). split; [done|]. by apply bool_decide_eq_true.
  - intros c Hc. destruct (Hoppval c) as (? & _ & _ & ? & ?); [set_solver|done].
  - done.
  - rewrite Hcells' by (by rewrite Hsz1). rewrite Hhere.
    rewrite decide_False; [done|]. intros Hin. by apply HKval in Hin as (_ & ? & _).
  - rewrite Hoc; [done|done|]. intros Hin. by apply HKval in Hin as (_ & ? & _).
  - by rewrite Hlen', Hlenc.
  - intros c Hc. destruct (decide (c ∈ K)); [by apply HKc|].
    rewrite Hoc; [by apply Habs| |done].
    destruct nb as [|t others]; [by apply elem_of_nil in Hc|].
    apply Hnbval. set_solver.
  - done.
  - rewrite Hl', Hl1. simpl. f_equal. apply map_ext_in.
    intros c Hc%list_elem_of_In. destruct (HKval c Hc) as (? & ? & ?).
    by apply Hoth.
  - intros c Hc Hnin HnK Hne. rewrite Hoc by done. by apply Hoth.
  - intros x' y' Hon' Hne. rewrite Hcells' by (by rewrite Hsz1).
    rewrite Hcells1 by done. change (board g0) with (board g).
    destruct (decide (cell (board g) x' y' ∈ nb)) as [Hin|Hnin].
    + rewrite decide_False; [done|]. intros HinK.
      by apply HKval in HinK as (_ & ? & _).
    + done.
Qed.

Lemma placed_has_stone g move x y nb K gc tc :
  placed g move x y nb K gc tc → move ∈ chain_at (chains gc) tc.
Proof. intros Hpl. rewrite (pl_chain _ _ _ _ _ _ _ _ Hpl). set_solver. Qed.

(** A captured chain leaves a liberty next to the new stone. *)
Lemma capture_gives_liberty g move x y nb K gc tc :
  coords move = Some (x, y) →
  placed g move x y nb K gc tc → last_capture gc ≠ [] →
  -1 ∈ neighbours gc (chain_at (chains gc) tc).
Proof.
  intros Hco Hpl Hcap. rewrite (pl_last_capture _ _ _ _ _ _ _ _ Hpl) in Hcap.
  assert (∃ c, c ∈ K) as [c Hc].
  { destruct K as [|c K]; [done|]. exists c. set_solver. }
  destruct (pl_K _ _ _ _ _ _ _ _ Hpl c Hc) as (Hpos & (d & Hd & Hon & Hcd) & p & Hp & Hne).
  destruct (pl_session _ _ _ _ _ _ _ _ Hpl) as (Hsz & _).
  apply (neighbours_mono gc move); [by eapply placed_has_stone|].
  apply (neighbours_adjacent gc move x y _ Hco). exists d.
  split_and!; [done|by rewrite Hsz|].
  rewrite (pl_cells _ _ _ _ _ _ _ _ Hpl) by (done || by apply DIRS_move).
  rewrite Hcd. rewrite decide_False.
  - by rewrite decide_True.
  - intros (_ & _ & Hp')%(pl_nb _ _ _ _ _ _ _ _ Hpl). congruence.
Qed.

(** What [play] does with a stone on a free point of the board.  The
    position [gc] after the captures does not depend on [ignore_ko]. *)
Lemma play_placed g move x y :
  wf g → coords move = Some (x, y) → on_board (board_size g) x y →
  cell (board g) x y = -1 →
  ∃ nb K gc this_chain,
    nb_chains g move = Some nb ∧
    placed g move x y nb K gc this_chain ∧
    ∀ ignore_ko,
      let r := play move ignore_ko g in
      board r.1 = board gc ∧ chains r.1 = chains gc ∧
      last_capture r.1 = last_capture gc ∧ board_size r.1 = board_size g ∧
      r.2 = if ko_or_snapback g move
               && bool_decide (length (last_capture gc) = 1%nat)
               && negb ignore_ko
            then Raised (IllegalMoveException Ko)
            else if decide (-1 ∈ neighbours gc (chain_at (chains gc) this_chain))
                 then Returned
                 else Raised (IllegalMoveException Suicide).
Proof.
  intros Hwf Hco Hon Hemp.
  destruct (after_captures_placed g move x y Hwf Hco Hon Hemp)
    as (nb & K & gc & tc & Hafter & Hnb & Hpl).
  rewrite nb_chains_last_capture in Hnb.
  exists nb, K, gc, tc. split; [done|]. split; [done|]. intros ik.
  destruct (pl_session _ _ _ _ _ _ _ _ Hpl) as (Hsz & _).
  unfold play, outside_board. rewrite Hco.
  rewrite bool_decide_eq_false_2 by (intros Hn; by apply Hn).
  rewrite (validate_unfold g move ik x y gc tc); [|done| |done].
  2: { rewrite (board_get_cell (board_size g)) by (done || apply Hwf).
       by rewrite Hemp. }
  destruct (_ && _ && _); [done|]. simpl.
  change (neighbours (set_prisoners ?p gc)) with (neighbours gc).
  destruct (decide (-1 ∈ _)); done.
Qed.

Lemma play_occupied g move x y ignore_ko :
  wf g → coords move = Some (x, y) → on_board (board_size g) x y →
  cell (board g) x y ≠ -1 →
  play move ignore_ko g =
    (set_last_capture [] g, Raised (IllegalMoveException SpaceOccupied)).
Proof.
  intros Hwf Hco Hon Hocc. unfold play, outside_board. rewrite Hco.
  rewrite bool_decide_eq_false_2 by (intros Hn; by apply Hn).
  unfold _validate_move_and_update_chains. rewrite Hco. simpl.
  rewrite (board_get_cell (board_size g)) by (done || apply Hwf).
  by rewrite decide_True.
Qed.

Lemma play_pass g move ignore_ko :
  coords move = None →
  let r := play move ignore_ko g in
  r.2 = Returned ∧ board r.1 = board g ∧ chains r.1 = chains g ∧
  last_capture r.1 = [] ∧ prisoners r.1 = prisoners g ∧
  board_size r.1 = board_size g.
Proof.
  intros Hco. unfold play, outside_board, _validate_move_and_update_chains.
  rewrite Hco. done.
Qed.

Lemma play_outside g move x y ignore_ko :
  coords move = Some (x, y) → ¬ on_board (board_size g) x y →
  play move ignore_ko g = (g, Raised (IllegalMoveException (OutsideBoard move))).
Proof.
  intros Hco Hout. unfold play, outside_board. rewrite Hco.
  by rewrite bool_decide_eq_true_2.
Qed.

(** Every call of [play] keeps the session well formed. *)
Lemma play_wf g move ignore_ko : wf g → wf (play move ignore_ko g).1.
Proof.
  intros Hwf. destruct (coords move) as [[x y]|] eqn:Hco.
  - destruct (decide (on_board (board_size g) x y)) as [Hon|Hout].
    + destruct (decide (cell (board g) x y = -1)) as [Hemp|Hocc].
      * destruct (play_placed g move x y Hwf Hco Hon Hemp)
          as (nb & K & gc & tc & _ & Hpl & Hplay).
        destruct (Hplay ignore_ko) as (Hb & Hc & Hl & Hs & _).
        destruct (pl_wf _ _ _ _ _ _ _ _ Hpl) as [Hg1 Hg2 Hg3 Hg4].
        destruct (pl_session _ _ _ _ _ _ _ _ Hpl) as (Hsz & _).
        split; rewrite ?Hb, ?Hc, ?Hl, ?Hs, <- ?Hsz; done.
      * rewrite (play_occupied g move x y) by done. simpl.
        destruct Hwf. split; try done. by intros m ?%elem_of_nil.
    + by rewrite (play_outside g move x y).
  - destruct (play_pass g move ignore_ko Hco) as (_ & Hb & Hc & Hl & _ & Hs).
    destruct Hwf as [Hg1 Hg2 Hg3 Hg4].
    split; rewrite ?Hb, ?Hc, ?Hl, ?Hs; try done. by intros m ?%elem_of_nil.
Qed.

End validate_facts.

Lemma has_liberty g chain :
  -1 ∈ neighbours g chain ↔ liberties g chain ≠ [].
Proof.
  unfold liberties. rewrite elem_of_neighbours. split.
  - intros (m & x & y & d & Hm & Hco & Hd & Hon & Hc) Hnil.
    assert (Hin : (x + d.2, y + d.1) ∈
      remove_dups (m ← chain;
        match coords m with
        | Some (x, y) =>
            filter (λ q, on_board (board_size g) q.1 q.2 ∧
                         cell (board g) q.1 q.2 = -1) (adjacent_points x y)
        | None => []
        end)).
    { apply elem_of_remove_dups, list_elem_of_bind. exists m. split; [|done].
      rewrite Hco. apply list_elem_of_filter. split; [done|].
      unfold DIRS in Hd. unfold adjacent_points.
      rewrite !elem_of_cons, elem_of_nil in Hd.
      destruct Hd as [->|[->|[->|[->|[]]]]]; simpl;
        rewrite ?Z.add_0_r; set_solver. }
    rewrite Hnil in Hin. by apply elem_of_nil in Hin.
  - intros Hne.
    destruct (remove_dups _) as [|q l] eqn:Hl in Hne; [done|].
    assert (Hq : q ∈ q :: l) by set_solver. rewrite <- Hl in Hq.
    apply elem_of_remove_dups, list_elem_of_bind in Hq as (m & Hq & Hm).
    destruct (coords m) as [[x y]|] eqn:Hco; [|by apply elem_of_nil in Hq].
    apply list_elem_of_filter in Hq as [[Hon Hc] Hq].
    unfold adjacent_points in Hq. rewrite !elem_of_cons, elem_of_nil in Hq.
    exists m, x, y.
    destruct Hq as [->|[->|[->|[->|[]]]]]; simpl in *;
      [exists (-1, 0)|exists (1, 0)|exists (0, -1)|exists (0, 1)];
      simpl; rewrite ?Z.add_0_r; unfold DIRS;
      (split_and!; [done|done|set_solver|done|done]).
Qed.

Section rules.
Context `{SetOrder, !SetOrderLaws}.

Lemma wf_new_game size : wf (Game_init size None None).1.
Proof.
  simpl. split; simpl.
  - apply grid_empty_board.
  - intros x y Hon. left. by apply cell_empty_board.
  - intros c m _ Hm. unfold chain_at in Hm. by apply elem_of_nil in Hm.
  - by intros m ?%elem_of_nil.
Qed.

Lemma play_all_wf ms : ∀ g, wf g → wf (play_all ms g).1.
Proof.
  induction ms as [|[m ik] ms IH]; intros g Hwf; simpl; [done|].
  pose proof (play_wf g m ik Hwf) as Hwf'.
  destruct (play m ik g) as [g' [|e]]; simpl in *; [by apply IH|done].
Qed.

Lemma reachable_wf g : reachable g → wf g.
Proof.
  intros (size & ms & Hg).
  pose proof (play_all_wf ms _ (wf_new_game size)) as Hwf.
  by rewrite Hg in Hwf.
Qed.

End rules.

Section claims.
Context `{SetOrder, !SetOrderLaws}.

(** C4.  After every sequence of successfully played moves, a cell of the
    board holds chain id [c] exactly when chain [c] is not empty and has a
    stone at that cell, and no two chains have a stone at the same cell. *)
Theorem occupancy_invariant g x y :
  reachable g → on_board (board_size g) x y →
  (∀ c : nat, cell (board g) x y = Z.of_nat c ↔
     ∃ ch p, chains g !! c = Some ch ∧ ch ≠ [] ∧ stone x y p ∈ ch) ∧
  (∀ c1 c2 ch1 ch2 p1 p2,
     chains g !! c1 = Some ch1 → chains g !! c2 = Some ch2 →
     stone x y p1 ∈ ch1 → stone x y p2 ∈ ch2 → c1 = c2).
Proof.
  intros Hwf%reachable_wf Hon.
  assert (Hback : ∀ (c : nat) ch p, chains g !! c = Some ch →
            stone x y p ∈ ch → cell (board g) x y = Z.of_nat c).
  { intros c ch p Hch Hp.
    destruct (wf_chain g Hwf (Z.of_nat c) (stone x y p)) as (x' & y' & Hco & _ & Hc);
      [lia| |].
    - unfold chain_at. by rewrite Nat2Z.id, Hch.
    - simpl in Hco. by simplify_eq. }
  split.
  - intros c. split.
    + intros Hc. destruct (wf_cell g Hwf x y Hon) as [?|[_ [p Hp]]]; [lia|].
      rewrite Hc in Hp. unfold chain_at in Hp. rewrite Nat2Z.id in Hp.
      destruct (chains g !! c) as [ch|]; [|by apply elem_of_nil in Hp].
      exists ch, p. split_and!; [done| |done]. intros ->.
      by apply elem_of_nil in Hp.
    + intros (ch & p & Hch & _ & Hp). by eapply Hback.
  - intros c1 c2 ch1 ch2 p1 p2 H1 H2 Hp1 Hp2.
    pose proof (Hback _ _ _ H1 Hp1). pose proof (Hback _ _ _ H2 Hp2). lia.
Qed.

(** The ko rule between accepted moves.  When [last_capture] holds exactly
    one stone [m0], as it does when the move before was accepted and took
    [m0], putting that stone back at once, if it captures exactly one stone,
    is refused as ko unless [ignore_ko] is set; after another accepted move
    elsewhere it is accepted.  A refused call in between empties
    [last_capture], and the retake then goes through (see C2 below). *)
Theorem ko_rule g m0 :
  reachable g → last_capture g = [m0] →
  (length (last_capture (play m0 true g).1) = 1%nat →
     (play m0 false g).2 = Raised (IllegalMoveException Ko) ∧
     (play m0 true g).2 = Returned) ∧
  (∀ m' ik' g',
     play m' ik' g = (g', Returned) → coords m' ≠ coords m0 →
     length (last_capture (play m0 true g').1) = 1%nat →
     ∀ ignore_ko, (play m0 ignore_ko g').2 = Returned).
Proof.
  intros Hwf%reachable_wf Hlast.
  destruct (wf_last g Hwf m0) as (x & y & Hco & Hon & Hemp);
    [rewrite Hlast; set_solver|].
  split.
  - intros Hone.
    destruct (play_placed g m0 x y Hwf Hco Hon Hemp)
      as (nb & K & gc & tc & _ & Hpl & Hplay).
    destruct (Hplay true) as (_ & _ & Hl & _ & Ht).
    destruct (Hplay false) as (_ & _ & _ & _ & Hf).
    rewrite Hl in Hone.
    assert (Hko : ko_or_snapback g m0 = true).
    { unfold ko_or_snapback. rewrite Hlast. by apply bool_decide_eq_true. }
    rewrite Hko, (bool_decide_eq_true_2 _ Hone) in Ht, Hf. simpl in *.
    split; [done|]. rewrite Ht. rewrite decide_True; [done|].
    eapply capture_gives_liberty; [done..|]. intros Hnil.
    by rewrite Hnil in Hone.
  - intros m' ik' g' Hplay' Hne Hone ik.
    pose proof (play_wf g m' ik' Hwf) as Hwf'. rewrite Hplay' in Hwf'.
    simpl in Hwf'.
    (* after the move elsewhere the point is still free, and what that
       move captured were stones of the board, so none of them is [m0] *)
    assert (board_size g' = board_size g ∧ cell (board g') x y = -1 ∧
            m0 ∉ last_capture g') as (Hsz & Hemp' & Hnot).
    { destruct (coords m') as [[x' y']|] eqn:Hco'.
      - destruct (decide (on_board (board_size g) x' y')) as [Hon'|Hout];
          [|by rewrite (play_outside g m' x' y') in Hplay'].
        destruct (decide (cell (board g) x' y' = -1)) as [He|Hocc];
          [|by rewrite (play_occupied g m' x' y') in Hplay'].
        destruct (play_placed g m' x' y' Hwf Hco' Hon' He)
          as (nb & K & gc & tc & _ & Hpl & Hp).
        destruct (Hp ik') as (Hb & _ & Hl & Hs & _). rewrite Hplay' in *.
        simpl in *. split_and!; [done| |].
        + rewrite Hb, (pl_cells _ _ _ _ _ _ _ _ Hpl); [|done|].
          * rewrite Hemp. rewrite !decide_False; [done|..].
            -- intros (? & _)%(pl_K _ _ _ _ _ _ _ _ Hpl). lia.
            -- intros (? & _)%(pl_nb _ _ _ _ _ _ _ _ Hpl). lia.
          * intros [-> ->]. congruence.
        + rewrite Hl, (pl_last_capture _ _ _ _ _ _ _ _ Hpl).
          intros Hin%list_elem_of_In%in_concat.
          destruct Hin as (ch & Hch & Hm0).
          apply in_map_iff in Hch as (c & <- & Hc%list_elem_of_In).
          destruct (pl_K _ _ _ _ _ _ _ _ Hpl c Hc) as (Hpos & _).
          destruct (wf_chain g Hwf c m0 Hpos) as (x0 & y0 & Hco0 & _ & Hc0);
            [by apply list_elem_of_In|].
          rewrite Hco in Hco0. simplify_eq. lia.
      - destruct (play_pass g m' ik' Hco') as (_ & Hb & _ & Hl & _ & Hs).
        rewrite Hplay' in *. simpl in *. rewrite Hb, Hl. split_and!; [done..|].
        apply not_elem_of_nil. }
    rewrite <- Hsz in Hon.
    destruct (play_placed g' m0 x y Hwf' Hco Hon Hemp')
      as (nb & K & gc & tc & _ & Hpl & Hplay).
    destruct (Hplay true) as (_ & _ & Hl & _ & _).
    destruct (Hplay ik) as (_ & _ & _ & _ & Hr). rewrite Hl in Hone.
    assert (Hko : ko_or_snapback g' m0 = false).
    { unfold ko_or_snapback. destruct (last_capture g') as [|m [|? ?]]; try done.
      apply bool_decide_eq_false. intros ->. set_solver. }
    rewrite Hko in Hr. simpl in Hr. rewrite Hr.
    rewrite decide_True; [done|].
    eapply capture_gives_liberty; [done..|]. intros Hnil.
    by rewrite Hnil in Hone.
Qed.

Lemma neighbours_ext g g' ms :
  board_size g' = board_size g → board g' = board g →
  neighbours g' ms = neighbours g ms.
Proof. intros Hs Hb. unfold neighbours. by rewrite Hs, Hb. Qed.

Lemma liberties_ext g g' chain :
  board_size g' = board_size g → board g' = board g →
  liberties g' chain = liberties g chain.
Proof. intros Hs Hb. unfold liberties. by rewrite Hs, Hb. Qed.

Lemma chain_at_valid chs c :
  (Z.to_nat c < length chs)%nat → chs !! Z.to_nat c = Some (chain_at chs c).
Proof.
  intros Hc. unfold chain_at.
  by destruct (lookup_lt_is_Some_2 chs (Z.to_nat c) Hc) as [ch ->].
Qed.

(** C3, as the code has it.  A stone on a free point that captures nothing
    and leaves its own chain without a liberty is refused as suicide; one
    that leaves its own chain with exactly one liberty is accepted, unless
    the ko test applies: [last_capture] is exactly this move
    ([ko_or_snapback]), the move captures exactly one stone, and
    [ignore_ko] is false.  When the ko test applies the move is refused as
    ko, whatever liberties it leaves. *)
Theorem suicide_and_self_atari g move x y ignore_ko :
  reachable g → coords move = Some (x, y) → on_board (board_size g) x y →
  cell (board g) x y = -1 →
  let r := play move ignore_ko g in
  (last_capture r.1 = [] → liberties r.1 (own_chain r.1 x y) = [] →
     r.2 = Raised (IllegalMoveException Suicide)) ∧
  (length (liberties r.1 (own_chain r.1 x y)) = 1%nat →
     ¬ (ko_or_snapback g move = true ∧ length (last_capture r.1) = 1%nat ∧
        ignore_ko = false) →
     r.2 = Returned) ∧
  (ko_or_snapback g move = true → length (last_capture r.1) = 1%nat →
     ignore_ko = false →
     r.2 = Raised (IllegalMoveException Ko)) ∧
  (ko_or_snapback g move = true ↔ last_capture g = [move]).
Proof.
  intros Hwf%reachable_wf Hco Hon Hemp.
  destruct (play_placed g move x y Hwf Hco Hon Hemp)
    as (nb & K & gc & tc & _ & Hpl & Hplay).
  destruct (Hplay ignore_ko) as (Hb & Hc & Hl & Hs & Hr).
  destruct (pl_session _ _ _ _ _ _ _ _ Hpl) as (Hsz & _).
  set (r := play move ignore_ko g) in *. simpl.
  assert (Hlib : liberties r.1 (own_chain r.1 x y) =
                 liberties gc (chain_at (chains gc) tc)).
  { unfold own_chain. rewrite Hb, Hc, (pl_cell _ _ _ _ _ _ _ _ Hpl).
    apply liberties_ext; congruence. }
  rewrite Hlib, Hl, Hr. split_and!.
  - intros Hnone Hnolib. rewrite Hnone. simpl.
    rewrite andb_false_r. simpl. rewrite decide_False; [done|].
    by intros Hin%has_liberty.
  - intros Hone Hnoko.
    destruct (ko_or_snapback g move && _ && negb ignore_ko) eqn:Hko.
    + exfalso. apply Hnoko. apply andb_prop in Hko as [Hko Hik].
      apply andb_prop in Hko as [Hko Hlen].
      apply bool_decide_eq_true in Hlen. by destruct ignore_ko.
    + rewrite decide_True; [done|]. rewrite has_liberty. intros Hnil.
      by rewrite Hnil in Hone.
  - intros Hko Hlen ->.
    by rewrite Hko, (bool_decide_eq_true_2 _ Hlen).
  - unfold ko_or_snapback. destruct (last_capture g) as [|m [|? ?]];
      [done| |done].
    rewrite bool_decide_eq_true. split; [by intros ->|]. by intros [= ->].
Qed.

(** C5, as the code has it.  A stone next to friendly chains joins the
    chain that comes first when the set of friendly neighbours is listed:
    the cells of all these chains then hold that id, the other chains are
    emptied into it in the listed order, and the new stone comes last. *)
Theorem merge_target g move x y ignore_ko target others :
  reachable g → coords move = Some (x, y) → on_board (board_size g) x y →
  cell (board g) x y = -1 →
  nb_chains g move = Some (target :: others) →
  let nb := target :: others in
  let g' := (play move ignore_ko g).1 in
  NoDup nb ∧
  (∀ c, c ∈ nb ↔
     0 ≤ c ∧ adjacent_chain g x y c ∧ chain_player g c = Some (player move)) ∧
  cell (board g') x y = target ∧
  (∀ x' y', on_board (board_size g) x' y' → cell (board g) x' y' ∈ nb →
     cell (board g') x' y' = target) ∧
  (∀ c, c ∈ others → chains g' !! Z.to_nat c = Some []) ∧
  chains g' !! Z.to_nat target =
    Some (chain_at (chains g) target ++
          concat (map (chain_at (chains g)) others) ++ [move]).
Proof.
  intros Hwf%reachable_wf Hco Hon Hemp Hnb.
  destruct (play_placed g move x y Hwf Hco Hon Hemp)
    as (nb' & K & gc & tc & Hnb' & Hpl & Hplay).
  rewrite Hnb in Hnb'. injection Hnb' as <-.
  destruct (Hplay ignore_ko) as (Hb & Hc & _ & _ & _).
  pose proof (pl_this_chain _ _ _ _ _ _ _ _ Hpl) as Htc. simpl in Htc. subst tc.
  pose proof (pl_length _ _ _ _ _ _ _ _ Hpl) as Hlen. simpl in Hlen.
  assert (Hval : ∀ c, c ∈ target :: others →
            (Z.to_nat c < length (chains gc))%nat).
  { intros c (_ & _ & Hp)%(pl_nb _ _ _ _ _ _ _ _ Hpl).
    apply chain_player_Some in Hp as [? _]. lia. }
  simpl. rewrite Hb, Hc. split_and!.
  - apply (pl_nb_NoDup _ _ _ _ _ _ _ _ Hpl).
  - apply (pl_nb _ _ _ _ _ _ _ _ Hpl).
  - apply (pl_cell _ _ _ _ _ _ _ _ Hpl).
  - intros x' y' Hon' Hin.
    rewrite (pl_cells _ _ _ _ _ _ _ _ Hpl); [by rewrite decide_True|done|].
    intros [-> ->]. rewrite Hemp in Hin.
    apply (pl_nb _ _ _ _ _ _ _ _ Hpl) in Hin as [? _]. lia.
  - intros c Hc'. rewrite chain_at_valid by (apply Hval; set_solver).
    by rewrite (pl_absorbed _ _ _ _ _ _ _ _ Hpl).
  - rewrite chain_at_valid by (apply Hval; set_solver).
    rewrite (pl_chain _ _ _ _ _ _ _ _ Hpl). simpl. by rewrite <- app_assoc.
Qed.

End claims.

(** ** Replaying moves *)

Section replay.
Context `{SetOrder}.

Lemma capture_set_tree r cur g c :
  capture (set_tree r cur g) c = set_tree r cur (capture g c).
Proof.
  unfold capture.
  change (neighbours (set_tree r cur g)) with (neighbours g).
  change (chains (set_tree r cur g)) with (chains g).
  by destruct (decide _).
Qed.

Lemma captures_set_tree r cur cs : ∀ g,
  foldl capture (set_tree r cur g) cs = set_tree r cur (foldl capture g cs).
Proof.
  induction cs as [|c cs IH]; intros g; simpl; [done|].
  by rewrite capture_set_tree, IH.
Qed.

Lemma nb_chains_set_tree r cur g move :
  nb_chains (set_tree r cur g) move = nb_chains g move.
Proof.
  unfold nb_chains.
  change (neighbours (set_tree r cur g)) with (neighbours g).
  by rewrite (select_chains_ext _ g (set_tree r cur g)).
Qed.

Lemma opp_nb_chains_set_tree r cur g move :
  opp_nb_chains (set_tree r cur g) move = opp_nb_chains g move.
Proof.
  unfold opp_nb_chains.
  change (neighbours (set_tree r cur g)) with (neighbours g).
  by rewrite (select_chains_ext _ g (set_tree r cur g)).
Qed.

Lemma connect_set_tree r cur g move x y nb :
  connect (set_tree r cur g) move x y nb =
    (set_tree r cur (connect g move x y nb).1, (connect g move x y nb).2).
Proof. by destruct nb. Qed.

(** The tree plays no part in the validation of a move. *)
Lemma validate_set_tree r cur move ignore_ko g :
  _validate_move_and_update_chains move ignore_ko (set_tree r cur g) =
    let v := _validate_move_and_update_chains move ignore_ko g in
    (set_tree r cur v.1, v.2).
Proof.
  unfold _validate_move_and_update_chains. cbv zeta.
  change (ko_or_snapback (set_tree r cur g) move) with (ko_or_snapback g move).
  change (set_last_capture [] (set_tree r cur g))
    with (set_tree r cur (set_last_capture [] g)).
  set (g0 := set_last_capture [] g).
  destruct (coords move) as [[x y]|]; [|done].
  change (board (set_tree r cur g0)) with (board g0).
  destruct (board_get (board g0) x y) as [sq|]; [|done].
  destruct (decide (sq ≠ -1)); [done|].
  rewrite nb_chains_set_tree.
  destruct (nb_chains g0 move) as [nb|]; [|done].
  rewrite connect_set_tree.
  destruct (connect g0 move x y nb) as [g1 tc]. cbn [fst snd]. cbv beta iota.
  rewrite opp_nb_chains_set_tree.
  destruct (opp_nb_chains g1 move) as [opp|]; [|done].
  rewrite captures_set_tree.
  set (gc := foldl capture g1 opp).
  change (last_capture (set_tree r cur gc)) with (last_capture gc).
  destruct (_ && _ && _); [done|].
  change (prisoners (set_tree r cur gc)) with (prisoners gc).
  change (set_prisoners ?p (set_tree r cur gc))
    with (set_tree r cur (set_prisoners p gc)).
  change (neighbours (set_tree r cur ?h)) with (neighbours h).
  change (chains (set_tree r cur ?h)) with (chains h).
  by destruct (decide _).
Qed.

Lemma replay_set_tree r cur ms : ∀ g,
  replay ms (set_tree r cur g) =
    let v := replay ms g in (set_tree r cur v.1, v.2).
Proof.
  induction ms as [|m ms IH]; intros g; simpl; [done|].
  rewrite validate_set_tree. simpl.
  destruct (_validate_move_and_update_chains m true g) as [g' [|[]]]; simpl;
    done || apply IH.
Qed.

Lemma replay_app ms1 ms2 g :
  replay (ms1 ++ ms2) g =
    match replay ms1 g with
    | (g', Returned) => replay ms2 g'
    | r => r
    end.
Proof.
  revert g. induction ms1 as [|m ms1 IH]; intros g; simpl; [done|].
  destruct (_validate_move_and_update_chains m true g) as [g' [|[]]]; simpl;
    done || apply IH.
Qed.

(** A move that was accepted is accepted again when replayed, with the same
    result: the replay differs only in ignoring ko. *)
Lemma validate_ignore_ko move ignore_ko g g' :
  _validate_move_and_update_chains move ignore_ko g = (g', Returned) →
  _validate_move_and_update_chains move true g = (g', Returned).
Proof.
  unfold _validate_move_and_update_chains.
  destruct (coords move) as [[x y]|]; [|done]. simpl.
  destruct (board_get (board g) x y) as [sq|]; [|done].
  destruct (decide (sq ≠ -1)); [done|].
  destruct (nb_chains _ move) as [nb|]; [|done].
  destruct (connect _ move x y nb) as [g1 tc].
  destruct (opp_nb_chains g1 move) as [opp|]; [|done].
  rewrite andb_false_r. destruct (_ && _ && _); [done|]. done.
Qed.

Lemma connect_session g move x y nb :
  same_session g (connect g move x y nb).1.
Proof. by destruct nb. Qed.

Lemma captures_session cs : ∀ g, same_session g (foldl capture g cs).
Proof.
  induction cs as [|c cs IH]; intros g; simpl; [done|].
  destruct (IH (capture g c)) as (H1 & H2 & H3).
  unfold same_session. rewrite H1, H2, H3.
  unfold capture. by destruct (decide _).
Qed.

Lemma validate_session move ignore_ko g :
  same_session g (_validate_move_and_update_chains move ignore_ko g).1.
Proof.
  unfold _validate_move_and_update_chains.
  destruct (coords move) as [[x y]|]; [|done]. simpl.
  destruct (board_get (board g) x y) as [sq|]; [|done].
  destruct (decide (sq ≠ -1)); [done|].
  destruct (nb_chains _ move) as [nb|]; [|done].
  pose proof (connect_session (set_last_capture [] g) move x y nb) as Hc.
  destruct (connect _ move x y nb) as [g1 tc]. simpl in Hc.
  destruct (opp_nb_chains g1 move) as [opp|]; [|done].
  pose proof (captures_session opp g1) as Hk.
  destruct Hc as (Hc1 & Hc2 & Hc3), Hk as (Hk1 & Hk2 & Hk3).
  destruct (_ && _ && _); simpl.
  - unfold same_session. by rewrite Hk1, Hk2, Hk3.
  - destruct (decide _); simpl; unfold same_session; simpl;
      by rewrite Hk1, Hk2, Hk3.
Qed.

Lemma replay_session ms : ∀ g, same_session g (replay ms g).1.
Proof.
  induction ms as [|m ms IH]; intros g; simpl; [done|].
  pose proof (validate_session m true g) as (Hs1 & Hs2 & Hs3).
  destruct (_validate_move_and_update_chains m true g) as [g' [|[]]];
    simpl in *; try done.
  destruct (IH g') as (H1 & H2 & H3). unfold same_session.
  by rewrite H1, H2, H3.
Qed.

Lemma init_chains_session g : same_session g (_init_chains g).1.
Proof. unfold _init_chains. apply (replay_session _ (cleared g)). Qed.

(** ** Games played in one line *)

Lemma node_at_line ms : ∀ m k,
  (k ≤ length ms)%nat →
  ∃ m', node_at (line m ms) (replicate k 0%nat) = Some (line m' (drop k ms)).
Proof.
  induction ms as [|x ms IH]; intros m k Hk.
  - assert (k = 0%nat) as -> by (simpl in Hk; lia). by exists m.
  - destruct k as [|k]; [by exists m|]. simpl in *.
    apply IH. lia.
Qed.

Lemma add_child_line ms x : ∀ m,
  add_child (line m ms) (replicate (length ms) 0%nat) (Node (Some x) [] []) =
  line m (ms ++ [x]).
Proof.
  induction ms as [|y ms IH]; intros m; simpl; [done|]. by rewrite IH.
Qed.

Lemma path_moves_line ms : ∀ m k,
  (k ≤ length ms)%nat →
  path_moves (line m ms) (replicate k 0%nat) =
    match m with Some x => [x] | None => [] end ++ take k ms.
Proof.
  unfold path_moves.
  induction ms as [|x ms IH]; intros m k Hk.
  - assert (k = 0%nat) as -> by (simpl in Hk; lia). simpl.
    unfold move_with_placements. simpl. by rewrite !app_nil_r.
  - destruct k as [|k].
    + simpl. unfold move_with_placements. simpl. by rewrite !app_nil_r.
    + simpl in *. rewrite IH by lia. unfold move_with_placements at 1.
      simpl. done.
Qed.

Lemma play_in_line g move ignore_ko g' :
  in_line g → play move ignore_ko g = (g', Returned) → in_line g'.
Proof.
  intros (ms & Hroot & Hcur & Hrep) Hplay. unfold play in Hplay.
  destruct (outside_board g move); [done|].
  pose proof (validate_session move ignore_ko g) as (Hs1 & Hs2 & Hs3).
  destruct (_validate_move_and_update_chains move ignore_ko g)
    as [g3 [|e]] eqn:Hval; [|done].
  apply validate_ignore_ko in Hval. simpl in *.
  unfold node_play in Hplay. rewrite Hs2, Hs3, Hroot, Hcur in Hplay.
  destruct (node_at_line ms None (length ms)) as [m' Hnode]; [done|].
  rewrite Hnode, drop_all, add_child_line in Hplay. simpl in Hplay.
  injection Hplay as <-. exists (ms ++ [move]). simpl. split_and!.
  - done.
  - by rewrite length_app, Nat.add_1_r, replicate_S_end.
  - change (cleared (set_tree ?r ?c g3)) with
      (set_tree r c (mkGame (board_size g3) (root g) (current_node g)
                            (empty_board (board_size g3)) [] [] [])).
    rewrite Hs1. change (mkGame _ _ _ _ _ _ _) with (cleared g).
    rewrite replay_set_tree, replay_app, Hrep. simpl. by rewrite Hval.
Qed.

Lemma reachable_in_line g : reachable g → in_line g.
Proof.
  intros (size & ms & Hg). revert Hg.
  assert (Hstart : in_line (Game_init size None None).1) by (by exists []).
  revert Hstart. generalize (Game_init size None None).1.
  induction ms as [|[m ik] ms IH]; intros g0 Hg0 Hg; simpl in Hg.
  - by simplify_eq.
  - destruct (play m ik g0) as [g1 [|e]] eqn:Hplay; [|done].
    eapply IH; [|done]. by eapply play_in_line.
Qed.

End replay.

Section navigation.
Context `{SetOrder}.

Lemma replay_prefix ms1 ms2 g g' :
  replay (ms1 ++ ms2) g = (g', Returned) →
  ∃ g1, replay ms1 g = (g1, Returned).
Proof.
  rewrite replay_app. destruct (replay ms1 g) as [g1 [|e]]; [eauto|done].
Qed.

Lemma init_chains_replay g :
  _init_chains g = replay (path_moves (root g) (current_node g)) (cleared g).
Proof. done. Qed.

Lemma undo_not_root g :
  current_node g ≠ [] →
  undo g = _init_chains (set_current_node (parent_path (current_node g)) g).
Proof. unfold undo. by destruct (current_node g). Qed.

(** [undo()] then [redo()] when every call of [play] so far was accepted:
    both return normally and give back the same session, with the same
    current node, board, chains, prisoners and last capture.  After a
    refused call they do not (see C7 below). *)
Theorem undo_redo g :
  reachable g → ∃ g1, undo g = (g1, Returned) ∧ redo g1 = (g, Returned).
Proof.
  intros (ms & Hroot & Hcur & Hrep)%reachable_in_line.
  destruct (length ms) as [|k] eqn:Hlen.
  - (* no move yet: both calls do nothing *)
    apply length_zero_iff_nil in Hlen. subst ms. simpl in *.
    exists g. unfold undo, redo. by rewrite Hcur, Hroot.
  - assert (Hk : (k < length ms)%nat) by lia.
    assert (Hparent : parent_path (current_node g) = replicate k 0%nat).
    { rewrite Hcur. unfold parent_path. rewrite length_replicate.
      rewrite take_replicate. f_equal. lia. }
    rewrite <- (take_drop k ms) in Hrep.
    destruct (replay_prefix _ _ _ _ Hrep) as [gk Hgk].
    pose proof (replay_session (take k ms) (cleared g)) as (Hs1 & Hs2 & Hs3).
    rewrite Hgk in Hs1, Hs2, Hs3. simpl in Hs1, Hs2, Hs3.
    exists (set_tree (root g) (replicate k 0%nat) gk). split.
    + rewrite undo_not_root by (by rewrite Hcur). rewrite Hparent.
      rewrite init_chains_replay. simpl. rewrite Hroot.
      rewrite path_moves_line by lia. simpl.
      change (cleared (set_current_node ?c g)) with (set_tree (root g) c (cleared g)).
      rewrite replay_set_tree, Hgk. simpl. by rewrite Hroot.
    + unfold redo. simpl. rewrite Hroot.
      destruct (node_at_line ms None k) as [m' ->]; [lia|]. simpl.
      destruct (drop k ms) as [|x rest] eqn:Hdrop.
      { apply (f_equal length) in Hdrop. rewrite length_drop in Hdrop.
        simpl in Hdrop. lia. }
      simpl. rewrite <- replicate_S_end.
      rewrite init_chains_replay. simpl.
      change (0%nat :: replicate k 0%nat) with (replicate (S k) 0%nat).
      rewrite <- Hlen. rewrite path_moves_line by lia. simpl.
      rewrite firstn_all. rewrite <- Hdrop, take_drop in Hrep.
      assert (Hcl : cleared (set_current_node (replicate (length ms) 0%nat)
                      (set_tree (line None ms) (replicate k 0%nat) gk)) =
                    cleared g).
      { unfold cleared. simpl. by rewrite Hs1, Hroot, Hcur, Hlen. }
      by rewrite Hcl.
Qed.

Lemma parent_path_snoc pp (ix : nat) : parent_path (pp ++ [ix]) = pp.
Proof.
  unfold parent_path. rewrite length_app. simpl.
  apply take_app_length'. lia.
Qed.

Lemma switch_branch_step direction g pp ix parent :
  current_node g = pp ++ [ix] → node_at (root g) pp = Some parent →
  (1 < length (children parent))%nat →
  let g' := (switch_branch direction g).1 in
  root g' = root g ∧
  current_node g' =
    pp ++ [Z.to_nat ((Z.of_nat ix + direction)
                     `mod` Z.of_nat (length (children parent)))].
Proof.
  intros Hcur Hnode Hk. unfold switch_branch.
  rewrite Hcur, last_snoc, parent_path_snoc, Hnode. simpl.
  rewrite decide_True by done.
  match goal with |- context [_init_chains ?h] =>
    destruct (init_chains_session h) as (_ & Hr & Hc) end.
  by rewrite Hr, Hc.
Qed.

(** C8.  When the parent of the current node has [k > 1] children, each
    [switch_branch(+1)] moves to the next sibling in creation order, from
    index [i] to [(i + 1) mod k], and [k] calls lead back to the node the
    session started from; the tree stays as it is.  This holds whether or
    not the rebuild of the chains raises. *)
Theorem switch_branch_cycle g pp ix parent cm :
  current_node g = pp ++ [ix] → node_at (root g) pp = Some parent →
  children parent !! ix = Some cm →
  let k := length (children parent) in
  (1 < k)%nat →
  (∀ j, root (switch_times j g) = root g ∧
        current_node (switch_times j g) = pp ++ [((ix + j) mod k)%nat]) ∧
  (∀ j, current_node (switch_branch 1 (switch_times j g)).1 =
        pp ++ [Z.to_nat ((Z.of_nat ((ix + j) mod k) + 1) `mod` Z.of_nat k)]) ∧
  current_node (switch_times k g) = current_node g.
Proof.
  intros Hcur Hnode Hix%lookup_lt_Some k Hk.
  assert (Hall : ∀ j, root (switch_times j g) = root g ∧
            current_node (switch_times j g) = pp ++ [((ix + j) mod k)%nat]).
  { induction j as [|j [IHr IHc]]; simpl.
    - rewrite Nat.add_0_r, Nat.mod_small by done. done.
    - destruct (switch_branch_step 1 (switch_times j g) pp
                  ((ix + j) mod k)%nat parent) as [Hr Hc];
        [done|by rewrite IHr|done|].
      split; [by rewrite Hr|]. rewrite Hc. do 2 f_equal. fold k.
      rewrite <- (Nat2Z.inj_add _ 1), <- Nat2Z.inj_mod, Nat2Z.id.
      rewrite Nat.Div0.add_mod_idemp_l. f_equal. lia. }
  split_and!.
  - exact Hall.
  - intros j. destruct (Hall j) as [Hr Hc].
    destruct (switch_branch_step 1 (switch_times j g) pp
                ((ix + j) mod k)%nat parent) as [_ Hc'];
      [done|by rewrite Hr|done|]. exact Hc'.
  - destruct (Hall k) as [_ ->]. rewrite Hcur. do 2 f_equal.
    rewrite <- Nat.Div0.add_mod_idemp_r, Nat.Div0.mod_same, Nat.add_0_r.
    by apply Nat.mod_small.
Qed.

End navigation.

(** ** Handicap stones *)

(** C9.  For a handicap of 2 to 9 stones on any board, the stones placed
    are the first [n] candidates of the rule: the four corner points, then
    the centre when [n] is odd, then the four side points; Black stones
    added to the placements of the root.  On the 19x19 board they are the
    star points. *)
Theorem handicap_placement (g : Game) (n : Z) :
  2 ≤ n ≤ 9 →
  handicap_stones (board_size g) n =
    take (Z.to_nat n) (spec_candidates (board_size g) n) ∧
  length (handicap_stones (board_size g) n) = Z.to_nat n ∧
  placements (root (place_handicap_stones n g)) =
    placements (root g) ++
    map (λ xy, stone xy.1 xy.2 B)
        (take (Z.to_nat n) (spec_candidates (board_size g) n)) ∧
  handicap_stones 19 n = star_points_19 n.
Proof.
  intros Hn.
  assert (Hstones : handicap_stones (board_size g) n =
            take (Z.to_nat n) (spec_candidates (board_size g) n)).
  { unfold handicap_stones, spec_candidates, spec_far, spec_middle, spec_near,
      py_slice_to.
    rewrite decide_True by lia.
    assert (n = 2 ∨ n = 3 ∨ n = 4 ∨ n = 5 ∨ n = 6 ∨ n = 7 ∨ n = 8 ∨ n = 9)
      as Hcases by lia.
    destruct (decide (13 ≤ board_size g)), (decide (board_size g < 13));
      try lia;
      destruct Hcases as [->|[->|[->|[->|[->|[->|[->| ->]]]]]]]; reflexivity. }
  split_and!.
  - done.
  - rewrite Hstones. unfold spec_candidates.
    assert (n = 2 ∨ n = 3 ∨ n = 4 ∨ n = 5 ∨ n = 6 ∨ n = 7 ∨ n = 8 ∨ n = 9)
      as Hcases by lia.
    destruct Hcases as [->|[->|[->|[->|[->|[->|[->| ->]]]]]]]; reflexivity.
  - unfold place_handicap_stones. simpl. by rewrite Hstones.
  - assert (n = 2 ∨ n = 3 ∨ n = 4 ∨ n = 5 ∨ n = 6 ∨ n = 7 ∨ n = 8 ∨ n = 9)
      as Hcases by lia.
    destruct Hcases as [->|[->|[->|[->|[->|[->|[->| ->]]]]]]]; reflexivity.
Qed.

(** C10.  A handicap of one stone is served like any other: the call adds
    one Black placement to the root, at [(far, far)]. *)
Theorem handicap_one (g : Game) :
  let size := board_size g in
  let far := size - 1 - (if decide (13 ≤ size) then 3 else 2) in
  handicap_stones size 1 = [(far, far)] ∧
  placements (root (place_handicap_stones 1 g)) =
    placements (root g) ++ [stone far far B].
Proof.
  unfold place_handicap_stones, handicap_stones, py_slice_to. simpl.
  by destruct (decide (13 ≤ board_size g)).
Qed.

(** ** The positions used as examples *)

Lemma capture_position_reachable : reachable capture_position.
Proof.
  exists 5, (map (λ m, (m, false)) capture_moves). vm_compute. reflexivity.
Qed.

Lemma ko_position_reachable : reachable ko_position.
Proof.
  exists 5, (map (λ m, (m, false)) ko_moves). vm_compute. reflexivity.
Qed.

Lemma merge_position_reachable : reachable merge_position.
Proof.
  exists 9, (map (λ m, (m, false)) merge_moves). vm_compute. reflexivity.
Qed.

(** C6, as the code has it.  On a 5x5 board, White (2,2) and then Black
    (1,2), (3,2), (2,1), (2,3) are all accepted; the white stone is then
    captured: cell (2,2) is empty, and [prisoner_count] is [[0, 1]], the
    entry of White, the colour of the captured stone, being 1. *)
Theorem capture_example :
  play_all (map (λ m, (m, false)) capture_moves) (new_game 5) =
    (capture_position, Returned) ∧
  cell (board capture_position) 2 2 = -1 ∧
  prisoners capture_position = [stone 2 2 W] ∧
  prisoner_count capture_position = [0; 1] ∧
  prisoner_count capture_position !! player_index W = Some 1 ∧
  prisoner_count capture_position !! player_index B = Some 0.
Proof. vm_compute. repeat split. Qed.

(** C6 as stated fails: the entry of Black in [prisoner_count] is not 1. *)
Lemma capture_example_black_entry :
  ¬ (cell (board capture_position) 2 2 = -1 ∧
     prisoner_count capture_position !! player_index B = Some 1).
Proof. vm_compute. intros [_ Hb]. discriminate Hb. Qed.

(** C1 fails on the code.  A refused move leaves its traces: a suicide
    leaves the stone on the board and in a new chain; a move on an occupied
    point clears [last_capture]; a ko leaves the retaking stone on the board
    and the stone it took off. *)
Theorem illegal_move_changes_session :
  (let r := play (stone 2 2 W) false capture_position in
   r.2 = Raised (IllegalMoveException Suicide) ∧
   cell (board capture_position) 2 2 = -1 ∧ cell (board r.1) 2 2 = 5 ∧
   chains r.1 = chains capture_position ++ [[stone 2 2 W]] ∧
   last_capture capture_position = [stone 2 2 W] ∧ last_capture r.1 = []) ∧
  (let r := play (stone 1 2 W) false capture_position in
   r.2 = Raised (IllegalMoveException SpaceOccupied) ∧
   last_capture capture_position = [stone 2 2 W] ∧ last_capture r.1 = []) ∧
  (let r := play (stone 1 1 W) false ko_position in
   r.2 = Raised (IllegalMoveException Ko) ∧
   cell (board ko_position) 1 1 = -1 ∧ cell (board r.1) 1 1 = 8 ∧
   cell (board ko_position) 2 1 = 7 ∧ cell (board r.1) 2 1 = -1 ∧
   last_capture ko_position = [stone 1 1 W] ∧
   last_capture r.1 = [stone 2 1 B]).
Proof. vm_compute. repeat split. Qed.

(** C2 fails on the code.  In the ko position Black has just taken the
    white stone at (1,1) by playing (2,1), and White's retake at (1,1),
    which takes exactly one stone, is refused as ko.  But when White first
    tries the occupied point (0,1), the refused call adds no node and
    leaves board and chains alone, yet it has emptied [last_capture] (line
    78); the retake at (1,1), with [ignore_ko] false and no move played
    since Black's capture, is then accepted and takes the black stone at
    (2,1). *)
Theorem ko_bypassed_after_refusal :
  play_all (map (λ m, (m, false)) ko_moves) (new_game 5) =
    (ko_position, Returned) ∧
  last_capture ko_position = [stone 1 1 W] ∧
  (play (stone 1 1 W) false ko_position).2 =
    Raised (IllegalMoveException Ko) ∧
  length (last_capture (play (stone 1 1 W) false ko_position).1) = 1%nat ∧
  (let r1 := play (stone 0 1 W) false ko_position in
   let r2 := play (stone 1 1 W) false r1.1 in
   r1.2 = Raised (IllegalMoveException SpaceOccupied) ∧
   root r1.1 = root ko_position ∧
   current_node r1.1 = current_node ko_position ∧
   board r1.1 = board ko_position ∧ chains r1.1 = chains ko_position ∧
   last_capture r1.1 = [] ∧
   r2.2 = Returned ∧
   last_capture r2.1 = [stone 2 1 B] ∧ cell (board r2.1) 2 1 = -1).
Proof. vm_compute. repeat split. Qed.

(** C7 fails on the code.  After the five moves of the capture example
    White's (2,2) is refused as suicide and stays on the board as chain 5;
    [undo()] and [redo()] then both return and come back to the same node
    of the same tree, but the rebuilt board is not the one of before the
    [undo()]: the cell (2,2) is empty again and chain 5 is gone.  And in
    the ko position, after White's retake at (1,1) is refused as ko and
    White's (2,1) is accepted on the point that the refused call emptied,
    [undo()] returns but [redo()] raises "Unexpected illegal move (Space
    occupied)" and leaves another board. *)
Theorem undo_redo_after_refusal :
  (let r := play (stone 2 2 W) false capture_position in
   let u := undo r.1 in
   let v := redo u.1 in
   r.2 = Raised (IllegalMoveException Suicide) ∧
   u.2 = Returned ∧ v.2 = Returned ∧
   root v.1 = root r.1 ∧ current_node v.1 = current_node r.1 ∧
   cell (board r.1) 2 2 = 5 ∧ cell (board v.1) 2 2 = -1 ∧
   chains r.1 = chains v.1 ++ [[stone 2 2 W]] ∧
   board v.1 ≠ board r.1) ∧
  (let r := play (stone 1 1 W) false ko_position in
   let a := play (stone 2 1 W) false r.1 in
   let u := undo a.1 in
   let v := redo u.1 in
   r.2 = Raised (IllegalMoveException Ko) ∧ a.2 = Returned ∧
   u.2 = Returned ∧
   v.2 = Raised (UnexpectedIllegalMove SpaceOccupied) ∧
   current_node v.1 = current_node a.1 ∧
   board v.1 ≠ board a.1).
Proof. vm_compute. repeat split; discriminate. Qed.

(** C3 as stated fails: retaking the ko leaves the white stone at (1,1)
    with exactly one liberty, and the move is refused. *)
Lemma self_atari_refused_as_ko :
  let r := play (stone 1 1 W) false ko_position in
  reachable ko_position ∧ cell (board ko_position) 1 1 = -1 ∧
  own_chain r.1 1 1 = [stone 1 1 W] ∧
  liberties r.1 (own_chain r.1 1 1) = [(2, 1)] ∧
  r.2 = Raised (IllegalMoveException Ko).
Proof.
  split; [apply ko_position_reachable|]. vm_compute. repeat split.
Qed.

(** C5 as stated fails: with CPython's order the friendly neighbours 1 and
    8 are listed as [[8, 1]], and the stones of chain 1 go to chain 8. *)
Lemma merge_target_not_lowest :
  let move := stone 2 1 B in
  let g' := (play move false merge_position).1 in
  reachable merge_position ∧ cell (board merge_position) 2 1 = -1 ∧
  cell (board merge_position) 2 0 = 1 ∧ cell (board merge_position) 2 2 = 8 ∧
  nb_chains merge_position move = Some [8; 1] ∧
  cell (board g') 2 1 = 8 ∧ cell (board g') 2 0 = 8 ∧
  chains g' !! 1%nat = Some [] ∧
  chains g' !! 8%nat = Some [stone 2 2 B; stone 2 0 B; stone 2 1 B].
Proof.
  split; [apply merge_position_reachable|]. vm_compute. repeat split.
Qed.

(** ** The theorems at work on the examples *)

Lemma occupancy_invariant_witness :
  cell (board capture_position) 1 2 = 1 ↔
  ∃ ch p, chains capture_position !! 1%nat = Some ch ∧ ch ≠ [] ∧
          stone 1 2 p ∈ ch.
Proof.
  destruct (occupancy_invariant capture_position 1 2) as [Hcell _].
  - exists 5, (map (λ m, (m, false)) capture_moves). vm_compute. reflexivity.
  - vm_compute. repeat split; discriminate.
  - exact (Hcell 1%nat).
Defined.

Lemma ko_rule_witness :
  (play (stone 1 1 W) false ko_position).2 = Raised (IllegalMoveException Ko) ∧
  (play (stone 1 1 W) true ko_position).2 = Returned ∧
  (play (stone 1 1 W) false (play (stone 4 4 B) false ko_position).1).2
    = Returned.
Proof.
  destruct (ko_rule ko_position (stone 1 1 W)) as [Hnow Hlater].
  - exists 5, (map (λ m, (m, false)) ko_moves). vm_compute. reflexivity.
  - vm_compute. reflexivity.
  - destruct Hnow as [Hf Ht]; [vm_compute; reflexivity|].
    split; [exact Hf|]. split; [exact Ht|].
    apply (Hlater (stone 4 4 B) false).
    + vm_compute. reflexivity.
    + vm_compute. discriminate.
    + vm_compute. reflexivity.
Defined.

Lemma suicide_and_self_atari_witness :
  (play (stone 2 2 W) false capture_position).2
    = Raised (IllegalMoveException Suicide) ∧
  (play (stone 0 0 B) false (played 5 [stone 1 0 W])).2 = Returned ∧
  (play (stone 1 1 W) false ko_position).2 = Raised (IllegalMoveException Ko).
Proof.
  split; [|split].
  - apply (suicide_and_self_atari capture_position (stone 2 2 W) 2 2 false).
    + exists 5, (map (λ m, (m, false)) capture_moves). vm_compute. reflexivity.
    + reflexivity.
    + vm_compute. repeat split; discriminate.
    + vm_compute. reflexivity.
    + vm_compute. reflexivity.
    + vm_compute. reflexivity.
  - apply (suicide_and_self_atari (played 5 [stone 1 0 W]) (stone 0 0 B) 0 0 false).
    + exists 5, [(stone 1 0 W, false)]. vm_compute. reflexivity.
    + reflexivity.
    + vm_compute. repeat split; discriminate.
    + vm_compute. reflexivity.
    + vm_compute. reflexivity.
    + vm_compute. intros (Hko & _). discriminate Hko.
  - apply (suicide_and_self_atari ko_position (stone 1 1 W) 1 1 false).
    + exists 5, (map (λ m, (m, false)) ko_moves). vm_compute. reflexivity.
    + reflexivity.
    + vm_compute. repeat split; discriminate.
    + vm_compute. reflexivity.
    + vm_compute. reflexivity.
    + vm_compute. reflexivity.
    + reflexivity.
Defined.

Lemma merge_target_witness :
  let g' := (play (stone 2 1 B) false merge_position).1 in
  cell (board g') 2 1 = 8 ∧
  chains g' !! 1%nat = Some [] ∧
  chains g' !! 8%nat = Some [stone 2 2 B; stone 2 0 B; stone 2 1 B].
Proof.
  destruct (merge_target merge_position (stone 2 1 B) 2 1 false 8 [1])
    as (_ & _ & Hcell & _ & Hgone & Hchain).
  - exists 9, (map (λ m, (m, false)) merge_moves). vm_compute. reflexivity.
  - reflexivity.
  - vm_compute. repeat split; discriminate.
  - vm_compute. reflexivity.
  - vm_compute. reflexivity.
  - split; [exact Hcell|]. split.
    + apply (Hgone 1). apply list_elem_of_singleton. reflexivity.
    + exact Hchain.
Defined.

Lemma undo_redo_witness :
  ∃ g1, undo ko_position = (g1, Returned) ∧ redo g1 = (ko_position, Returned).
Proof.
  apply (undo_redo ko_position).
  exists 5, (map (λ m, (m, false)) ko_moves). vm_compute. reflexivity.
Defined.

Lemma switch_branch_cycle_witness :
  current_node branch_position = [1%nat] ∧
  current_node (switch_times 1 branch_position) = [0%nat] ∧
  current_node (switch_times 2 branch_position) = [1%nat].
Proof.
  edestruct (switch_branch_cycle branch_position [] 1%nat
               (root branch_position)) as (Hj & _ & Hk).
  - vm_compute. reflexivity.
  - reflexivity.
  - vm_compute. reflexivity.
  - vm_compute. lia.
  - split; [vm_compute; reflexivity|]. split.
    + exact (proj2 (Hj 1%nat)).
    + exact (proj2 (Hj 2%nat)).
Defined.

Lemma handicap_placement_witness :
  handicap_stones 19 5 = [(15, 15); (3, 3); (15, 3); (3, 15); (9, 9)].
Proof.
  destruct (handicap_placement (new_game 19) 5) as (_ & _ & _ & Htable).
  - lia.
  - exact Htable.
Defined.

(** * Games, sessions and the chains *)

(** ** Playing a move, once more *)

Section more.
Context `{SetOrder, !SetOrderLaws}.

Lemma play_all_snoc ms m g :
  play_all (ms ++ [m]) g =
    match play_all ms g with
    | (g', Returned) => play m.1 m.2 g'
    | r => r
    end.
Proof.
  revert g. induction ms as [|m' ms IH]; intros g; simpl.
  - by destruct (play m.1 m.2 g) as [g' [|e]].
  - destruct (play m'.1 m'.2 g) as [g' [|e]]; [apply IH|done].
Qed.

Lemma reachable_new_game size : reachable (new_game size).
Proof. by exists size, []. Qed.

Lemma reachable_play g move ignore_ko g' :
  reachable g → play move ignore_ko g = (g', Returned) → reachable g'.
Proof.
  intros (size & ms & Hg) Hplay. exists size, (ms ++ [(move, ignore_ko)]).
  by rewrite play_all_snoc, Hg.
Qed.

(** Induction over the moves of a game. *)
Lemma reachable_induction (P : Game → Prop) :
  (∀ size, P (new_game size)) →
  (∀ g move ignore_ko g',
     reachable g → P g → play move ignore_ko g = (g', Returned) → P g') →
  ∀ g, reachable g → P g.
Proof.
  intros Hnew Hstep g (size & ms & Hg). revert g Hg.
  induction ms as [|[m ik] ms IH] using rev_ind; intros g Hg.
  - simpl in Hg. injection Hg as <-. apply Hnew.
  - rewrite play_all_snoc in Hg.
    destruct (play_all ms (Game_init size None None).1) as [g0 [|e]] eqn:Hg0;
      [|done].
    eapply Hstep; [by exists size, ms|by apply IH|done].
Qed.

(** All that a call of [play] with a stone on a free point does. *)
Lemma play_stone g move x y :
  wf g → coords move = Some (x, y) → on_board (board_size g) x y →
  cell (board g) x y = -1 →
  ∃ nb K gc this_chain,
    (nb_chains g move = Some nb ∧
     after_captures g move x y = Some (gc, this_chain)) ∧
    placed g move x y nb K gc this_chain ∧
    ∀ ignore_ko,
      let r := play move ignore_ko g in
      let ko := ko_or_snapback g move
                && bool_decide (length (last_capture gc) = 1%nat)
                && negb ignore_ko in
      board r.1 = board gc ∧ chains r.1 = chains gc ∧
      last_capture r.1 = last_capture gc ∧ board_size r.1 = board_size g ∧
      r.2 = (if ko then Raised (IllegalMoveException Ko)
             else if decide (-1 ∈ neighbours gc (chain_at (chains gc) this_chain))
                  then Returned
                  else Raised (IllegalMoveException Suicide)) ∧
      prisoners r.1 = (if ko then prisoners g
                       else prisoners g ++ last_capture gc) ∧
      (root r.1, current_node r.1) =
        (if decide (r.2 = Returned)
         then node_play (root g) (current_node g) move
         else (root g, current_node g)).
Proof.
  intros Hwf Hco Hon Hemp.
  destruct (after_captures_placed g move x y Hwf Hco Hon Hemp)
    as (nb & K & gc & tc & Hafter & Hnb & Hpl).
  rewrite nb_chains_last_capture in Hnb.
  exists nb, K, gc, tc. split; [done|]. split; [done|]. intros ik.
  destruct (pl_session _ _ _ _ _ _ _ _ Hpl) as (Hsz & Hroot & Hcur).
  pose proof (pl_prisoners _ _ _ _ _ _ _ _ Hpl) as Hpris.
  unfold play, outside_board. rewrite Hco.
  rewrite bool_decide_eq_false_2 by (intros Hn; by apply Hn).
  rewrite (validate_unfold g move ik x y gc tc); [|done| |done].
  2: { rewrite (board_get_cell (board_size g)) by (done || apply Hwf).
       by rewrite Hemp. }
  destruct (_ && _ && _); simpl.
  { by rewrite Hroot, Hcur. }
  change (neighbours (set_prisoners ?p gc)) with (neighbours gc).
  destruct (decide (-1 ∈ _)); simpl.
  - by rewrite Hroot, Hcur, Hpris.
  - by rewrite Hroot, Hcur, Hpris.
Qed.

Lemma own_chain_placed g move x y nb K gc tc g' :
  placed g move x y nb K gc tc →
  board g' = board gc → chains g' = chains gc → board_size g' = board_size g →
  liberties g' (own_chain g' x y) = liberties gc (chain_at (chains gc) tc).
Proof.
  intros Hpl Hb Hc Hs. destruct (pl_session _ _ _ _ _ _ _ _ Hpl) as (Hsz & _).
  unfold own_chain. rewrite Hb, Hc, (pl_cell _ _ _ _ _ _ _ _ Hpl).
  apply liberties_ext; congruence.
Qed.

(** An accepted move is a pass, or a stone placed on a free point. *)
Lemma play_returned_cases g move ignore_ko g' :
  wf g → play move ignore_ko g = (g', Returned) →
  prisoners g' = prisoners g ++ last_capture g' ∧
  ((coords move = None ∧ board g' = board g ∧ chains g' = chains g ∧
   board_size g' = board_size g ∧ last_capture g' = []) ∨
  (∃ x y nb K gc tc,
     coords move = Some (x, y) ∧ on_board (board_size g) x y ∧
     cell (board g) x y = -1 ∧ placed g move x y nb K gc tc ∧
     board g' = board gc ∧ chains g' = chains gc ∧
     board_size g' = board_size g ∧ last_capture g' = last_capture gc ∧
     -1 ∈ neighbours gc (chain_at (chains gc) tc) ∧
     after_captures g move x y = Some (gc, tc))).
Proof.
  intros Hwf Hplay. destruct (coords move) as [[x y]|] eqn:Hco.
  - destruct (decide (on_board (board_size g) x y)) as [Hon|Hout];
      [|by rewrite (play_outside g move x y) in Hplay].
    destruct (decide (cell (board g) x y = -1)) as [Hemp|Hocc];
      [|by rewrite (play_occupied g move x y) in Hplay].
    destruct (play_stone g move x y Hwf Hco Hon Hemp)
      as (nb & K & gc & tc & [_ Hafter] & Hpl & Hp).
    destruct (Hp ignore_ko) as (Hb & Hc & Hl & Hs & Hr & Hpr & _).
    rewrite Hplay in *. simpl in *.
    destruct (_ && _ && _); [done|].
    split; [by rewrite Hl|]. right.
    exists x, y, nb, K, gc, tc. split_and!; try done.
    by destruct (decide (-1 ∈ _)).
  - destruct (play_pass g move ignore_ko Hco) as (_ & Hb & Hc & Hl & Hpr & Hs).
    rewrite Hplay in *. simpl in *. split; [by rewrite Hl, app_nil_r|].
    by left.
Qed.

Lemma count_colour (l : list Move) (p q : Player) :
  (∀ m, m ∈ l → player m ≠ q) →
  length (filter (λ m, player m = p) l) =
    if decide (p = q) then 0%nat else length l.
Proof.
  intros Hl. induction l as [|m l IH]; [by destruct (decide _)|].
  assert (Hm : player m ≠ q) by (apply Hl; set_solver).
  assert (IH' := IH (λ m' Hm', Hl m' (list_elem_of_further _ _ _ Hm'))).
  rewrite filter_cons.
  destruct (decide (p = q)) as [->|Hne].
  - by rewrite decide_False.
  - rewrite decide_True by (by destruct (player m), p, q).
    simpl. by rewrite IH'.
Qed.

(** A stone placed next to a free point has a liberty there. *)
Lemma placed_free_neighbour g move x y nb K gc tc d :
  coords move = Some (x, y) → placed g move x y nb K gc tc →
  d ∈ DIRS → on_board (board_size g) (x + d.2) (y + d.1) →
  cell (board g) (x + d.2) (y + d.1) = -1 →
  -1 ∈ neighbours gc (chain_at (chains gc) tc).
Proof.
  intros Hco Hpl Hd Hon Hfree.
  destruct (pl_session _ _ _ _ _ _ _ _ Hpl) as (Hsz & _).
  apply (neighbours_mono gc move); [by eapply placed_has_stone|].
  apply (neighbours_adjacent gc move x y _ Hco). exists d.
  split_and!; [done|by rewrite Hsz|].
  rewrite (pl_cells _ _ _ _ _ _ _ _ Hpl) by (done || by apply DIRS_move).
  rewrite Hfree. rewrite decide_False.
  - rewrite decide_False; [done|].
    intros (? & _)%(pl_K _ _ _ _ _ _ _ _ Hpl). lia.
  - intros (? & _)%(pl_nb _ _ _ _ _ _ _ _ Hpl). lia.
Qed.

End more.

(** ** The chains of a game *)

Section colours.
Context `{SetOrder, !SetOrderLaws}.

Lemma chain_player_ext g g' c :
  chains g' = chains g → chain_player g' c = chain_player g c.
Proof. intros Hc. unfold chain_player. by rewrite Hc. Qed.

Lemma one_colour_ext g g' :
  chains g' = chains g → one_colour g → one_colour g'.
Proof.
  intros Hc Hone c m Hpos Hm. rewrite (chain_player_ext g g') by done.
  rewrite Hc in Hm. by apply Hone.
Qed.

Lemma elem_of_concat_chains chs (cs : list Z) m :
  m ∈ concat (map (chain_at chs) cs) ↔ ∃ c, c ∈ cs ∧ m ∈ chain_at chs c.
Proof.
  rewrite list_elem_of_In, in_concat. split.
  - intros (ch & (c & <- & Hc)%in_map_iff & Hm).
    exists c. by rewrite !list_elem_of_In.
  - intros (c & Hc & Hm). exists (chain_at chs c).
    rewrite in_map_iff, <- list_elem_of_In. split; [|done].
    exists c. by rewrite <- list_elem_of_In.
Qed.

Lemma placed_one_colour g move x y nb K gc tc :
  wf g → one_colour g → placed g move x y nb K gc tc → one_colour gc.
Proof.
  intros Hwf Hone Hpl c m Hpos Hm.
  pose proof (pl_chain _ _ _ _ _ _ _ _ Hpl) as Hchain.
  pose proof (pl_this_chain _ _ _ _ _ _ _ _ Hpl) as Htc.
  assert (Hhead : chain_player gc tc = Some (player move)).
  { rewrite chain_player_alt, Hchain. destruct nb as [|t others]; [done|].
    destruct (proj1 (pl_nb _ _ _ _ _ _ _ _ Hpl t)) as (_ & _ & Hp);
      [set_solver|].
    apply chain_player_Some in Hp as (_ & m0 & rest & Hm0 & <-).
    simpl. by rewrite Hm0. }
  destruct (decide (c = tc)) as [->|Hne].
  - rewrite Hhead. f_equal. rewrite Hchain in Hm.
    apply elem_of_app in Hm as [Hm|Hm];
      [|by apply list_elem_of_singleton in Hm as ->].
    apply elem_of_concat_chains in Hm as (c' & Hc' & Hm).
    destruct (proj1 (pl_nb _ _ _ _ _ _ _ _ Hpl c') Hc') as (Hpos' & _ & Hp).
    pose proof (Hone c' m Hpos' Hm). congruence.
  - destruct (decide (c ∈ nb)) as [Hnb|Hnb].
    { rewrite (pl_absorbed _ _ _ _ _ _ _ _ Hpl) in Hm;
        [by apply elem_of_nil in Hm|].
      destruct nb as [|t others]; [by apply elem_of_nil in Hnb|].
      simpl in *. set_solver. }
    destruct (decide (c ∈ K)) as [HK|HK].
    { rewrite (pl_captured _ _ _ _ _ _ _ _ Hpl) in Hm by done.
      by apply elem_of_nil in Hm. }
    rewrite chain_player_alt.
    rewrite (pl_other _ _ _ _ _ _ _ _ Hpl) in Hm |- * by done.
    rewrite <- chain_player_alt. by apply Hone.
Qed.

Lemma reachable_one_colour g : reachable g → one_colour g.
Proof.
  revert g. apply reachable_induction.
  - intros size c m _ Hm. unfold chain_at in Hm. simpl in Hm.
    by apply elem_of_nil in Hm.
  - intros g move ik g' Hreach Hone Hplay.
    pose proof (reachable_wf g Hreach) as Hwf.
    destruct (play_returned_cases g move ik g' Hwf Hplay)
      as [_ [(_ & _ & Hc & _)|(x & y & nb & K & gc & tc & _ & _ & _ & Hpl & _ & Hc & _)]].
    + by apply (one_colour_ext g).
    + apply (one_colour_ext gc); [done|]. by eapply placed_one_colour.
Qed.

Lemma captured_colour g move x y nb K gc tc m :
  one_colour g → placed g move x y nb K gc tc →
  m ∈ last_capture gc → player m ≠ player move.
Proof.
  intros Hone Hpl Hm. rewrite (pl_last_capture _ _ _ _ _ _ _ _ Hpl) in Hm.
  apply elem_of_concat_chains in Hm as (c & Hc & Hm).
  destruct (pl_K _ _ _ _ _ _ _ _ Hpl c Hc) as (Hpos & _ & p & Hp & Hne).
  pose proof (Hone c m Hpos Hm). congruence.
Qed.

End colours.

Section liberty.
Context `{SetOrder, !SetOrderLaws}.

Lemma neighbours_free_mono g g' ch :
  board_size g' = board_size g →
  (∀ x y, on_board (board_size g) x y → cell (board g) x y = -1 →
          cell (board g') x y = -1) →
  -1 ∈ neighbours g ch → -1 ∈ neighbours g' ch.
Proof.
  intros Hsz Hfree. rewrite !elem_of_neighbours.
  intros (m & x & y & d & Hm & Hco & Hd & Hon & Hc).
  exists m, x, y, d. rewrite Hsz. split_and!; try done.
  symmetry. by apply Hfree.
Qed.

(** The capture loop: a free point stays free, a chain is emptied or left
    as it is, and a chain the loop has looked at is empty or has a
    liberty. *)
Lemma captures_alive cs : ∀ g,
  wf g → (∀ c, c ∈ cs → 0 ≤ c) →
  let g' := foldl capture g cs in
  board_size g' = board_size g ∧
  (∀ x y, on_board (board_size g) x y → cell (board g) x y = -1 →
          cell (board g') x y = -1) ∧
  (∀ c, 0 ≤ c → chain_at (chains g') c = [] ∨
                chain_at (chains g') c = chain_at (chains g) c) ∧
  (∀ c, c ∈ cs → chain_at (chains g') c = [] ∨
                 -1 ∈ neighbours g' (chain_at (chains g') c)).
Proof.
  induction cs as [|c cs IH]; intros g Hwf Hpos; simpl.
  - split_and!; [done|done|by right|]. by intros c ?%elem_of_nil.
  - assert (Hc : 0 ≤ c) by (apply Hpos; set_solver).
    destruct (capture_spec g c Hwf Hc) as (Hwf1 & (Hsz1 & _) & _ & _ & Hstep).
    destruct (IH (capture g c) Hwf1) as (Hsz & Hfree & Hsame & Hlook);
      [intros; apply Hpos; set_solver|].
    assert (Hfree1 : ∀ x y, on_board (board_size g) x y →
              cell (board g) x y = -1 → cell (board (capture g c)) x y = -1).
    { intros x y Hon Hemp. destruct Hstep as [->|(_ & _ & _ & Hcells)]; [done|].
      rewrite Hcells, Hemp by done. by destruct (decide _). }
    assert (Hsame1 : ∀ c', 0 ≤ c' →
              chain_at (chains (capture g c)) c' = [] ∨
              chain_at (chains (capture g c)) c' = chain_at (chains g) c').
    { intros c' Hc'. destruct Hstep as [->|(_ & Hgone & Hkeep & _)]; [by right|].
      destruct (decide (c' = c)) as [->|Hne]; [by left|right; by apply Hkeep]. }
    split_and!.
    + by rewrite Hsz.
    + intros x y Hon Hemp. apply Hfree; [by rewrite Hsz1|by apply Hfree1].
    + intros c' Hc'. destruct (Hsame c' Hc') as [?|Heq]; [by left|].
      rewrite Heq. by apply Hsame1.
    + intros c' [->|Hc']%elem_of_cons; [|by apply Hlook].
      destruct (Hsame c Hc) as [?|Heq]; [by left|]. rewrite Heq.
      unfold capture in *.
      destruct (decide (-1 ∈ neighbours g (chain_at (chains g) c))) as [Hlib|_].
      * right. by apply (neighbours_free_mono g).
      * left. simpl.
        destruct (decide (Z.to_nat c < length (chains g))%nat).
        -- by apply chain_at_insert_eq.
        -- apply chain_at_ge. rewrite length_insert. lia.
Qed.

Lemma DIRS_back d : d ∈ DIRS → (- d.1, - d.2) ∈ DIRS.
Proof.
  unfold DIRS. rewrite !elem_of_cons, !elem_of_nil.
  intros [->|[->|[->|[->|[]]]]]; simpl; tauto.
Qed.

(** After a stone is placed and the captures are made, every chain but
    the one of the new stone is empty or has a liberty. *)
Lemma after_captures_alive g move x y gc tc :
  wf g → alive g → coords move = Some (x, y) → on_board (board_size g) x y →
  cell (board g) x y = -1 →
  after_captures g move x y = Some (gc, tc) →
  ∀ c, 0 ≤ c → c ≠ tc → chain_at (chains gc) c ≠ [] →
       -1 ∈ neighbours gc (chain_at (chains gc) c).
Proof.
  intros Hwf Halive Hco Hon Hemp Hafter.
  set (g0 := set_last_capture [] g) in *.
  assert (Hwf0 : wf g0).
  { destruct Hwf. split; try done. by intros m ?%elem_of_nil. }
  unfold after_captures in Hafter. fold g0 in Hafter.
  destruct (chain_set_spec (λ p, bool_decide (p = player move)) g0 move Hwf0)
    as (nb & Hnb & Hnd & Hnbel).
  unfold nb_chains in Hafter. rewrite Hnb in Hafter. simpl in Hafter.
  assert (Hnbval : ∀ c, c ∈ nb →
            0 ≤ c ∧ chain_player g c = Some (player move)).
  { intros c (Hc & ? & p & Hp & Hk)%Hnbel. apply bool_decide_eq_true in Hk.
    subst p. done. }
  destruct (connect_spec g0 move x y nb Hwf0 Hco Hon Hemp eq_refl Hnd)
    as (Hwf1 & Hs1 & Hp1 & Hl1 & Htc & Htcpos & Htcnot & Hhere & Hchain &
        Habs & Hoth & Hcells1 & Hlenc).
  { intros c Hc. destruct (Hnbval c Hc) as (? & Hp).
    split; [done|]. by apply (chain_player_Some g) in Hp as [? _]. }
  set (g1 := (connect g0 move x y nb).1) in *.
  set (tc1 := (connect g0 move x y nb).2) in *.
  destruct (chain_set_spec (λ p, bool_decide (p ≠ player move)) g1 move Hwf1)
    as (opp & Hopp & Hndo & Hoppel).
  unfold opp_nb_chains in Hafter. rewrite Hopp in Hafter. simpl in Hafter.
  injection Hafter as <- <-. fold g1 tc1.
  destruct Hs1 as (Hsz1 & _).
  destruct (captures_alive opp g1 Hwf1) as (Hsz & Hfree & Hsame & Hlook).
  { intros c Hc. by apply Hoppel in Hc as (_ & ? & _). }
  intros c Hc Hne Hstones.
  destruct (Hsame c Hc) as [?|Heq]; [done|].
  rewrite Heq in Hstones |- *.
  assert (Hnin : c ∉ nb).
  { intros Hin. destruct nb as [|t others]; [by apply elem_of_nil in Hin|].
    apply elem_of_cons in Hin as [->|Hin]; [by rewrite Htc in Hne|].
    by rewrite Habs in Hstones. }
  rewrite Hoth in Hstones |- * by done.
  change (chains g0) with (chains g) in *.
  destruct (proj1 (elem_of_neighbours g _ _) (Halive c Hc Hstones))
    as (m & mx & my & d & Hm & Hmco & Hd & Hdon & Hdc).
  destruct (decide (mx + d.2 = x ∧ my + d.1 = y)) as [[Hx Hy]|Hother].
  - (* the liberty was the point of the new stone *)
    destruct (wf_chain g Hwf c m Hc Hm) as (mx' & my' & Hmco' & Hmon & Hmc).
    rewrite Hmco in Hmco'. injection Hmco' as <- <-.
    assert (Hcin : c ∈ opp).
    { apply Hoppel. split_and!; [|done|].
      - apply (neighbours_adjacent g1 move x y c Hco).
        exists (- d.1, - d.2). simpl. split; [by apply DIRS_back|].
        replace (x + - d.2) with mx by lia. replace (y + - d.1) with my by lia.
        rewrite Hsz1. split; [done|].
        rewrite Hcells1; [|done|intros [-> ->]; change (board g0) with (board g) in *; lia].
        change (board g0) with (board g). rewrite Hmc.
        by rewrite decide_False.
      - rewrite chain_player_alt, Hoth by done.
        change (chains g0) with (chains g).
        destruct (chain_at (chains g) c) as [|m0 rest] eqn:Hch; [done|].
        exists (player m0). split; [done|]. apply bool_decide_eq_true.
        intros Hsame'. apply Hnin, Hnbel. split_and!; [|done|].
        + apply (neighbours_adjacent g0 move x y c Hco).
          exists (- d.1, - d.2). simpl. split; [by apply DIRS_back|].
          replace (x + - d.2) with mx by lia.
          replace (y + - d.1) with my by lia. done.
        + exists (player m0). rewrite chain_player_alt.
          change (chains g0) with (chains g). rewrite Hch.
          split; [done|]. by apply bool_decide_eq_true. }
    destruct (Hlook c Hcin) as [Hnil|Hlib].
    + rewrite Heq, Hoth in Hnil by done. done.
    + by rewrite Heq, Hoth in Hlib.
  - apply (neighbours_free_mono g1); [done|done|].
    apply elem_of_neighbours. exists m, mx, my, d.
    rewrite Hsz1. split_and!; try done.
    rewrite Hcells1 by done. change (board g0) with (board g).
    rewrite <- Hdc. rewrite decide_False; [done|].
    intros Hin. apply Hnbval in Hin. lia.
Qed.

Lemma reachable_alive g : reachable g → alive g.
Proof.
  revert g. apply reachable_induction.
  - intros size c _ Hc. unfold chain_at in Hc. simpl in Hc. done.
  - intros g move ik g' Hreach Halive Hplay.
    pose proof (reachable_wf g Hreach) as Hwf.
    destruct (play_returned_cases g move ik g' Hwf Hplay)
      as [_ [(_ & Hb & Hc & Hs & _)|
             (x & y & nb & K & gc & tc & Hco & Hon & Hemp & Hpl & Hb & Hc &
              Hs & _ & Hlib & Hafter)]].
    + intros c Hpos Hne. rewrite Hc in Hne |- *.
      rewrite (neighbours_ext g g') by done. by apply Halive.
    + destruct (pl_session _ _ _ _ _ _ _ _ Hpl) as (Hsz & _).
      intros c Hpos Hne. rewrite Hc in Hne |- *.
      rewrite (neighbours_ext gc g') by congruence.
      destruct (decide (c = tc)) as [->|Hntc]; [done|].
      by apply (after_captures_alive g move x y gc tc).
Qed.

End liberty.

Section groups.
Context `{SetOrder, !SetOrderLaws}.

Lemma placed_head g move x y nb K gc tc :
  placed g move x y nb K gc tc → chain_player gc tc = Some (player move).
Proof.
  intros Hpl. rewrite chain_player_alt, (pl_chain _ _ _ _ _ _ _ _ Hpl).
  destruct nb as [|t others]; [done|].
  destruct (proj1 (pl_nb _ _ _ _ _ _ _ _ Hpl t)) as (_ & _ & Hp);
    [set_solver|].
  apply chain_player_Some in Hp as (_ & m0 & rest & Hm0 & <-).
  simpl. by rewrite Hm0.
Qed.

(** An occupied point after the move: it holds the chain of the new stone,
    or the chain it held before. *)
Lemma placed_cell_cases g move x y nb K gc tc qx qy :
  wf g → on_board (board_size g) x y → cell (board g) x y = -1 →
  placed g move x y nb K gc tc →
  on_board (board_size g) qx qy → 0 ≤ cell (board gc) qx qy →
  (cell (board gc) qx qy = tc ∧
   ((qx = x ∧ qy = y) ∨ cell (board g) qx qy ∈ nb)) ∨
  (¬ (qx = x ∧ qy = y) ∧ cell (board gc) qx qy = cell (board g) qx qy ∧
   (cell (board g) qx qy ∉ nb) ∧ cell (board gc) qx qy ≠ tc ∧
   chain_player gc (cell (board gc) qx qy) =
     chain_player g (cell (board g) qx qy)).
Proof.
  intros Hwf Hon Hemp Hpl Hq Hpos.
  destruct (decide (qx = x ∧ qy = y)) as [[-> ->]|Hne].
  { left. split; [by apply (pl_cell _ _ _ _ _ _ _ _ Hpl)|by left]. }
  pose proof (pl_cells _ _ _ _ _ _ _ _ Hpl qx qy Hq Hne) as Hc.
  destruct (decide (cell (board g) qx qy ∈ nb)) as [Hin|Hnin].
  { left. split; [done|by right]. }
  destruct (decide (cell (board g) qx qy ∈ K)) as [|HnK]; [lia|].
  right. rewrite Hc in Hpos |- *.
  assert (Hntc : cell (board g) qx qy ≠ tc).
  { rewrite (pl_this_chain _ _ _ _ _ _ _ _ Hpl).
    destruct nb as [|t others]; [|set_solver].
    intros Heq. destruct (wf_cell g Hwf qx qy Hq) as [?|[_ [p Hp]]]; [lia|].
    rewrite Heq, chain_at_ge in Hp by lia. by apply elem_of_nil in Hp. }
  split_and!; try done.
  by rewrite !chain_player_alt, (pl_other _ _ _ _ _ _ _ _ Hpl).
Qed.

Lemma occupied_player g x y :
  wf g → on_board (board_size g) x y → 0 ≤ cell (board g) x y →
  is_Some (chain_player g (cell (board g) x y)).
Proof.
  intros Hwf Hon Hpos. destruct (wf_cell g Hwf x y Hon) as [?|[_ [p Hp]]]; [lia|].
  rewrite chain_player_alt.
  destruct (chain_at _ _); [by apply elem_of_nil in Hp|]. simpl. eauto.
Qed.

Lemma placed_maximal g move x y nb K gc tc :
  wf g → maximal g → on_board (board_size g) x y → cell (board g) x y = -1 →
  placed g move x y nb K gc tc → maximal gc.
Proof.
  intros Hwf Hmax Hon Hemp Hpl.
  destruct (pl_session _ _ _ _ _ _ _ _ Hpl) as (Hsz & _).
  pose proof (placed_head _ _ _ _ _ _ _ _ Hpl) as Hhead.
  assert (Hfriend : ∀ c, c ∈ nb → chain_player g c = Some (player move)).
  { intros c Hc. by apply (pl_nb _ _ _ _ _ _ _ _ Hpl) in Hc as (_ & _ & ?). }
  intros ax ay d. rewrite Hsz. intros Ha Hd Hb Hpa Hpb Hcol.
  destruct (placed_cell_cases g move x y nb K gc tc ax ay Hwf Hon Hemp Hpl Ha Hpa)
    as [[Hca Hwa]|(Hna & Hca & Hnina & Hntca & Hpla)];
  destruct (placed_cell_cases g move x y nb K gc tc _ _ Hwf Hon Hemp Hpl Hb Hpb)
    as [[Hcb Hwb]|(Hnb & Hcb & Hninb & Hntcb & Hplb)].
  - congruence.
  - (* the first point is of the new chain, the second kept its chain *)
    exfalso. apply Hninb. rewrite Hca, Hhead, Hplb in Hcol.
    rewrite Hcb in Hpb. destruct Hwa as [[-> ->]|Hina].
    + apply (pl_nb _ _ _ _ _ _ _ _ Hpl). split_and!; [done| |done].
      by exists d.
    + rewrite <- (Hmax ax ay d); try done.
      * by apply (pl_nb _ _ _ _ _ _ _ _ Hpl) in Hina as (? & _).
      * by rewrite Hfriend.
  - exfalso. apply Hnina. rewrite Hcb, Hhead, Hpla in Hcol.
    rewrite Hca in Hpa. destruct Hwb as [[Hx Hy]|Hinb].
    + apply (pl_nb _ _ _ _ _ _ _ _ Hpl). split_and!; [done| |done].
      exists (- d.1, - d.2). simpl. split; [by apply DIRS_back|].
      replace (x + - d.2) with ax by lia. replace (y + - d.1) with ay by lia.
      done.
    + rewrite (Hmax ax ay d); try done.
      * by apply (pl_nb _ _ _ _ _ _ _ _ Hpl) in Hinb as (? & _).
      * by rewrite (Hfriend _ Hinb).
  - rewrite Hca, Hcb. rewrite Hpla, Hplb in Hcol.
    rewrite Hca in Hpa. rewrite Hcb in Hpb. by apply Hmax.
Qed.

Lemma maximal_ext g g' :
  board g' = board g → chains g' = chains g → board_size g' = board_size g →
  maximal g → maximal g'.
Proof.
  intros Hb Hc Hs Hmax x y d. rewrite Hb, Hs.
  rewrite !(chain_player_ext g g') by done. apply Hmax.
Qed.

Lemma reachable_maximal g : reachable g → maximal g.
Proof.
  revert g. apply reachable_induction.
  - intros size x y d Hon _ _ Hpos. simpl in *.
    rewrite cell_empty_board in Hpos by done. lia.
  - intros g move ik g' Hreach Hmax Hplay.
    pose proof (reachable_wf g Hreach) as Hwf.
    destruct (play_returned_cases g move ik g' Hwf Hplay)
      as [_ [(_ & Hb & Hc & Hs & _)|
             (x & y & nb & K & gc & tc & Hco & Hon & Hemp & Hpl & Hb & Hc &
              Hs & _)]].
    + by apply (maximal_ext g).
    + destruct (pl_session _ _ _ _ _ _ _ _ Hpl) as (Hsz & _).
      apply (maximal_ext gc); [done|done|congruence|].
      by eapply placed_maximal.
Qed.

End groups.

Section stones_list.
Context `{SetOrder, !SetOrderLaws}.

Lemma keyed_concat_key {A K} (key : A → K) (ks : list K) (l : list (list A)) m :
  Forall2 (λ k ch, NoDup ch ∧ ∀ a, a ∈ ch → key a = k) ks l →
  m ∈ concat l → key m ∈ ks.
Proof.
  induction 1 as [|k ch ks l [_ Hk] _ IH]; simpl.
  - by intros ?%elem_of_nil.
  - intros [Hm|Hm]%elem_of_app; [|set_solver].
    rewrite (Hk m Hm). set_solver.
Qed.

(** Lists with different keys, each without a duplicate, have none when
    joined. *)
Lemma NoDup_concat_keyed {A K} (key : A → K) (ks : list K)
    (l : list (list A)) :
  NoDup ks →
  Forall2 (λ k ch, NoDup ch ∧ ∀ a, a ∈ ch → key a = k) ks l →
  NoDup (concat l).
Proof.
  intros Hnd Hall. induction Hall as [|k ch ks l [Hch Hk] Hall IH]; simpl.
  - constructor.
  - apply NoDup_cons in Hnd as [Hnk Hnd]. apply NoDup_app.
    split_and!; [done| |by apply IH].
    intros a Ha Hin. apply Hnk. rewrite <- (Hk a Ha).
    by eapply keyed_concat_key.
Qed.

Lemma Forall2_map_self {A B} (P : A → B → Prop) (f : A → B) (l : list A) :
  (∀ a, a ∈ l → P a (f a)) → Forall2 P l (map f l).
Proof.
  induction l as [|a l IH]; intros Hl; simpl; constructor.
  - apply Hl. set_solver.
  - apply IH. intros; apply Hl. set_solver.
Qed.

Lemma chain_keyed g c :
  wf g → distinct g → 0 ≤ c →
  NoDup (map coords (chain_at (chains g) c)) ∧
  ∀ co, co ∈ map coords (chain_at (chains g) c) → cell_of g co = c.
Proof.
  intros Hwf Hdis Hc. split; [by apply Hdis|].
  intros co (m & -> & Hm)%list_elem_of_fmap.
  destruct (wf_chain g Hwf c m Hc Hm) as (x & y & -> & _ & Hcell). done.
Qed.

Lemma placed_distinct g move x y nb K gc tc :
  wf g → distinct g → coords move = Some (x, y) →
  cell (board g) x y = -1 → placed g move x y nb K gc tc → distinct gc.
Proof.
  intros Hwf Hdis Hco Hemp Hpl c Hc.
  assert (Hnbpos : ∀ c', c' ∈ nb → 0 ≤ c').
  { intros c' Hc'. by apply (pl_nb _ _ _ _ _ _ _ _ Hpl) in Hc' as (? & _). }
  assert (Hall : Forall2 (λ k ch, NoDup ch ∧ ∀ a, a ∈ ch → cell_of g a = k)
            nb (map (map coords) (map (chain_at (chains g)) nb))).
  { rewrite map_map. apply Forall2_map_self. intros c' Hc'.
    apply chain_keyed; auto. }
  destruct (decide (c = tc)) as [->|Hne].
  - rewrite (pl_chain _ _ _ _ _ _ _ _ Hpl), map_app, concat_map. simpl.
    apply NoDup_app. split_and!.
    + apply (NoDup_concat_keyed (cell_of g) nb);
        [by apply (pl_nb_NoDup _ _ _ _ _ _ _ _ Hpl)|done].
    + intros co Hin ->%list_elem_of_singleton.
      apply (keyed_concat_key (cell_of g) nb) in Hin; [|done].
      rewrite Hco in Hin. simpl in Hin. rewrite Hemp in Hin.
      apply Hnbpos in Hin. lia.
    + apply NoDup_singleton.
  - destruct (decide (c ∈ nb)) as [Hnb|Hnb].
    { rewrite (pl_absorbed _ _ _ _ _ _ _ _ Hpl); [constructor|].
      destruct nb as [|t others]; [by apply elem_of_nil in Hnb|].
      rewrite (pl_this_chain _ _ _ _ _ _ _ _ Hpl) in Hne. simpl. set_solver. }
    destruct (decide (c ∈ K)) as [HK|HK].
    { rewrite (pl_captured _ _ _ _ _ _ _ _ Hpl) by done. constructor. }
    rewrite (pl_other _ _ _ _ _ _ _ _ Hpl) by done. by apply Hdis.
Qed.

Lemma reachable_distinct g : reachable g → distinct g.
Proof.
  revert g. apply reachable_induction.
  - intros size c _. unfold chain_at. simpl. constructor.
  - intros g move ik g' Hreach Hdis Hplay.
    pose proof (reachable_wf g Hreach) as Hwf.
    destruct (play_returned_cases g move ik g' Hwf Hplay)
      as [_ [(_ & _ & Hc & _)|
             (x & y & nb & K & gc & tc & Hco & Hon & Hemp & Hpl & _ & Hc & _)]].
    + intros c Hpos. rewrite Hc. by apply Hdis.
    + intros c Hpos. rewrite Hc. by eapply placed_distinct.
Qed.

Lemma elem_of_stones g m :
  m ∈ stones g ↔ ∃ c : nat, m ∈ chain_at (chains g) (Z.of_nat c).
Proof.
  unfold stones. rewrite list_elem_of_In, in_concat. split.
  - intros (ch & Hch%list_elem_of_In & Hm%list_elem_of_In).
    apply list_elem_of_lookup in Hch as [c Hc]. exists c.
    unfold chain_at. by rewrite Nat2Z.id, Hc.
  - intros (c & Hm). unfold chain_at in Hm. rewrite Nat2Z.id in Hm.
    destruct (chains g !! c) as [ch|] eqn:Hc; [|by apply elem_of_nil in Hm].
    exists ch. rewrite <- !list_elem_of_In. split; [|done].
    apply list_elem_of_lookup. by exists c.
Qed.

(** The stones an accepted move takes are those that were on the board
    and are not any more. *)
Lemma placed_last_capture g move x y nb K gc tc m :
  wf g → cell (board g) x y = -1 → placed g move x y nb K gc tc →
  m ∈ last_capture gc ↔ m ∈ stones g ∧ m ∉ stones gc.
Proof.
  intros Hwf Hemp Hpl.
  rewrite (pl_last_capture _ _ _ _ _ _ _ _ Hpl), elem_of_concat_chains.
  rewrite !elem_of_stones.
  destruct (pl_session _ _ _ _ _ _ _ _ Hpl) as (Hsz & _).
  assert (HKnb : ∀ c, c ∈ K → c ∉ nb).
  { intros c (_ & _ & p & Hp & Hne)%(pl_K _ _ _ _ _ _ _ _ Hpl)
             (_ & _ & Hp')%(pl_nb _ _ _ _ _ _ _ _ Hpl). congruence. }
  split.
  - intros (c & Hc & Hm).
    destruct (pl_K _ _ _ _ _ _ _ _ Hpl c Hc) as (Hpos & _).
    split; [exists (Z.to_nat c); by rewrite Z2Nat.id|].
    intros (c' & Hm').
    destruct (wf_chain g Hwf c m Hpos Hm) as (mx & my & Hco & Hon & Hcell).
    destruct (wf_chain gc (pl_wf _ _ _ _ _ _ _ _ Hpl) _ m
                (Nat2Z.is_nonneg c') Hm') as (mx' & my' & Hco' & _ & Hcell').
    rewrite Hco in Hco'. injection Hco' as <- <-.
    rewrite (pl_cells _ _ _ _ _ _ _ _ Hpl) in Hcell';
      [|done|intros [-> ->]; lia].
    rewrite Hcell in Hcell'.
    rewrite decide_False in Hcell' by (by apply HKnb).
    rewrite decide_True in Hcell' by done. lia.
  - intros [(c & Hm) Hgone].
    assert (Hc : 0 ≤ Z.of_nat c) by lia.
    exists (Z.of_nat c). split; [|done].
    destruct (decide (Z.of_nat c ∈ K)) as [|HnK]; [done|].
    exfalso. apply Hgone.
    destruct (decide (Z.of_nat c ∈ nb)) as [Hnb|Hnnb].
    + exists (Z.to_nat tc). rewrite Z2Nat.id.
      * rewrite (pl_chain _ _ _ _ _ _ _ _ Hpl). apply elem_of_app. left.
        apply elem_of_concat_chains. eauto.
      * rewrite (pl_this_chain _ _ _ _ _ _ _ _ Hpl).
        destruct nb as [|t others]; [lia|].
        destruct (proj1 (pl_nb _ _ _ _ _ _ _ _ Hpl t)) as (? & _);
          [set_solver|done].
    + exists c. rewrite (pl_other _ _ _ _ _ _ _ _ Hpl); [done..|].
      rewrite (pl_this_chain _ _ _ _ _ _ _ _ Hpl).
      destruct nb as [|t others]; [|set_solver].
      intros Heq. rewrite Heq, chain_at_ge in Hm by lia.
      by apply elem_of_nil in Hm.
Qed.

End stones_list.

Section pieces.
Context `{SetOrder, !SetOrderLaws}.

Lemma next_to_sym m1 m2 : next_to m1 m2 → next_to m2 m1.
Proof.
  intros (x & y & d & Hd & H1 & H2).
  exists (x + d.2), (y + d.1), (- d.1, - d.2). simpl.
  split_and!; [by apply DIRS_back|done|]. rewrite H1. do 2 f_equal; lia.
Qed.

Lemma linked_sym ch m1 m2 : linked ch m1 m2 → linked ch m2 m1.
Proof.
  induction 1 as [|m1 m2 m3 (H1 & H2 & Hn) _ IH]; [done|].
  eapply rtc_r; [exact IH|]. split_and!; [done..|by apply next_to_sym].
Qed.

Lemma linked_mono ch ch' m1 m2 :
  (∀ m, m ∈ ch → m ∈ ch') → linked ch m1 m2 → linked ch' m1 m2.
Proof.
  intros Hsub. apply rtc_subrel. intros a b (? & ? & ?). auto.
Qed.

Lemma placed_connected g move x y nb K gc tc :
  wf g → connected g → coords move = Some (x, y) →
  placed g move x y nb K gc tc → connected gc.
Proof.
  intros Hwf Hcon Hco Hpl c m1 m2 Hc H1 H2.
  destruct (decide (c = tc)) as [->|Hne].
  - assert (Hmove : move ∈ chain_at (chains gc) tc)
      by (by eapply placed_has_stone).
    assert (Hto : ∀ m, m ∈ chain_at (chains gc) tc →
              linked (chain_at (chains gc) tc) m move).
    { intros m Hm. rewrite (pl_chain _ _ _ _ _ _ _ _ Hpl) in Hm.
      apply elem_of_app in Hm as [Hm|Hm];
        [|by apply list_elem_of_singleton in Hm as ->].
      apply elem_of_concat_chains in Hm as (c' & Hc' & Hm).
      destruct (proj1 (pl_nb _ _ _ _ _ _ _ _ Hpl c') Hc')
        as (Hpos' & (d & Hd & Hon & Hcell) & _).
      destruct (wf_cell g Hwf _ _ Hon) as [?|[_ [p Hp]]]; [lia|].
      rewrite Hcell in Hp.
      assert (Hsub : ∀ a, a ∈ chain_at (chains g) c' →
                a ∈ chain_at (chains gc) tc).
      { intros a Ha. rewrite (pl_chain _ _ _ _ _ _ _ _ Hpl).
        apply elem_of_app. left. apply elem_of_concat_chains. eauto. }
      eapply rtc_r.
      - apply (linked_mono (chain_at (chains g) c')); [done|].
        by apply (Hcon c' m _ Hpos').
      - split_and!; [by apply Hsub|done|]. apply next_to_sym.
        exists x, y, d. done. }
    etrans; [by apply Hto|]. by apply linked_sym, Hto.
  - destruct (decide (c ∈ nb)) as [Hnb|Hnb].
    { rewrite (pl_absorbed _ _ _ _ _ _ _ _ Hpl) in H1;
        [by apply elem_of_nil in H1|].
      destruct nb as [|t others]; [by apply elem_of_nil in Hnb|].
      rewrite (pl_this_chain _ _ _ _ _ _ _ _ Hpl) in Hne. simpl. set_solver. }
    destruct (decide (c ∈ K)) as [HK|HK].
    { rewrite (pl_captured _ _ _ _ _ _ _ _ Hpl) in H1 by done.
      by apply elem_of_nil in H1. }
    rewrite (pl_other _ _ _ _ _ _ _ _ Hpl) in H1, H2 |- * by done.
    by apply Hcon.
Qed.

Lemma reachable_connected g : reachable g → connected g.
Proof.
  revert g. apply reachable_induction.
  - intros size c m1 m2 _ Hm. unfold chain_at in Hm. simpl in Hm.
    by apply elem_of_nil in Hm.
  - intros g move ik g' Hreach Hcon Hplay.
    pose proof (reachable_wf g Hreach) as Hwf.
    destruct (play_returned_cases g move ik g' Hwf Hplay)
      as [_ [(_ & _ & Hc & _)|
             (x & y & nb & K & gc & tc & Hco & Hon & Hemp & Hpl & _ & Hc & _)]].
    + intros c m1 m2. rewrite Hc. apply Hcon.
    + intros c m1 m2. rewrite Hc. by eapply placed_connected.
Qed.

End pieces.

(** ** Sessions: the tree and the position agree *)

Section sessions.
Context `{SetOrder}.

Lemma set_tree_eta g : set_tree (root g) (current_node g) g = g.
Proof. by destruct g. Qed.

Lemma play_returned g move ignore_ko g' :
  play move ignore_ko g = (g', Returned) →
  outside_board g move = false ∧
  ∃ g3, _validate_move_and_update_chains move ignore_ko g = (g3, Returned) ∧
        g' = set_tree (node_play (root g) (current_node g) move).1
                      (node_play (root g) (current_node g) move).2 g3.
Proof.
  unfold play. destruct (outside_board g move); [done|].
  pose proof (validate_session move ignore_ko g) as (_ & Hr & Hc).
  destruct (_validate_move_and_update_chains move ignore_ko g)
    as [g3 [|e]]; [|done].
  simpl in *. intros [= <-]. split; [done|]. exists g3. split; [done|].
  by rewrite Hr, Hc.
Qed.

(** An accepted move is accepted with ko ignored, whatever the tree. *)
Lemma play_true_set_tree g move ignore_ko g' r c :
  play move ignore_ko g = (g', Returned) →
  play move true (set_tree r c g) =
    (set_tree (node_play r c move).1 (node_play r c move).2 g', Returned).
Proof.
  intros (Hout & g3 & Hval%validate_ignore_ko & ->)%play_returned.
  unfold play. change (outside_board (set_tree r c g) move)
    with (outside_board g move). rewrite Hout.
  rewrite validate_set_tree, Hval. done.
Qed.

Lemma play_size move ignore_ko g :
  board_size (play move ignore_ko g).1 = board_size g.
Proof.
  unfold play. destruct (outside_board g move); [done|].
  pose proof (validate_session move ignore_ko g) as (Hs & _).
  by destruct (_validate_move_and_update_chains move ignore_ko g)
    as [g3 [|e]].
Qed.

Lemma play_all_size ms : ∀ g, board_size (play_all ms g).1 = board_size g.
Proof.
  induction ms as [|[m ik] ms IH]; intros g; simpl; [done|].
  pose proof (play_size m ik g) as Hs.
  destruct (play m ik g) as [g1 [|e]]; simpl in *; [|done].
  by rewrite IH.
Qed.

(** Replaying moves gives the position that playing them gives. *)
Lemma replay_play_all ms : ∀ g0 gr,
  play_all (map (λ m, (m, true)) ms) g0 = (gr, Returned) →
  replay ms g0 = (set_tree (root g0) (current_node g0) gr, Returned).
Proof.
  induction ms as [|m ms IH]; intros g0 gr Hall; simpl in *.
  - injection Hall as <-. by rewrite set_tree_eta.
  - destruct (play m true g0) as [g1 [|e]] eqn:Hplay; [|done].
    apply play_returned in Hplay as (_ & g3 & Hval & ->).
    rewrite Hval.
    pose proof (validate_session m true g0) as (_ & Hr & Hc).
    rewrite Hval in Hr, Hc. simpl in Hr, Hc.
    specialize (IH _ _ Hall). rewrite replay_set_tree in IH.
    pose proof (replay_session ms g3) as (_ & Hr' & Hc').
    destruct (replay ms g3) as [g4 o]. simpl in *.
    pose proof (f_equal fst IH) as Hg4. pose proof (f_equal snd IH) as Ho.
    simpl in Hg4, Ho. subst o. f_equal.
    rewrite <- (set_tree_eta g4), Hr', Hc', Hr, Hc.
    apply (f_equal (set_tree (root g0) (current_node g0))) in Hg4.
    exact Hg4.
Qed.

(** ** Paths in the tree *)

Lemma node_at_app r p1 p2 :
  node_at r (p1 ++ p2) = node_at r p1 ≫= λ n, node_at n p2.
Proof.
  revert r. induction p1 as [|i p1 IH]; intros r; simpl; [done|].
  destruct (children r !! i) as [c|]; simpl; [apply IH|done].
Qed.

Lemma node_at_parent r p :
  is_Some (node_at r p) → is_Some (node_at r (parent_path p)).
Proof.
  destruct p as [|i p _] using rev_ind; [done|].
  rewrite parent_path_snoc, node_at_app.
  destruct (node_at r p); [eauto|]. by intros [? ?].
Qed.

Lemma path_moves_nil r : path_moves r [] = move_with_placements r.
Proof. unfold path_moves. simpl. apply app_nil_r. Qed.

Lemma path_moves_cons r i p :
  path_moves r (i :: p) =
    move_with_placements r ++
    match children r !! i with Some c => path_moves c p | None => [] end.
Proof. unfold path_moves. simpl. by destruct (children r !! i). Qed.

Lemma path_moves_snoc r p i nd c :
  node_at r p = Some nd → children nd !! i = Some c →
  path_moves r (p ++ [i]) = path_moves r p ++ move_with_placements c.
Proof.
  revert r. induction p as [|j p IH]; intros r Hnd Hc; simpl in *.
  - injection Hnd as ->. rewrite path_moves_cons, Hc, !path_moves_nil. done.
  - rewrite !path_moves_cons.
    destruct (children r !! j) as [c'|]; [|done]. simpl in Hnd.
    by rewrite (IH c'), app_assoc.
Qed.

Lemma add_child_moves r cur new :
  move_with_placements (add_child r cur new) = move_with_placements r.
Proof. unfold move_with_placements. by destruct r, cur. Qed.

Lemma node_at_add_child r cur new nd :
  node_at r cur = Some nd →
  node_at (add_child r cur new) cur =
    Some (Node (node_move nd) (placements nd) (children nd ++ [new])).
Proof.
  revert r. induction cur as [|i cur IH]; intros [mv pl ch] Hnd; simpl in *.
  - by injection Hnd as <-.
  - rewrite list_lookup_alter_eq.
    destruct (ch !! i) as [c|]; [|done]. simpl in *. by apply IH.
Qed.

Lemma path_moves_add_child r cur new p :
  is_Some (node_at r p) →
  path_moves (add_child r cur new) p = path_moves r p.
Proof.
  revert r cur. induction p as [|i p IH]; intros r cur Hp.
  - by rewrite !path_moves_nil, add_child_moves.
  - rewrite !path_moves_cons, add_child_moves. f_equal.
    simpl in Hp. destruct (children r !! i) as [c|] eqn:Hc; [|by destruct Hp].
    simpl in Hp. destruct r as [mv pl ch]. destruct cur as [|j cur]; simpl in *.
    + by rewrite (lookup_app_l_Some _ _ _ _ Hc).
    + destruct (decide (i = j)) as [->|Hne].
      * rewrite list_lookup_alter_eq, Hc. simpl. by apply IH.
      * rewrite list_lookup_alter_ne by done. by rewrite Hc.
Qed.

(** The nodes of the tree after a move is added: those of before, and the
    new one. *)
Lemma node_at_add_child_inv r cur new nd p :
  node_at r cur = Some nd → children new = [] →
  is_Some (node_at (add_child r cur new) p) →
  is_Some (node_at r p) ∨ p = cur ++ [length (children nd)].
Proof.
  intros Hnd Hleaf. revert r p Hnd.
  induction cur as [|j cur IH]; intros [mv pl ch] p Hnd Hp; simpl in *.
  - injection Hnd as <-. destruct p as [|i p]; [by left|]. simpl in *.
    destruct (decide (i < length ch)%nat) as [Hlt|Hge].
    + rewrite lookup_app_l in Hp by done. by left.
    + rewrite lookup_app_r in Hp by lia. right.
      destruct (i - length ch)%nat as [|k] eqn:Hk;
        [|by destruct Hp].
      simpl in Hp. destruct p as [|i' p].
      * do 2 f_equal. lia.
      * simpl in Hp. rewrite Hleaf in Hp. by destruct Hp.
  - destruct (ch !! j) as [c|] eqn:Hc; [|done]. simpl in Hnd.
    destruct p as [|i p]; [by left|]. simpl in *.
    destruct (decide (i = j)) as [->|Hne].
    + rewrite list_lookup_alter_eq, Hc in Hp. simpl in Hp. rewrite Hc. simpl.
      destruct (IH c p Hnd Hp) as [?| ->]; [by left|by right].
    + rewrite list_lookup_alter_ne in Hp by done. by left.
Qed.

(** ** Going to a node *)

Lemma path_game_ext g g' p :
  root g' = root g → board_size g' = board_size g →
  path_game g' p = path_game g p.
Proof. intros Hr Hs. unfold path_game. by rewrite Hr, Hs. Qed.

Lemma path_game_size g p : board_size (path_game g p).1 = board_size g.
Proof. unfold path_game. by rewrite play_all_size. Qed.

(** The rebuild of the chains at a node of the tree returns, and gives
    the position of the moves towards that node. *)
Lemma goto_node g p :
  coherent g → is_Some (node_at (root g) p) →
  _init_chains (set_current_node p g) =
    (set_tree (root g) p (path_game g p).1, Returned) ∧
  coherent (set_tree (root g) p (path_game g p).1).
Proof.
  intros Hcs Hp. pose proof (cs_paths g Hcs p Hp) as Hret.
  destruct (path_game g p) as [gr o] eqn:Hpg. simpl in Hret. subst o.
  split.
  - rewrite init_chains_replay. simpl.
    change (cleared (set_current_node p g))
      with (set_tree (root g) p (new_game (board_size g))).
    rewrite replay_set_tree.
    unfold path_game in Hpg. by rewrite (replay_play_all _ _ _ Hpg).
  - simpl.
    assert (Hsz : board_size gr = board_size g).
    { pose proof (path_game_size g p) as Hs. by rewrite Hpg in Hs. }
    assert (Hext : ∀ q, path_game (set_tree (root g) p gr) q = path_game g q).
    { intros q. by apply path_game_ext. }
    split; simpl.
    + done.
    + intros q Hq. rewrite Hext. by apply (cs_paths g Hcs).
    + by rewrite Hext, Hpg.
Qed.

Lemma new_game_coherent size : coherent (new_game size).
Proof.
  split; simpl.
  - done.
  - intros p _. unfold path_game. by destruct p.
  - done.
Qed.

Lemma play_coherent g move ignore_ko g' :
  coherent g → play move ignore_ko g = (g', Returned) → coherent g'.
Proof.
  intros Hcs Hplay. destruct (cs_node g Hcs) as [nd Hnd].
  pose proof (play_returned g move ignore_ko g' Hplay)
    as (_ & g3 & Hval & Hg').
  pose proof (validate_session move ignore_ko g) as (Hsz3 & _).
  rewrite Hval in Hsz3. simpl in Hsz3.
  set (new := Node (Some move) [] []).
  assert (Hroot : root g' = add_child (root g) (current_node g) new)
    by (by rewrite Hg').
  assert (Hcur : current_node g' = current_node g ++ [length (children nd)]).
  { rewrite Hg'. simpl. by rewrite Hnd. }
  assert (Hsz : board_size g' = board_size g) by (by rewrite Hg').
  assert (Hold : ∀ p, is_Some (node_at (root g) p) →
            path_game g' p = path_game g p).
  { intros p Hp. unfold path_game.
    by rewrite Hsz, Hroot, path_moves_add_child. }
  assert (Hmoves : path_moves (root g') (current_node g') =
            path_moves (root g) (current_node g) ++ [move]).
  { rewrite Hroot, Hcur.
    pose proof (node_at_add_child _ _ new _ Hnd) as Hnd'.
    rewrite (path_moves_snoc _ _ _ _ new Hnd').
    2: { simpl. rewrite lookup_app_r by lia. by rewrite Nat.sub_diag. }
    by rewrite path_moves_add_child by (by rewrite Hnd). }
  assert (Hnew : ∃ r c, path_game g' (current_node g') =
                        (set_tree r c g', Returned)).
  { unfold path_game. rewrite Hsz, Hmoves, map_app. simpl.
    rewrite play_all_snoc. fold (path_game g (current_node g)).
    pose proof (cs_paths g Hcs _ (cs_node g Hcs)) as Hret.
    pose proof (cs_position g Hcs) as Hpos.
    destruct (path_game g (current_node g)) as [gr o] eqn:Hpg.
    simpl in Hret, Hpos. subst o. simpl.
    assert (Hgr : gr = set_tree (root gr) (current_node gr) g).
    { rewrite Hpos. by destruct gr. }
    pose proof (play_true_set_tree g move ignore_ko g' (root gr)
                  (current_node gr) Hplay) as Hp.
    rewrite <- Hgr in Hp. eexists _, _. exact Hp. }
  destruct Hnew as (r' & c' & Hnew).
  split.
  - rewrite Hroot, Hcur, node_at_app, (node_at_add_child _ _ new _ Hnd).
    simpl. rewrite lookup_app_r by lia. by rewrite Nat.sub_diag.
  - intros p Hp. rewrite Hroot in Hp.
    destruct (node_at_add_child_inv _ _ new nd p Hnd eq_refl Hp) as [Hp'| ->].
    + rewrite Hold by done. by apply (cs_paths g Hcs).
    + rewrite <- Hcur. by rewrite Hnew.
  - rewrite Hnew. simpl. by destruct g'.
Qed.

(** ** [undo], [redo] and [switch_branch] go to a node of the tree *)

Lemma undo_goto g :
  coherent g →
  undo g = (g, Returned) ∨
  ∃ p, is_Some (node_at (root g) p) ∧
       undo g = _init_chains (set_current_node p g).
Proof.
  intros Hcs. unfold undo. destruct (current_node g) as [|i cur] eqn:Hcur;
    [by left|].
  right. exists (parent_path (i :: cur)). split; [|done].
  apply node_at_parent. rewrite <- Hcur. by apply (cs_node g Hcs).
Qed.

Lemma redo_goto g :
  coherent g →
  redo g = (g, Returned) ∨
  ∃ p, is_Some (node_at (root g) p) ∧
       redo g = _init_chains (set_current_node p g).
Proof.
  intros Hcs. unfold redo.
  destruct (node_at (root g) (current_node g)) as [nd|] eqn:Hnd; [|by left].
  simpl. destruct (children nd) as [|c cs] eqn:Hch; [by left|].
  right. exists (current_node g ++ [length cs]). split; [|done].
  rewrite node_at_app, Hnd. simpl. rewrite Hch.
  destruct (lookup_lt_is_Some_2 (c :: cs) (length cs)) as [c' ->];
    [simpl; lia|]. done.
Qed.

Lemma switch_branch_goto g direction :
  coherent g →
  switch_branch direction g = (g, Returned) ∨
  ∃ p, is_Some (node_at (root g) p) ∧
       switch_branch direction g = _init_chains (set_current_node p g).
Proof.
  intros Hcs. unfold switch_branch.
  destruct (last (current_node g)) as [ix|]; [|by left].
  destruct (node_at (root g) (parent_path (current_node g))) as [nd|] eqn:Hnd;
    [|by left].
  simpl. destruct (decide (1 < length (children nd))%nat) as [Hk|]; [|by left].
  right. eexists. split; [|done].
  rewrite node_at_app, Hnd. simpl.
  set (k := Z.of_nat (length (children nd))).
  assert (0 ≤ (Z.of_nat ix + direction) `mod` k < k)
    by (apply Z.mod_pos_bound; unfold k; lia).
  destruct (lookup_lt_is_Some_2 (children nd)
              (Z.to_nat ((Z.of_nat ix + direction) `mod` k))) as [c' ->];
    [unfold k in *; lia|]. done.
Qed.

Lemma goto_session g r :
  coherent g →
  (r = (g, Returned) ∨
   ∃ p, is_Some (node_at (root g) p) ∧
        r = _init_chains (set_current_node p g)) →
  r.2 = Returned ∧ coherent r.1.
Proof.
  intros Hcs [->|(q & Hq & ->)]; [done|].
  destruct (goto_node g q Hcs Hq) as [-> Hcs']. done.
Qed.

Lemma session_coherent g : session g → coherent g.
Proof.
  induction 1 as [size|g move ik g' _ IH Hplay|g _ IH|g _ IH|g d _ IH].
  - apply new_game_coherent.
  - by eapply play_coherent.
  - by apply (goto_session g _ IH), undo_goto.
  - by apply (goto_session g _ IH), redo_goto.
  - by apply (goto_session g _ IH), switch_branch_goto.
Qed.

Lemma reachable_session g : reachable g → session g.
Proof.
  intros (size & ms & Hg). revert g Hg.
  induction ms as [|[m ik] ms IH] using rev_ind; intros g Hg.
  - simpl in Hg. injection Hg as <-. apply session_new.
  - rewrite play_all_snoc in Hg.
    destruct (play_all ms (Game_init size None None).1) as [g0 [|e]] eqn:Hg0;
      [|done].
    eapply session_play; [by apply IH|done].
Qed.

(** The position of a session is the position of a game. *)
Lemma session_game g :
  session g →
  ∃ gr, path_game g (current_node g) = (gr, Returned) ∧
        reachable gr ∧ board_size gr = board_size g ∧
        board g = board gr ∧ chains g = chains gr ∧
        prisoners g = prisoners gr ∧ last_capture g = last_capture gr.
Proof.
  intros Hcs%session_coherent.
  pose proof (cs_paths g Hcs _ (cs_node g Hcs)) as Hret.
  pose proof (cs_position g Hcs) as Hpos.
  pose proof (path_game_size g (current_node g)) as Hsz.
  destruct (path_game g (current_node g)) as [gr o] eqn:Hpg.
  simpl in Hret, Hpos, Hsz. subst o.
  exists gr. split; [done|]. split.
  { eexists _, _. exact Hpg. }
  split; [done|]. rewrite Hpos. done.
Qed.

End sessions.

Section soundness.
Context `{SetOrder, !SetOrderLaws}.

Lemma reachable_sound g : reachable g → sound g.
Proof.
  intros Hreach. split.
  - by apply reachable_wf.
  - by apply reachable_one_colour.
  - by apply reachable_alive.
  - by apply reachable_maximal.
  - by apply reachable_distinct.
  - by apply reachable_connected.
Qed.

Lemma sound_ext g g' :
  board_size g' = board_size g → board g' = board g →
  chains g' = chains g → last_capture g' = last_capture g →
  sound g → sound g'.
Proof.
  intros Hs Hb Hc Hl [[Hw1 Hw2 Hw3 Hw4] Hone Halive Hmax Hdis Hcon]. split.
  - split; rewrite ?Hs, ?Hb, ?Hc, ?Hl; done.
  - by apply (one_colour_ext g).
  - intros c Hpos Hne. rewrite Hc in Hne |- *.
    rewrite (neighbours_ext g g') by done. by apply Halive.
  - by apply (maximal_ext g).
  - intros c Hpos. rewrite Hc. by apply Hdis.
  - intros c m1 m2. rewrite Hc. apply Hcon.
Qed.

Lemma session_sound g : session g → sound g.
Proof.
  intros (gr & _ & Hreach & Hs & Hb & Hc & _ & Hl)%session_game.
  apply (sound_ext gr); try done. by apply reachable_sound.
Qed.

End soundness.

(** * Further properties *)

(** ** What [play] answers *)

Section outcomes.
Context `{SetOrder, !SetOrderLaws}.

(** X1.  In a session, [play] returns normally or raises
    [IllegalMoveException], never [IndexError], and the tests come in this
    order: a pass is accepted; a stone outside the board, on an occupied
    point, retaking a ko, or left without a liberty is refused. *)
Theorem play_outcome g move ignore_ko :
  session g →
  let r := play move ignore_ko g in
  r.2 =
    match coords move with
    | None => Returned
    | Some (x, y) =>
        if decide (on_board (board_size g) x y) then
          if decide (cell (board g) x y = -1) then
            if ko_or_snapback g move
               && bool_decide (length (last_capture r.1) = 1%nat)
               && negb ignore_ko
            then Raised (IllegalMoveException Ko)
            else if decide (liberties r.1 (own_chain r.1 x y) = [])
                 then Raised (IllegalMoveException Suicide)
                 else Returned
          else Raised (IllegalMoveException SpaceOccupied)
        else Raised (IllegalMoveException (OutsideBoard move))
    end.
Proof.
  intros Hwf%session_sound%so_wf. simpl.
  destruct (coords move) as [[x y]|] eqn:Hco.
  - destruct (decide (on_board (board_size g) x y)) as [Hon|Hout];
      [|by rewrite (play_outside g move x y)].
    destruct (decide (cell (board g) x y = -1)) as [Hemp|Hocc];
      [|by rewrite (play_occupied g move x y)].
    destruct (play_stone g move x y Hwf Hco Hon Hemp)
      as (nb & K & gc & tc & _ & Hpl & Hplay).
    destruct (Hplay ignore_ko) as (Hb & Hc & Hl & Hs & Hr & _).
    rewrite (own_chain_placed g move x y nb K gc tc) by done.
    rewrite Hl, Hr. destruct (_ && _ && _); [done|].
    destruct (decide (-1 ∈ _)) as [Hlib|Hno].
    + rewrite decide_False; [done|]. by apply has_liberty.
    + rewrite decide_True; [done|].
      destruct (liberties gc _) eqn:Hlibs; [done|].
      exfalso. apply Hno, has_liberty. by rewrite Hlibs.
  - by destruct (play_pass g move ignore_ko Hco) as (-> & _).
Qed.

(** X2.  A stone on an occupied point is refused with "Space occupied",
    whoever plays it; board, chains, prisoners and the tree stay as they
    are, and [last_capture] is emptied. *)
Theorem occupied_rejected g move x y ignore_ko :
  session g → coords move = Some (x, y) → on_board (board_size g) x y →
  cell (board g) x y ≠ -1 →
  play move ignore_ko g =
    (set_last_capture [] g, Raised (IllegalMoveException SpaceOccupied)).
Proof. intros Hwf%session_sound%so_wf. by apply play_occupied. Qed.

(** X3.  A stone on a free point is refused as ko exactly when the move
    before took exactly this stone, the stone now takes exactly one stone,
    and [ignore_ko] is not set.  Taking two or more stones at that point (a
    snapback) is accepted. *)
Theorem ko_exactly g move x y ignore_ko :
  session g → coords move = Some (x, y) → on_board (board_size g) x y →
  cell (board g) x y = -1 →
  let r := play move ignore_ko g in
  (r.2 = Raised (IllegalMoveException Ko) ↔
     last_capture g = [move] ∧ length (last_capture r.1) = 1%nat ∧
     ignore_ko = false) ∧
  (last_capture g = [move] → (2 ≤ length (last_capture r.1))%nat →
     r.2 = Returned).
Proof.
  intros Hwf%session_sound%so_wf Hco Hon Hemp.
  destruct (play_stone g move x y Hwf Hco Hon Hemp)
    as (nb & K & gc & tc & _ & Hpl & Hplay).
  destruct (Hplay ignore_ko) as (Hb & Hc & Hl & Hs & Hr & _). simpl.
  rewrite Hl, Hr.
  assert (Hko : ko_or_snapback g move = true ↔ last_capture g = [move]).
  { unfold ko_or_snapback. destruct (last_capture g) as [|m [|? ?]];
      [done| |done].
    rewrite bool_decide_eq_true. split; [by intros ->|]. by intros [= ->]. }
  split.
  - split.
    + destruct (_ && _ && _) eqn:Hcond.
      * intros _. apply andb_prop in Hcond as [[Hk Hlen]%andb_prop Hik].
        apply bool_decide_eq_true in Hlen. apply Hko in Hk.
        by destruct ignore_ko.
      * by destruct (decide _).
    + intros (Hk%Hko & Hlen & ->).
      by rewrite Hk, (bool_decide_eq_true_2 _ Hlen).
  - intros _ Htwo. rewrite (bool_decide_eq_false_2 (_ = 1%nat)) by lia.
    rewrite andb_false_r. simpl. rewrite decide_True; [done|].
    eapply capture_gives_liberty; [done..|]. intros Hnil.
    rewrite Hnil in Htwo. simpl in Htwo. lia.
Qed.

(** X4.  A stone that takes at least one stone is never refused as suicide:
    when [play] raises "Suicide", nothing was captured. *)
Theorem capture_never_suicide g move ignore_ko :
  session g →
  (play move ignore_ko g).2 = Raised (IllegalMoveException Suicide) →
  last_capture (play move ignore_ko g).1 = [].
Proof.
  intros Hwf%session_sound%so_wf Hsui.
  destruct (coords move) as [[x y]|] eqn:Hco.
  - destruct (decide (on_board (board_size g) x y)) as [Hon|Hout];
      [|by rewrite (play_outside g move x y) in Hsui].
    destruct (decide (cell (board g) x y = -1)) as [Hemp|Hocc];
      [|by rewrite (play_occupied g move x y) in Hsui].
    destruct (play_stone g move x y Hwf Hco Hon Hemp)
      as (nb & K & gc & tc & _ & Hpl & Hplay).
    destruct (Hplay ignore_ko) as (_ & _ & Hl & _ & Hr & _).
    rewrite Hl. rewrite Hr in Hsui.
    destruct (_ && _ && _); [done|].
    destruct (decide (-1 ∈ _)) as [|Hno]; [done|].
    destruct (last_capture gc) eqn:Hcap; [done|]. exfalso. apply Hno.
    eapply capture_gives_liberty; [done..|]. by rewrite Hcap.
  - by destruct (play_pass g move ignore_ko Hco) as (Hr & _); rewrite Hr in Hsui.
Qed.

(** X5.  A stone placed on a free point next to a free point of the
    board is never refused as suicide: it is accepted, unless the ko rule
    refuses it, and with [ignore_ko] it is always accepted. *)
Theorem free_neighbour_accepted g move x y d ignore_ko :
  session g → coords move = Some (x, y) → on_board (board_size g) x y →
  cell (board g) x y = -1 → d ∈ DIRS →
  on_board (board_size g) (x + d.2) (y + d.1) →
  cell (board g) (x + d.2) (y + d.1) = -1 →
  let r := play move ignore_ko g in
  (r.2 = Returned ∨ r.2 = Raised (IllegalMoveException Ko)) ∧
  (ignore_ko = true ∨ last_capture g ≠ [move] → r.2 = Returned).
Proof.
  intros Hwf%session_sound%so_wf Hco Hon Hemp Hd Hond Hfree.
  destruct (play_stone g move x y Hwf Hco Hon Hemp)
    as (nb & K & gc & tc & _ & Hpl & Hplay).
  destruct (Hplay ignore_ko) as (_ & _ & _ & _ & Hr & _). simpl.
  rewrite Hr.
  rewrite (decide_True (P := -1 ∈ neighbours gc (chain_at (chains gc) tc)))
    by (by eapply placed_free_neighbour).
  split; [destruct (_ && _ && _); auto|].
  intros [-> | Hno]; [by rewrite andb_false_r|].
  assert (ko_or_snapback g move = false) as ->; [|done].
  unfold ko_or_snapback. destruct (last_capture g) as [|m [|? ?]]; try done.
  apply bool_decide_eq_false. congruence.
Qed.

(** X6.  The prisoners only grow, and only by what an accepted move takes:
    after an accepted move they are the prisoners before followed by
    [last_capture]; a refused move leaves them as they were. *)
Theorem prisoners_accounting g move ignore_ko :
  session g →
  let r := play move ignore_ko g in
  (r.2 = Returned → prisoners r.1 = prisoners g ++ last_capture r.1) ∧
  (r.2 ≠ Returned → prisoners r.1 = prisoners g).
Proof.
  intros Hwf%session_sound%so_wf. simpl.
  destruct (coords move) as [[x y]|] eqn:Hco.
  - destruct (decide (on_board (board_size g) x y)) as [Hon|Hout];
      [|by rewrite (play_outside g move x y)].
    destruct (decide (cell (board g) x y = -1)) as [Hemp|Hocc];
      [|by rewrite (play_occupied g move x y)].
    destruct (play_stone g move x y Hwf Hco Hon Hemp)
      as (nb & K & gc & tc & _ & Hpl & Hplay).
    destruct (Hplay ignore_ko) as (_ & _ & Hl & _ & Hr & Hp & _).
    rewrite Hl, Hp, Hr. destruct (_ && _ && _); [done|].
    destruct (decide (-1 ∈ _)) as [|Hno]; [done|].
    split; [done|]. intros _.
    destruct (last_capture gc) eqn:Hcap; [by rewrite app_nil_r|].
    exfalso. apply Hno.
    eapply capture_gives_liberty; [done..|]. by rewrite Hcap.
  - destruct (play_pass g move ignore_ko Hco) as (Hr & _ & _ & Hl & Hp & _).
    rewrite Hr, Hl, Hp, app_nil_r. done.
Qed.

(** X7.  The stones an accepted move takes off the board are all of the
    other colour, and they go to the prisoners of that colour:
    [prisoner_count] grows by their number in the entry of the colour that
    did not move, and keeps the entry of the mover. *)
Theorem captures_are_opponents g move ignore_ko g' :
  session g → play move ignore_ko g = (g', Returned) →
  (∀ m, m ∈ last_capture g' → player m ≠ player move) ∧
  ∀ b w, prisoner_count g = [b; w] →
    prisoner_count g' =
      match player move with
      | B => [b; w + Z.of_nat (length (last_capture g'))]
      | W => [b + Z.of_nat (length (last_capture g')); w]
      end.
Proof.
  intros Hso%session_sound Hplay. pose proof (so_wf g Hso) as Hwf.
  pose proof (so_one_colour g Hso) as Hone.
  assert (Hopp : ∀ m, m ∈ last_capture g' → player m ≠ player move).
  { intros m Hm.
    destruct (play_returned_cases g move ignore_ko g' Hwf Hplay)
      as [_ [(_ & _ & _ & _ & Hl)|(x & y & nb & K & gc & tc & _ & _ & _ & Hpl & _ & _ & _ & Hl & _)]].
    - rewrite Hl in Hm. by apply elem_of_nil in Hm.
    - rewrite Hl in Hm. by eapply captured_colour. }
  split; [done|]. intros b w Hbw.
  destruct (play_returned_cases g move ignore_ko g' Hwf Hplay) as [Hacc _].
  unfold prisoner_count, PLAYERS in *. simpl in *. rewrite Hacc.
  rewrite !filter_app, !length_app. injection Hbw as <- <-.
  rewrite !(count_colour (last_capture g') _ (player move)) by done.
  destruct (player move); simpl; f_equal; try f_equal; lia.
Qed.

(** X8.  After an accepted move, [last_capture] holds exactly the stones
    that the move took off the board: those that [stones] listed before the
    move and does not list after it.  A pass leaves it empty. *)
Theorem last_capture_exact g move ignore_ko g' :
  session g → play move ignore_ko g = (g', Returned) →
  (∀ m, m ∈ last_capture g' ↔ m ∈ stones g ∧ m ∉ stones g') ∧
  (coords move = None → last_capture g' = []).
Proof.
  intros Hwf%session_sound%so_wf Hplay.
  destruct (play_returned_cases g move ignore_ko g' Hwf Hplay)
    as [_ [(Hco & _ & Hc & _ & Hl)|
           (x & y & nb & K & gc & tc & Hco & _ & Hemp & Hpl & _ & Hc & _ &
            Hl & _)]].
  - split; [|done]. intros m. rewrite Hl. unfold stones. rewrite Hc.
    split; [by intros ?%elem_of_nil|tauto].
  - split; [|by rewrite Hco]. intros m. rewrite Hl.
    rewrite (placed_last_capture g move x y nb K gc tc) by done.
    unfold stones. by rewrite Hc.
Qed.

(** X9.  Chain ids are never given twice: the list of chains never gets
    shorter, and a chain that was emptied, by capture or by a merge, stays
    empty whatever is played, accepted or not. *)
Theorem emptied_chains_stay_empty g move ignore_ko :
  session g →
  let g' := (play move ignore_ko g).1 in
  (length (chains g) ≤ length (chains g'))%nat ∧
  ∀ c : nat, chains g !! c = Some [] → chains g' !! c = Some [].
Proof.
  intros Hwf%session_sound%so_wf. simpl.
  destruct (coords move) as [[x y]|] eqn:Hco.
  - destruct (decide (on_board (board_size g) x y)) as [Hon|Hout];
      [|by rewrite (play_outside g move x y)].
    destruct (decide (cell (board g) x y = -1)) as [Hemp|Hocc];
      [|by rewrite (play_occupied g move x y)].
    destruct (play_stone g move x y Hwf Hco Hon Hemp)
      as (nb & K & gc & tc & _ & Hpl & Hplay).
    destruct (Hplay ignore_ko) as (_ & Hc & _). rewrite Hc.
    pose proof (pl_length _ _ _ _ _ _ _ _ Hpl) as Hlen.
    split; [lia|]. intros c Hempty.
    assert (Hc0 : chain_at (chains g) (Z.of_nat c) = []).
    { unfold chain_at. by rewrite Nat2Z.id, Hempty. }
    assert (Hlt : (c < length (chains g))%nat) by (by eapply lookup_lt_Some).
    assert (Hnop : ∀ p, chain_player g (Z.of_nat c) ≠ Some p).
    { intros p (_ & m & rest & Hm & _)%chain_player_Some. congruence. }
    rewrite <- (Nat2Z.id c), chain_at_valid by (rewrite Nat2Z.id; lia).
    rewrite (pl_other _ _ _ _ _ _ _ _ Hpl); [by rewrite Hc0|lia|..].
    + intros (_ & _ & Hp)%(pl_nb _ _ _ _ _ _ _ _ Hpl). by eapply Hnop.
    + intros (_ & _ & p & Hp & _)%(pl_K _ _ _ _ _ _ _ _ Hpl). by eapply Hnop.
    + rewrite (pl_this_chain _ _ _ _ _ _ _ _ Hpl).
      destruct nb as [|t others]; [lia|]. intros Heq.
      destruct (proj1 (pl_nb _ _ _ _ _ _ _ _ Hpl t)) as (_ & _ & Hp);
        [set_solver|]. rewrite <- Heq in Hp. by eapply Hnop.
  - by destruct (play_pass g move ignore_ko Hco) as (_ & _ & -> & _).
Qed.

End outcomes.

(** ** The chains are the groups of the board *)

Section chain_groups.
Context `{SetOrder, !SetOrderLaws}.

(** X10.  In a session, the stones of a chain are all of one colour. *)
Theorem chains_one_colour g c ch m1 m2 :
  session g → chains g !! c = Some ch → m1 ∈ ch → m2 ∈ ch →
  player m1 = player m2.
Proof.
  intros Hone%session_sound%so_one_colour Hch H1 H2.
  assert (Hat : chain_at (chains g) (Z.of_nat c) = ch).
  { unfold chain_at. by rewrite Nat2Z.id, Hch. }
  rewrite <- Hat in H1, H2.
  pose proof (Hone (Z.of_nat c) m1 ltac:(lia) H1).
  pose proof (Hone (Z.of_nat c) m2 ltac:(lia) H2). congruence.
Qed.

(** X11.  In a session that began as a new game and in which no call of
    [play] has been refused, every chain that has stones has at least one
    liberty.  (A move refused as suicide leaves its stone on the board:
    such calls are not part of [session].) *)
Theorem chains_have_liberties g c ch :
  session g → chains g !! c = Some ch → ch ≠ [] → liberties g ch ≠ [].
Proof.
  intros Halive%session_sound%so_alive Hch Hne. apply has_liberty.
  assert (Hat : chain_at (chains g) (Z.of_nat c) = ch).
  { unfold chain_at. by rewrite Nat2Z.id, Hch. }
  rewrite <- Hat. apply Halive; [lia|by rewrite Hat].
Qed.




End chain_groups.

(** ** The rebuild of the chains, [undo], [redo] and [switch_branch] *)

Section navigating.
Context `{SetOrder}.

(** X15.  In a session that began as a new game and in which no call of
    [play] has been refused, rebuilding the chains from the moves of the
    tree returns normally and gives the session as it is: board, chains,
    prisoners and [last_capture] are what replaying the moves from the
    empty board gives. *)
Theorem rebuild_reproduces_session g :
  session g → _init_chains g = (g, Returned).
Proof.
  intros Hcs%session_coherent.
  destruct (goto_node g (current_node g) Hcs (cs_node g Hcs)) as [Hinit _].
  rewrite <- (cs_position g Hcs) in Hinit.
  by rewrite <- Hinit, <- (set_tree_eta g) at 1.
Qed.

Lemma validate_replayed move g :
  let o := (_validate_move_and_update_chains move true g).2 in
  o = Returned ∨ o = Raised IndexError ∨
  o = Raised (IllegalMoveException SpaceOccupied) ∨
  o = Raised (IllegalMoveException Suicide).
Proof.
  unfold _validate_move_and_update_chains.
  destruct (coords move) as [[x y]|]; [|by left]. simpl.
  destruct (board_get (board g) x y) as [sq|]; [|by right; left].
  destruct (decide (sq ≠ -1)); [by right; right; left|].
  destruct (nb_chains _ move) as [nb|]; [|by right; left].
  destruct (connect _ move x y nb) as [g1 tc].
  destruct (opp_nb_chains g1 move) as [opp|]; [|by right; left].
  rewrite andb_false_r. destruct (decide _); simpl; auto.
Qed.

Lemma replay_outcome ms : ∀ g,
  let o := (replay ms g).2 in
  o = Returned ∨ o = Raised IndexError ∨
  o = Raised (UnexpectedIllegalMove SpaceOccupied) ∨
  o = Raised (UnexpectedIllegalMove Suicide).
Proof.
  induction ms as [|m ms IH]; intros g; simpl; [by left|].
  pose proof (validate_replayed m g) as Hv. simpl in Hv.
  destruct (_validate_move_and_update_chains m true g) as [g' o].
  simpl in Hv. destruct Hv as [-> | [-> | [-> | ->]]]; simpl; auto.
Qed.

(** X16.  Whatever the tree holds, the rebuild of the chains returns, or
    raises [IndexError], or reports an unexpected illegal move that is an
    occupied point or a suicide: it lets no [IllegalMoveException] out,
    and it never refuses a move as ko or as outside the board. *)
Theorem rebuild_outcome g :
  let o := (_init_chains g).2 in
  o = Returned ∨ o = Raised IndexError ∨
  o = Raised (UnexpectedIllegalMove SpaceOccupied) ∨
  o = Raised (UnexpectedIllegalMove Suicide).
Proof. apply replay_outcome. Qed.


(** X18.  In a session that began as a new game and in which no call of
    [play] has been refused, [undo()] after one more accepted move gives
    back the position before that move: board, chains, prisoners and
    [last_capture] are those of before, the current node is the one of
    before, and the tree keeps the node of the move. *)
Theorem play_then_undo g move ignore_ko g' :
  session g → play move ignore_ko g = (g', Returned) →
  undo g' = (set_tree (root g') (current_node g) g, Returned).
Proof.
  intros Hcs%session_coherent Hplay.
  pose proof (play_coherent g move ignore_ko g' Hcs Hplay) as Hcs'.
  destruct (cs_node g Hcs) as [nd Hnd].
  pose proof (play_returned g move ignore_ko g' Hplay) as (_ & g3 & Hval & Hg').
  pose proof (validate_session move ignore_ko g) as (Hsz3 & _).
  rewrite Hval in Hsz3. simpl in Hsz3.
  assert (Hroot : root g' = add_child (root g) (current_node g)
                              (Node (Some move) [] []))
    by (by rewrite Hg').
  assert (Hcur : current_node g' = current_node g ++ [length (children nd)]).
  { rewrite Hg'. simpl. by rewrite Hnd. }
  assert (Hsz : board_size g' = board_size g) by (by rewrite Hg').
  assert (Hvalid : is_Some (node_at (root g') (current_node g))).
  { rewrite Hroot, (node_at_add_child _ _ _ _ Hnd). by eexists. }
  rewrite undo_not_root by (rewrite Hcur; by destruct (current_node g)).
  rewrite Hcur, parent_path_snoc.
  destruct (goto_node g' (current_node g) Hcs' Hvalid) as [-> _].
  f_equal.
  assert (Hpg : path_game g' (current_node g) = path_game g (current_node g)).
  { unfold path_game. rewrite Hsz, Hroot, path_moves_add_child; [done|].
    by rewrite Hnd. }
  rewrite Hpg. pose proof (cs_position g Hcs) as Hpos.
  destruct (path_game g (current_node g)) as [gr o]. simpl in *.
  rewrite Hpos. done.
Qed.

(** X19.  In a session that began as a new game and in which no call of
    [play] has been refused, [undo], [redo] and [switch_branch] return
    normally: the rebuild of the chains meets no illegal move.  (After a
    refused call [redo] can raise, as C7 shows.) *)
Theorem navigation_returns g direction :
  session g →
  (undo g).2 = Returned ∧ (redo g).2 = Returned ∧
  (switch_branch direction g).2 = Returned.
Proof.
  intros Hcs%session_coherent. split_and!.
  - by apply (goto_session g _ Hcs), undo_goto.
  - by apply (goto_session g _ Hcs), redo_goto.
  - by apply (goto_session g _ Hcs), switch_branch_goto.
Qed.

(** X20.  In a session that began as a new game and in which no call of
    [play] has been refused, whatever was undone, redone or switched, the
    position is the one of the game in which the moves on the way from the
    root to the current node are played on an empty board, ko ignored:
    that game accepts all of them, and its board, chains, prisoners and
    last capture are those of the session. *)
Theorem session_position g :
  session g →
  ∃ gr, play_all (map (λ m, (m, true))
                      (path_moves (root g) (current_node g)))
                 (new_game (board_size g)) = (gr, Returned) ∧
        reachable gr ∧ board_size gr = board_size g ∧
        board g = board gr ∧ chains g = chains gr ∧
        prisoners g = prisoners gr ∧ last_capture g = last_capture gr.
Proof.
  intros (gr & Hpg & ?)%session_game. exists gr. split; [exact Hpg|done].
Qed.

Lemma redo_children g nd c cs :
  node_at (root g) (current_node g) = Some nd → children nd = c :: cs →
  redo g = _init_chains (set_current_node (current_node g ++ [length cs]) g).
Proof. intros Hnd Hch. unfold redo. rewrite Hnd. simpl. by rewrite Hch. Qed.

(** X21.  In a session that began as a new game and in which no call of
    [play] has been refused, [redo()] after [undo()] goes to the child made
    last of the node that [undo()] went to: it gives the session back as
    it was when the current node is that child, and the position of that
    child when another variation was played since. *)
Theorem redo_after_undo g pp ix parent :
  session g → current_node g = pp ++ [ix] →
  node_at (root g) pp = Some parent →
  let r := redo (undo g).1 in
  r.2 = Returned ∧ root r.1 = root g ∧
  current_node r.1 = pp ++ [(length (children parent) - 1)%nat] ∧
  (S ix = length (children parent) → r.1 = g).
Proof.
  intros Hcs%session_coherent Hcur Hparent.
  assert (Hpp : is_Some (node_at (root g) pp)) by (by rewrite Hparent).
  assert (Hix : is_Some (children parent !! ix)).
  { pose proof (cs_node g Hcs) as Hnode.
    rewrite Hcur, node_at_app, Hparent in Hnode. simpl in Hnode.
    destruct (children parent !! ix); [done|by destruct Hnode]. }
  apply lookup_lt_is_Some in Hix.
  rewrite undo_not_root by (rewrite Hcur; by destruct pp).
  rewrite Hcur, parent_path_snoc.
  destruct (goto_node g pp Hcs Hpp) as [-> Hcs1]. simpl.
  set (g1 := set_tree (root g) pp (path_game g pp).1) in *.
  destruct (children parent) as [|c cs] eqn:Hch; [simpl in Hix; lia|].
  rewrite (redo_children g1 parent c cs) by done.
  assert (Hlast : is_Some (node_at (root g1) (current_node g1 ++ [length cs]))).
  { simpl. rewrite node_at_app, Hparent. simpl. rewrite Hch.
    destruct (lookup_lt_is_Some_2 (c :: cs) (length cs)) as [c' ->];
      [simpl; lia|]. done. }
  destruct (goto_node g1 _ Hcs1 Hlast) as [-> _]. simpl.
  rewrite Nat.sub_0_r. split_and!; [done..|].
  intros [= Hlen]. rewrite <- Hlen, <- Hcur.
  rewrite (path_game_ext g g1) by (done || apply path_game_size).
  symmetry. apply (cs_position g Hcs).
Qed.

(** X22.  With a parent of [k > 1] children, [switch_branch(d)] goes from
    child [i] to child [(i + d) mod k] for every integer [d], and
    [switch_branch(-d)] then leads back to the node it came from. *)
Theorem switch_branch_back g pp ix parent cm direction :
  current_node g = pp ++ [ix] → node_at (root g) pp = Some parent →
  children parent !! ix = Some cm →
  (1 < length (children parent))%nat →
  let k := Z.of_nat (length (children parent)) in
  let g1 := (switch_branch direction g).1 in
  current_node g1 = pp ++ [Z.to_nat ((Z.of_nat ix + direction) `mod` k)] ∧
  current_node (switch_branch (- direction) g1).1 = current_node g.
Proof.
  intros Hcur Hnode Hix%lookup_lt_Some Hk. simpl.
  destruct (switch_branch_step direction g pp ix parent Hcur Hnode Hk)
    as [Hr1 Hc1].
  split; [done|].
  destruct (switch_branch_step (- direction) (switch_branch direction g).1 pp
              (Z.to_nat ((Z.of_nat ix + direction)
                         `mod` Z.of_nat (length (children parent)))) parent)
    as [_ Hc2]; [done|by rewrite Hr1|done|].
  rewrite Hc2, Hcur. do 2 f_equal.
  set (k := Z.of_nat (length (children parent))).
  assert (0 < k) by (unfold k; lia).
  rewrite Z2Nat.id by (apply Z.mod_pos_bound; lia).
  rewrite Z.add_opp_r, Zminus_mod_idemp_l.
  replace (Z.of_nat ix + direction - direction) with (Z.of_nat ix) by lia.
  rewrite Z.mod_small by (unfold k; lia). apply Nat2Z.id.
Qed.

(** ** The end of the game *)

Lemma line_of_new_game size : line_of [] (new_game size).
Proof. done. Qed.

Lemma play_line ms g move ignore_ko g' :
  line_of ms g → play move ignore_ko g = (g', Returned) →
  line_of (ms ++ [move]) g'.
Proof.
  intros (Hroot & Hcur & Hrep) Hplay. unfold play in Hplay.
  destruct (outside_board g move); [done|].
  pose proof (validate_session move ignore_ko g) as (Hs1 & Hs2 & Hs3).
  destruct (_validate_move_and_update_chains move ignore_ko g)
    as [g3 [|e]] eqn:Hval; [|done].
  apply validate_ignore_ko in Hval. simpl in *.
  unfold node_play in Hplay. rewrite Hs2, Hs3, Hroot, Hcur in Hplay.
  destruct (node_at_line ms None (length ms)) as [m' Hnode]; [done|].
  rewrite Hnode, drop_all, add_child_line in Hplay. simpl in Hplay.
  injection Hplay as <-. unfold line_of. simpl. split_and!.
  - done.
  - by rewrite length_app, Nat.add_1_r, replicate_S_end.
  - change (cleared (set_tree ?r ?c g3)) with
      (set_tree r c (mkGame (board_size g3) (root g) (current_node g)
                            (empty_board (board_size g3)) [] [] [])).
    rewrite Hs1. change (mkGame _ _ _ _ _ _ _) with (cleared g).
    rewrite replay_set_tree, replay_app, Hrep. simpl. by rewrite Hval.
Qed.

Lemma play_all_line ms : ∀ l g g',
  line_of l g → play_all ms g = (g', Returned) →
  line_of (l ++ map fst ms) g'.
Proof.
  induction ms as [|[m ik] ms IH]; intros l g g' Hl Hg; simpl in *.
  - rewrite app_nil_r. by simplify_eq.
  - destruct (play m ik g) as [g1 [|e]] eqn:Hplay; [|done].
    rewrite cons_middle, app_assoc. eapply IH; [|done].
    by eapply play_line.
Qed.

Lemma node_at_line_move L : ∀ m k,
  (k ≤ length L)%nat →
  node_at (line m L) (replicate k 0%nat) =
    Some (line (match k with O => m | S j => L !! j end) (drop k L)).
Proof.
  induction L as [|x L IH]; intros m k Hk.
  - assert (k = 0%nat) as -> by (simpl in Hk; lia). done.
  - destruct k as [|k]; [done|]. simpl in *. rewrite IH by lia.
    by destruct k.
Qed.

Lemma node_is_pass_line mo L :
  node_is_pass (line mo L) =
    match mo with Some m => is_pass m | None => false end.
Proof. by destruct L. Qed.

Lemma list_last_two {A} (L : list A) :
  L = [] ∨ (∃ b, L = [b]) ∨ ∃ l a b, L = l ++ [a; b].
Proof.
  destruct L as [|b L _] using rev_ind; [by left|].
  destruct L as [|a L _] using rev_ind; [right; left; by exists b|].
  right. right. exists L, a, b. by rewrite <- app_assoc.
Qed.

Lemma game_ended_not_root g :
  current_node g ≠ [] →
  game_ended g =
    match node_at (root g) (current_node g),
          node_at (root g) (parent_path (current_node g)) with
    | Some n, Some p => node_is_pass n && node_is_pass p
    | _, _ => false
    end.
Proof. unfold game_ended. by destruct (current_node g). Qed.

(** X23.  In a game made of played moves, [game_ended] holds exactly when
    the last two moves played were both passes. *)
Theorem game_ended_two_passes size ms g :
  play_all ms (new_game size) = (g, Returned) →
  game_ended g = true ↔
  ∃ l a b, map fst ms = l ++ [a; b] ∧ coords a = None ∧ coords b = None.
Proof.
  intros Hg.
  pose proof (play_all_line ms [] _ _ (line_of_new_game size) Hg)
    as (Hroot & Hcur & _). simpl in Hroot, Hcur.
  assert (Hpass : ∀ m : Move, is_pass m = true ↔ coords m = None).
  { intros m. unfold is_pass. by destruct (coords m). }
  destruct (list_last_two (map fst ms)) as [HL|[[b HL]|(l & a & b & HL)]];
    rewrite HL in *; clear HL.
  - unfold game_ended. rewrite Hcur. simpl. split; [done|].
    intros (l & a & b & Hl & _). by destruct l.
  - unfold game_ended. rewrite Hroot, Hcur. simpl.
    split; [by rewrite andb_false_r|]. intros (l & a' & b' & Hl & _).
    by destruct l as [|? [|? ?]].
  - rewrite length_app in Hcur. simpl in Hcur.
    replace (length l + 2)%nat with (S (S (length l))) in Hcur by lia.
    rewrite game_ended_not_root by (by rewrite Hcur).
    rewrite Hroot, Hcur.
    rewrite (replicate_S_end (S (length l))), parent_path_snoc.
    rewrite <- replicate_S_end.
    rewrite !node_at_line_move by (rewrite length_app; simpl; lia).
    rewrite !node_is_pass_line.
    rewrite lookup_app_r by lia.
    replace (S (length l) - length l)%nat with 1%nat by lia.
    rewrite lookup_app_r by lia. rewrite Nat.sub_diag. simpl.
    rewrite andb_true_iff, !Hpass. split.
    + intros [Hb Ha]. by exists l, a, b.
    + intros (l' & a' & b' & Heq & Ha & Hb).
      apply app_inj_2 in Heq as [_ [= -> ->]]; done.
Qed.

End navigating.

(** ** More on handicap stones *)

Lemma handicap_stones_distinct size n :
  7 ≤ size →
  NoDup (handicap_stones size n) ∧
  Forall (λ p, on_board size p.1 p.2) (handicap_stones size n).
Proof.
  intros Hsize. unfold handicap_stones, py_slice_to.
  set (near := if decide (13 ≤ size) then 3 else 2).
  set (far := size - 1 - near). set (middle := size `div` 2).
  assert (Hmid : 2 * middle ≤ size < 2 * middle + 2).
  { unfold middle. pose proof (Z.div_mod size 2 ltac:(lia)).
    pose proof (Z.mod_pos_bound size 2 ltac:(lia)). lia. }
  assert (Horder : 0 ≤ near < middle ∧ middle < far ∧ far < size).
  { unfold far, near. destruct (decide (13 ≤ size)); lia. }
  assert (Hall : NoDup [(far, far); (near, near); (far, near); (near, far);
                        (middle, middle); (near, middle); (far, middle);
                        (middle, near); (middle, far)] ∧
                 Forall (λ p, on_board size p.1 p.2)
                   [(far, far); (near, near); (far, near); (near, far);
                    (middle, middle); (near, middle); (far, middle);
                    (middle, near); (middle, far)]).
  { split.
    - repeat (apply NoDup_cons; split;
                [rewrite ?elem_of_cons, elem_of_nil;
                 intros Hin; repeat destruct Hin as [Hin|Hin];
                 try done; injection Hin; lia|]).
      apply NoDup_nil_2.
    - repeat (apply Forall_cons; split; [unfold on_board; simpl; lia|]).
      apply Forall_nil_2. }
  destruct Hall as [Hnd Hon].
  assert (Heven : NoDup [(far, far); (near, near); (far, near); (near, far);
                         (near, middle); (far, middle);
                         (middle, near); (middle, far)] ∧
                  Forall (λ p, on_board size p.1 p.2)
                    [(far, far); (near, near); (far, near); (near, far);
                     (near, middle); (far, middle);
                     (middle, near); (middle, far)]).
  { split.
    - eapply sublist_NoDup; [exact Hnd|].
      do 4 apply sublist_skip. apply sublist_cons. done.
    - repeat (apply Forall_cons; split; [unfold on_board; simpl; lia|]).
      apply Forall_nil_2. }
  destruct Heven as [Hnd' Hon'].
  destruct (decide (n `mod` 2 = 1)); simpl;
    destruct (decide (0 ≤ n));
    (split; [eapply sublist_NoDup; [|apply sublist_take]; done
            |by apply Forall_take]).
Qed.

(** X24.  On a board of seven lines or more the handicap points are all
    different and all on the board, whatever the count asked for. *)
Theorem handicap_points_distinct size n :
  7 ≤ size →
  NoDup (handicap_stones size n) ∧
  Forall (λ p, on_board size p.1 p.2) (handicap_stones size n).
Proof. apply handicap_stones_distinct. Qed.

(** X25.  The count of handicap stones is not checked: a count of 0 places
    nothing, a count above the candidates places them all (9 for an odd
    count, 8 for an even one), and a negative count drops that many from
    the end of the candidates. *)
Theorem handicap_count size n :
  Z.of_nat (length (handicap_stones size n)) =
    let candidates := 8 + n `mod` 2 in
    if decide (0 ≤ n) then Z.min n candidates
    else Z.max 0 (candidates + n).
Proof.
  unfold handicap_stones, py_slice_to.
  pose proof (Z.mod_pos_bound n 2 ltac:(lia)) as Hmod.
  destruct (decide (n `mod` 2 = 1)) as [Hodd|Heven]; simpl;
    destruct (decide (0 ≤ n)); rewrite length_take; simpl; lia.
Qed.

(** ** A game loaded with a handicap *)

Section loaded_game.
Context `{SetOrder, !SetOrderLaws}.

Lemma black_only_start size r c :
  black_only size [] (mkGame size r c (empty_board size) [] [] []).
Proof.
  split_and!; simpl; try done.
  - split; simpl.
    + apply grid_empty_board.
    + intros x y Hon. left. by apply cell_empty_board.
    + intros c' m _ Hm. unfold chain_at in Hm. by apply elem_of_nil in Hm.
    + by intros m ?%elem_of_nil.
  - intros c' m _ Hm. unfold chain_at in Hm. by apply elem_of_nil in Hm.
  - intros x y Hon. rewrite cell_empty_board by done.
    split; [done|by intros ?%elem_of_nil].
Qed.

(** One more Black stone, on a free point next to a free point. *)
Lemma black_stone_step size done g x y d :
  black_only size done g → on_board size x y → (x, y) ∉ done →
  d ∈ DIRS → on_board size (x + d.2) (y + d.1) →
  (x + d.2, y + d.1) ∉ done →
  ∃ g', play (stone x y B) true g = (g', Returned) ∧
        black_only size ((x, y) :: done) g'.
Proof.
  intros (Hwf & Hsz & Hlast & Hpris & Hblack & Hocc) Hon Hnew Hd Hond Hfree.
  subst size.
  assert (Hemp : cell (board g) x y = -1).
  { destruct (decide (cell (board g) x y = -1)) as [|Hne]; [done|].
    by apply Hocc in Hne. }
  assert (Hempd : cell (board g) (x + d.2) (y + d.1) = -1).
  { destruct (decide (cell (board g) (x + d.2) (y + d.1) = -1)) as [|Hne];
      [done|]. by apply Hocc in Hne. }
  destruct (play_stone g (stone x y B) x y Hwf eq_refl Hon Hemp)
    as (nb & K & gc & tc & _ & Hpl & Hplay).
  destruct (Hplay true) as (Hb & Hc & Hl & Hs & Hr & Hp & _).
  pose proof (play_wf g (stone x y B) true Hwf) as Hwf'.
  rewrite andb_false_r in Hr, Hp.
  rewrite (decide_True (P := -1 ∈ neighbours gc (chain_at (chains gc) tc)))
    in Hr by (by eapply (placed_free_neighbour g (stone x y B))).
  destruct (play (stone x y B) true g) as [g' o]. simpl in *. subst o.
  exists g'. split; [done|].
  assert (HK : K = []).
  { destruct K as [|c K]; [done|]. exfalso.
    destruct (pl_K _ _ _ _ _ _ _ _ Hpl c) as (Hpos & _ & p & Hcp & Hne);
      [set_solver|].
    rewrite chain_player_alt in Hcp.
    destruct (chain_at (chains g) c) as [|m rest] eqn:Hch; [done|].
    simpl in Hcp. injection Hcp as <-. apply Hne.
    apply (Hblack c m Hpos). rewrite Hch. set_solver. }
  assert (Hnocap : last_capture gc = []).
  { by rewrite (pl_last_capture _ _ _ _ _ _ _ _ Hpl), HK. }
  assert (Hnbpos : ∀ c, c ∈ nb → 0 ≤ c).
  { intros c Hc'. by apply (pl_nb _ _ _ _ _ _ _ _ Hpl) in Hc' as (? & _). }
  assert (Htcpos : 0 ≤ tc).
  { rewrite (pl_this_chain _ _ _ _ _ _ _ _ Hpl).
    destruct nb as [|t others]; [lia|]. apply Hnbpos. set_solver. }
  split_and!.
  - done.
  - done.
  - by rewrite Hl.
  - by rewrite Hp, Hnocap, Hpris.
  - intros c m Hpos Hm. rewrite Hc in Hm.
    destruct (decide (c = tc)) as [->|Hne].
    + rewrite (pl_chain _ _ _ _ _ _ _ _ Hpl) in Hm.
      apply elem_of_app in Hm as [Hm|Hm];
        [|by apply list_elem_of_singleton in Hm as ->].
      apply elem_of_concat_chains in Hm as (c' & Hc' & Hm).
      apply (Hblack c' m); [by apply Hnbpos|done].
    + destruct (decide (c ∈ nb)) as [Hnb|Hnb].
      { rewrite (pl_absorbed _ _ _ _ _ _ _ _ Hpl) in Hm;
          [by apply elem_of_nil in Hm|].
        destruct nb as [|t others]; [by apply elem_of_nil in Hnb|].
        rewrite (pl_this_chain _ _ _ _ _ _ _ _ Hpl) in Hne. simpl.
        set_solver. }
      rewrite (pl_other _ _ _ _ _ _ _ _ Hpl) in Hm;
        [by apply (Hblack c m)|done|done|by rewrite HK; set_solver|done].
  - intros x' y' Hon'. rewrite Hb.
    destruct (decide (x' = x ∧ y' = y)) as [[-> ->]|Hne].
    + rewrite (pl_cell _ _ _ _ _ _ _ _ Hpl). split; [set_solver|lia].
    + rewrite (pl_cells _ _ _ _ _ _ _ _ Hpl) by done.
      rewrite elem_of_cons, <- Hocc by done. rewrite HK.
      destruct (decide (cell (board g) x' y' ∈ nb)) as [Hin|Hnin].
      * apply Hnbpos in Hin. split; [intros _; right; lia|lia].
      * rewrite decide_False by set_solver.
        split; [by right|]. intros [[= -> ->]|?]; [by destruct Hne|done].
Qed.

(** Black stones on points with room around them are all accepted. *)
Lemma black_stones_all size pts :
  roomy size pts →
  ∀ l done g,
    NoDup l → l ⊆ pts → done ⊆ pts → (∀ p, p ∈ l → p ∉ done) →
    black_only size done g →
    ∃ g' done',
      play_all (map (λ p, (stone p.1 p.2 B, true)) l) g = (g', Returned) ∧
      black_only size done' g' ∧ ∀ p, p ∈ done' ↔ p ∈ done ∨ p ∈ l.
Proof.
  intros Hroomy. induction l as [|[x y] l IH];
    intros done g Hnd Hl Hdone Hfresh Hinv; simpl.
  - exists g, done. split_and!; [done..|]. set_solver.
  - apply NoDup_cons in Hnd as [Hxy Hnd].
    destruct (Hroomy (x, y)) as (Hon & d & Hd & Hond & Hout); [set_solver|].
    simpl in *.
    destruct (black_stone_step size done g x y d) as (g1 & -> & Hinv1);
      [done|done|apply Hfresh; set_solver|done|done|set_solver|].
    destruct (IH ((x, y) :: done) g1) as (g' & done' & Hall & Hinv' & Hel);
      [done|set_solver|set_solver| |done|].
    { intros p Hp [->|?]%elem_of_cons; [done|]. by apply (Hfresh p); set_solver. }
    exists g', done'. split_and!; [done..|]. intros p. rewrite Hel.
    set_solver.
Qed.

Lemma handicap_first_coordinate size n p :
  p ∈ handicap_stones size n →
  p.1 = (if decide (13 ≤ size) then 3 else 2) ∨ p.1 = size `div` 2 ∨
  p.1 = size - 1 - (if decide (13 ≤ size) then 3 else 2).
Proof.
  unfold handicap_stones, py_slice_to.
  set (near := if decide (13 ≤ size) then 3 else 2).
  intros Hp.
  assert (Hin : p ∈ [(size - 1 - near, size - 1 - near); (near, near);
                     (size - 1 - near, near); (near, size - 1 - near);
                     (size `div` 2, size `div` 2); (near, size `div` 2);
                     (size - 1 - near, size `div` 2);
                     (size `div` 2, near);
                     (size `div` 2, size - 1 - near)]).
  { destruct (decide (n `mod` 2 = 1)); simpl in Hp;
      destruct (decide (0 ≤ n)); apply subseteq_take in Hp;
      set_solver. }
  rewrite !elem_of_cons, elem_of_nil in Hin.
  repeat destruct Hin as [->|Hin]; simpl; tauto.
Qed.

Lemma handicap_roomy size n : 9 ≤ size → roomy size (handicap_stones size n).
Proof.
  intros Hsize [a b] Hp. simpl.
  destruct (handicap_stones_distinct size n) as [_ Hon]; [lia|].
  rewrite Forall_forall in Hon. pose proof (Hon _ Hp) as Hab. simpl in Hab.
  split; [done|].
  pose proof (handicap_first_coordinate size n _ Hp) as Ha. simpl in Ha.
  set (near := if decide (13 ≤ size) then 3 else 2) in *.
  assert (Hmid : 2 * (size `div` 2) ≤ size < 2 * (size `div` 2) + 2).
  { pose proof (Z.div_mod size 2 ltac:(lia)).
    pose proof (Z.mod_pos_bound size 2 ltac:(lia)). lia. }
  assert (Hnear : near = 2 ∧ size < 13 ∨ near = 3 ∧ 13 ≤ size).
  { unfold near. destruct (decide (13 ≤ size)); lia. }
  assert (Hout : ∀ a', a' ≠ near → a' ≠ size `div` 2 →
            a' ≠ size - 1 - near → (a', b) ∉ handicap_stones size n).
  { intros a' H1 H2 H3 Hin.
    pose proof (handicap_first_coordinate size n _ Hin) as Hc. simpl in Hc.
    fold near in Hc. lia. }
  unfold on_board in *.
  destruct Ha as [->|[->| ->]].
  - exists (0, -1). simpl. split_and!; [set_solver|lia..|rewrite Z.add_0_r; apply Hout; lia].
  - exists (0, 1). simpl. split_and!; [set_solver|lia..|rewrite Z.add_0_r; apply Hout; lia].
  - exists (0, 1). simpl. split_and!; [set_solver|lia..|rewrite Z.add_0_r; apply Hout; lia].
Qed.

(** X26.  A game loaded from a tree whose root asks for a handicap and
    has no placements yet, on a board of nine lines or more: the
    constructor returns, the handicap stones become the placements of the
    root, and the board shows them and nothing else: the occupied points
    are the handicap points, every stone is Black, nothing is captured. *)
Theorem handicap_game size n chs :
  9 ≤ size →
  let r := Game_init size (Some (Node None [] chs)) (Some n) in
  r.2 = Returned ∧
  placements (root r.1) =
    map (λ xy, stone xy.1 xy.2 B) (handicap_stones size n) ∧
  (∀ x y, on_board size x y →
     cell (board r.1) x y ≠ -1 ↔ (x, y) ∈ handicap_stones size n) ∧
  (∀ m, m ∈ stones r.1 → player m = B) ∧
  prisoners r.1 = [] ∧ last_capture r.1 = [].
Proof.
  intros Hsize. cbv zeta.
  set (pts := handicap_stones size n).
  set (ab := map (λ xy, stone xy.1 xy.2 B) pts).
  set (rt := Node None ab chs).
  destruct (black_stones_all size pts (handicap_roomy size n Hsize) pts []
              (mkGame size rt [] (empty_board size) [] [] []))
    as (gr & done & Hall & Hinv & Hel).
  { destruct (handicap_stones_distinct size n) as [Hnd _]; [lia|done]. }
  { done. }
  { set_solver. }
  { intros p _ ?%elem_of_nil. done. }
  { apply black_only_start. }
  assert (Hinit : _init_chains
            (place_handicap_stones n (mkGame size (Node None [] chs) [] [] [] [] []))
            = (set_tree rt [] gr, Returned)).
  { rewrite init_chains_replay.
    change (path_moves _ _) with (path_moves rt []).
    rewrite path_moves_nil. unfold move_with_placements. simpl.
    rewrite app_nil_r.
    rewrite (replay_play_all ab _ gr); [done|].
    unfold ab. by rewrite map_map. }
  assert (Hgame : Game_init size (Some (Node None [] chs)) (Some n) =
                    (set_tree rt [] gr, Returned)).
  { unfold Game_init. cbn [placements]. rewrite decide_True by done.
    exact Hinit. }
  rewrite Hgame. simpl.
  destruct Hinv as (Hwf & Hsz & Hlast & Hpris & Hblack & Hocc).
  split_and!; try done.
  - intros x y Hon. rewrite (Hocc x y Hon), Hel. set_solver.
  - intros m (c & Hm)%elem_of_stones. by apply (Hblack _ m (Nat2Z.is_nonneg c)).
Qed.

End loaded_game.

(** ** The further properties at work on the examples *)

Lemma capture_position_session : session capture_position.
Proof. apply reachable_session, capture_position_reachable. Qed.

Lemma ko_position_session : session ko_position.
Proof. apply reachable_session, ko_position_reachable. Qed.

Lemma atari_position_session : session atari_position.
Proof.
  apply reachable_session.
  exists 5, (map (λ m, (m, false))
               [stone 2 2 W; stone 1 2 B; stone 3 2 B; stone 2 1 B]).
  vm_compute. reflexivity.
Qed.

Lemma merged_position_session : session merged_position.
Proof.
  apply (session_play merge_position (stone 2 1 B) false).
  - apply reachable_session, merge_position_reachable.
  - vm_compute. reflexivity.
Qed.

Lemma branch_position_session : session branch_position.
Proof.
  apply (session_play (undo (play (stone 1 1 B) false (new_game 5)).1).1
           (stone 3 3 B) false).
  - apply session_undo.
    apply (session_play (new_game 5) (stone 1 1 B) false).
    + apply session_new.
    + vm_compute. reflexivity.
  - vm_compute. reflexivity.
Qed.

Lemma play_outcome_witness :
  (play (stone 2 2 W) false capture_position).2 =
    Raised (IllegalMoveException Suicide).
Proof.
  rewrite (play_outcome capture_position (stone 2 2 W) false).
  - vm_compute. reflexivity.
  - apply capture_position_session.
Defined.

Lemma occupied_rejected_witness :
  play (stone 1 2 W) false capture_position =
    (set_last_capture [] capture_position,
     Raised (IllegalMoveException SpaceOccupied)).
Proof.
  apply (occupied_rejected capture_position (stone 1 2 W) 1 2 false).
  - apply capture_position_session.
  - reflexivity.
  - vm_compute. repeat split; discriminate.
  - vm_compute. discriminate.
Defined.

Lemma ko_exactly_witness :
  (play (stone 1 1 W) false ko_position).2 =
    Raised (IllegalMoveException Ko).
Proof.
  destruct (ko_exactly ko_position (stone 1 1 W) 1 1 false) as [[_ Hko] _].
  - apply ko_position_session.
  - reflexivity.
  - vm_compute. repeat split; discriminate.
  - vm_compute. reflexivity.
  - apply Hko. vm_compute. repeat split.
Defined.

Lemma capture_never_suicide_witness :
  last_capture (play (stone 2 2 W) false capture_position).1 = [].
Proof.
  apply (capture_never_suicide capture_position (stone 2 2 W) false).
  - apply capture_position_session.
  - vm_compute. reflexivity.
Defined.

Lemma free_neighbour_accepted_witness :
  (play (stone 0 0 B) false capture_position).2 = Returned.
Proof.
  destruct (free_neighbour_accepted capture_position (stone 0 0 B) 0 0 (1, 0)
              false) as [_ Hret].
  - apply capture_position_session.
  - reflexivity.
  - vm_compute. repeat split; discriminate.
  - vm_compute. reflexivity.
  - apply list_elem_of_further, list_elem_of_here.
  - vm_compute. repeat split; discriminate.
  - vm_compute. reflexivity.
  - apply Hret. right. vm_compute. discriminate.
Defined.

Lemma prisoners_accounting_witness :
  let r := play (stone 2 3 B) false atari_position in
  prisoners r.1 = prisoners atari_position ++ last_capture r.1 ∧
  last_capture r.1 = [stone 2 2 W].
Proof.
  destruct (prisoners_accounting atari_position (stone 2 3 B) false)
    as [Hacc _].
  - apply atari_position_session.
  - split; [apply Hacc|]; vm_compute; reflexivity.
Defined.

Lemma captures_are_opponents_witness :
  prisoner_count capture_position = [0; 1].
Proof.
  destruct (captures_are_opponents atari_position (stone 2 3 B) false
              capture_position) as [_ Hcount].
  - apply atari_position_session.
  - vm_compute. reflexivity.
  - apply (Hcount 0 0). vm_compute. reflexivity.
Defined.

Lemma last_capture_exact_witness :
  stone 2 2 W ∈ stones atari_position ∧
  (stone 2 2 W ∉ stones capture_position) ∧
  stone 2 2 W ∈ last_capture capture_position.
Proof.
  destruct (last_capture_exact atari_position (stone 2 3 B) false
              capture_position) as [Hexact _].
  - apply atari_position_session.
  - vm_compute. reflexivity.
  - assert (Hin : stone 2 2 W ∈ last_capture capture_position).
    { vm_compute. apply list_elem_of_here. }
    destruct (proj1 (Hexact (stone 2 2 W)) Hin) as [Hbefore Hafter].
    split; [exact Hbefore|]. split; [exact Hafter|exact Hin].
Defined.

Lemma emptied_chains_stay_empty_witness :
  chains capture_position !! 0%nat = Some [] ∧
  chains (play (stone 2 2 B) false capture_position).1 !! 0%nat = Some [].
Proof.
  destruct (emptied_chains_stay_empty capture_position (stone 2 2 B) false)
    as [_ Hkeep].
  - apply capture_position_session.
  - split; [|apply Hkeep]; vm_compute; reflexivity.
Defined.

Lemma chains_one_colour_witness :
  chains merged_position !! 8%nat =
    Some [stone 2 2 B; stone 2 0 B; stone 2 1 B] ∧
  player (stone 2 2 B) = player (stone 2 1 B).
Proof.
  split; [vm_compute; reflexivity|].
  apply (chains_one_colour merged_position 8
           [stone 2 2 B; stone 2 0 B; stone 2 1 B]).
  - apply merged_position_session.
  - vm_compute. reflexivity.
  - apply list_elem_of_here.
  - do 2 apply list_elem_of_further. apply list_elem_of_here.
Defined.

Lemma chains_have_liberties_witness :
  liberties capture_position [stone 1 2 B] ≠ [].
Proof.
  apply (chains_have_liberties capture_position 1 [stone 1 2 B]).
  - apply capture_position_session.
  - vm_compute. reflexivity.
  - discriminate.
Defined.




Lemma rebuild_reproduces_session_witness :
  _init_chains branch_position = (branch_position, Returned).
Proof.
  apply (rebuild_reproduces_session branch_position).
  apply branch_position_session.
Defined.


Lemma play_then_undo_witness :
  undo capture_position =
    (set_tree (root capture_position) (current_node atari_position)
       atari_position, Returned).
Proof.
  apply (play_then_undo atari_position (stone 2 3 B) false capture_position).
  - apply atari_position_session.
  - vm_compute. reflexivity.
Defined.

Lemma navigation_returns_witness :
  (undo branch_position).2 = Returned ∧
  (redo branch_position).2 = Returned ∧
  (switch_branch 1 branch_position).2 = Returned.
Proof.
  apply (navigation_returns branch_position 1).
  apply branch_position_session.
Defined.

Lemma session_position_witness :
  ∃ gr, reachable gr ∧ board branch_position = board gr ∧
        chains branch_position = chains gr.
Proof.
  destruct (session_position branch_position)
    as (gr & _ & Hreach & _ & Hb & Hc & _).
  - apply branch_position_session.
  - exists gr. split; [exact Hreach|]. split; [exact Hb|exact Hc].
Defined.

Lemma redo_after_undo_witness :
  current_node (switch_branch 1 branch_position).1 = [0%nat] ∧
  current_node (redo (undo (switch_branch 1 branch_position).1).1).1 =
    [1%nat].
Proof.
  split; [vm_compute; reflexivity|].
  destruct (redo_after_undo (switch_branch 1 branch_position).1 [] 0%nat
              (root branch_position)) as (_ & _ & Hcur & _).
  - apply session_switch, branch_position_session.
  - vm_compute. reflexivity.
  - vm_compute. reflexivity.
  - exact Hcur.
Defined.

Lemma switch_branch_back_witness :
  current_node branch_position = [1%nat] ∧
  current_node (switch_branch (-1) branch_position).1 = [0%nat] ∧
  current_node
    (switch_branch 1 (switch_branch (-1) branch_position).1).1 = [1%nat].
Proof.
  split; [vm_compute; reflexivity|].
  destruct (switch_branch_back branch_position [] 1%nat
              (root branch_position)
              (Node (Some (stone 3 3 B)) [] []) (-1)) as [Hgo Hback].
  - vm_compute. reflexivity.
  - reflexivity.
  - vm_compute. reflexivity.
  - vm_compute. lia.
  - split; [exact Hgo|exact Hback].
Defined.

Lemma game_ended_two_passes_witness :
  game_ended (played 5 [stone 2 2 B; pass W; pass B]) = true.
Proof.
  apply (game_ended_two_passes 5
           [(stone 2 2 B, false); (pass W, false); (pass B, false)]).
  - vm_compute. reflexivity.
  - exists [stone 2 2 B], (pass W), (pass B). repeat split.
Defined.

Lemma handicap_points_distinct_witness :
  NoDup (handicap_stones 19 9) ∧
  Forall (λ p, on_board 19 p.1 p.2) (handicap_stones 19 9).
Proof. apply (handicap_points_distinct 19 9). lia. Defined.

Lemma handicap_game_witness :
  let r := Game_init 19 (Some (Node None [] [])) (Some 4) in
  r.2 = Returned ∧
  (cell (board r.1) 3 3 ≠ -1 ↔ (3, 3) ∈ handicap_stones 19 4) ∧
  prisoners r.1 = [].
Proof.
  destruct (handicap_game 19 4 []) as (Hret & _ & Hocc & _ & Hpris & _).
  - lia.
  - split; [exact Hret|]. split; [|exact Hpris].
    apply Hocc. vm_compute. repeat split; discriminate.
Defined.
